(** * Geofence updater: a shallow embedding of the core and its properties

    The development follows the packages of the repository:
    [binarydiff] (prefix/suffix delta codec, delta file format, size
    statistics), [crypto] (SHA-256, Ed25519 wrappers, key pairs and their
    hexadecimal text), [merkle] (tree, proofs), [geofence] (fence model,
    structured deltas, point checks), [config] (validation and defaults),
    [storage] (fence table and R-Tree index), [client] (constructor, manifest
    download and verification), [publisher] (constructor, manifest signing),
    [sync] (update protocol and point check) and [version] (manager query).

    Part I holds the embedding, Part II the statements and their proofs. *)

From Stdlib Require Import ZArith NArith List Bool Lia.
From Stdlib Require Import Strings.String Strings.Byte Strings.Ascii.
From Stdlib Require Import DecimalString.
From Stdlib Require Import Floats Uint63.
From Stdlib Require Import Sorting.Sorted.
From Stdlib Require OrderedTypeEx.
From stdpp Require Import gmap strings list sorting.

Local Open Scope Z_scope.

(* ###################################################################### *)
(** * Part I: the embedding *)
(* ###################################################################### *)

(** ** Go values shared by all packages *)

(** A Go function returning [(T, error)]: either the value or the error
    message built by [fmt.Errorf]. *)
Inductive result (A : Type) : Type :=
  | Ok (a : A)
  | Err (msg : string).
Arguments Ok {A} a.
Arguments Err {A} msg.

Definition is_ok {A} (r : result A) : bool :=
  match r with Ok _ => true | Err _ => false end.

Abbreviation byte := Byte.byte.
Abbreviation bytes := (list Byte.byte).

#[global] Instance byte_eq_dec : EqDecision byte := Byte.byte_eq_dec.

(** [len(x)] as a Go [int]. *)
Definition len {A} (l : list A) : Z := Z.of_nat (length l).

(** [x[lo:hi]] on a slice. *)
Definition slice {A} (lo hi : nat) (l : list A) : list A :=
  take (hi - lo) (drop lo l).

Definition Z_of_byte (b : byte) : Z := Z.of_N (Byte.to_N b).

Definition byte_of_Z (z : Z) : byte :=
  match Byte.of_N (Z.to_N (z mod 256)) with
  | Some b => b
  | None => x00
  end.

(** Conversion to [uint32] wraps around. *)
Definition uint32 (z : Z) : Z := z mod 2 ^ 32.

(** [binary.LittleEndian.Uint32] on a four-byte slice. *)
Definition LittleEndian_Uint32 (b : bytes) : Z :=
  match b with
  | [b0; b1; b2; b3] =>
      Z.lor (Z_of_byte b0)
        (Z.lor (Z.shiftl (Z_of_byte b1) 8)
           (Z.lor (Z.shiftl (Z_of_byte b2) 16) (Z.shiftl (Z_of_byte b3) 24)))
  | _ => 0
  end.

(** [binary.Write(w, binary.LittleEndian, uint32(v))]. *)
Definition LittleEndian_PutUint32 (v : Z) : bytes :=
  [byte_of_Z v; byte_of_Z (Z.shiftr v 8);
   byte_of_Z (Z.shiftr v 16); byte_of_Z (Z.shiftr v 24)].

(** [float64(n)] for a non-negative Go [int]. *)
Definition float64_of_int (n : Z) : float := PrimFloat.of_uint63 (Uint63.of_Z n).

(** [ed25519.Sign(privateKey, message)] and
    [ed25519.Verify(publicKey, message, sig)] of the Go library. *)
Class Ed25519 : Type := {
  ed25519_Sign : bytes -> bytes -> bytes;
  ed25519_Verify : bytes -> bytes -> bytes -> bool
}.

(* ====================================================================== *)
(** ** Package crypto: SHA-256, hexadecimal encoding, signatures *)
(* ====================================================================== *)

Module Crypto.

(** *** SHA-256 ([crypto/sha256]), after FIPS 180-4, on 32-bit words
    held in [N]. *)

Definition mask32 : N := 0xffffffff%N.

Definition add32 (a b : N) : N := N.land (a + b) mask32.

Definition rotr (n x : N) : N :=
  N.lor (N.shiftr x n) (N.land (N.shiftl x (32 - n)) mask32).

Definition Ch (x y z : N) : N :=
  N.lxor (N.land x y) (N.land (N.lxor x mask32) z).

Definition Maj (x y z : N) : N :=
  N.lxor (N.lxor (N.land x y) (N.land x z)) (N.land y z).

Definition bigSigma0 (x : N) : N := N.lxor (N.lxor (rotr 2 x) (rotr 13 x)) (rotr 22 x).
Definition bigSigma1 (x : N) : N := N.lxor (N.lxor (rotr 6 x) (rotr 11 x)) (rotr 25 x).
Definition smallSigma0 (x : N) : N := N.lxor (N.lxor (rotr 7 x) (rotr 18 x)) (N.shiftr x 3).
Definition smallSigma1 (x : N) : N := N.lxor (N.lxor (rotr 17 x) (rotr 19 x)) (N.shiftr x 10).

(** The constants are derived as FIPS 180-4 defines them, from the first
    primes: the first 32 bits of the fractional parts of their cube roots
    (round constants) and of their square roots (initial hash value). *)
Definition isPrime (n : N) : bool :=
  (1 <? n)%N
  && forallb (fun d => negb (n mod d =? 0)%N)
       (map N.of_nat (seq 2 (N.to_nat n - 2))).

Definition firstPrimes (count : nat) : list N :=
  take count (List.filter isPrime (map N.of_nat (seq 2 310))).

(** The integer cube root, bit by bit from the top. *)
Fixpoint icbrt_loop (bits : nat) (n r : N) : N :=
  match bits with
  | O => r
  | S bits' =>
      let c := (r + 2 ^ N.of_nat bits')%N in
      icbrt_loop bits' n (if (c * c * c <=? n)%N then c else r)
  end.

Definition icbrt (n : N) : N := icbrt_loop 40 n 0%N.

Definition K256 : list N :=
  map (fun p => N.land (icbrt (p * 2 ^ 96)) mask32) (firstPrimes 64).

Definition initialHash : list N :=
  map (fun p => N.land (N.sqrt (p * 2 ^ 64)) mask32) (firstPrimes 8).

Definition byte_of_N (n : N) : byte := byte_of_Z (Z.of_N n).

(** Big-endian encodings of a 32-bit and of a 64-bit word. *)
Definition be32 (w : N) : bytes :=
  [byte_of_N (N.shiftr w 24); byte_of_N (N.shiftr w 16);
   byte_of_N (N.shiftr w 8); byte_of_N w].

Definition be64 (w : N) : bytes :=
  be32 (N.land (N.shiftr w 32) mask32) ++ be32 (N.land w mask32).

Fixpoint word_of_be (acc : N) (b : bytes) : N :=
  match b with
  | [] => acc
  | x :: b' => word_of_be (N.lor (N.shiftl acc 8) (Byte.to_N x)) b'
  end.

(** Padding: a one bit, zeros up to 56 modulo 64, the bit length. *)
Definition pad (msg : bytes) : bytes :=
  let l := length msg in
  let zeros := ((64 - (l + 9) mod 64) mod 64)%nat in
  msg ++ [x80] ++ repeat x00 zeros ++ be64 (8 * N.of_nat l).

(** Cut into pieces of [n] elements; [fuel] bounds the number of pieces. *)
Fixpoint chunks {A} (n fuel : nat) (l : list A) : list (list A) :=
  match fuel with
  | O => []
  | S fuel' =>
      match l with
      | [] => []
      | _ => take n l :: chunks n fuel' (drop n l)
      end
  end.

Definition words_of_block (block : bytes) : list N :=
  map (word_of_be 0%N) (chunks 4 16 block).

(** The message schedule: [w] grows from 16 to 64 words. *)
Fixpoint schedule (steps : nat) (w : list N) : list N :=
  match steps with
  | O => w
  | S steps' =>
      let t := length w in
      let get (k : nat) := default 0%N (w !! (t - k)%nat) in
      let wt := add32 (add32 (smallSigma1 (get 2%nat)) (get 7%nat))
                      (add32 (smallSigma0 (get 15%nat)) (get 16%nat)) in
      schedule steps' (w ++ [wt])
  end.

(** The eight working variables. *)
Record state8 : Type := State8 {
  va : N; vb : N; vc : N; vd : N; ve : N; vf : N; vg : N; vh : N
}.

Definition round (s : state8) (kw : N * N) : state8 :=
  let t1 := add32 (add32 (add32 (vh s) (bigSigma1 (ve s)))
                         (add32 (Ch (ve s) (vf s) (vg s)) (fst kw))) (snd kw) in
  let t2 := add32 (bigSigma0 (va s)) (Maj (va s) (vb s) (vc s)) in
  State8 (add32 t1 t2) (va s) (vb s) (vc s) (add32 (vd s) t1) (ve s) (vf s) (vg s).

Definition state_of_list (h : list N) : state8 :=
  match h with
  | [a; b; c; d; e; f; g; i] => State8 a b c d e f g i
  | _ => State8 0 0 0 0 0 0 0 0
  end.

Definition list_of_state (s : state8) : list N :=
  [va s; vb s; vc s; vd s; ve s; vf s; vg s; vh s].

Definition compress (h : list N) (block : bytes) : list N :=
  let w := schedule 48 (words_of_block block) in
  let s := fold_left round (combine K256 w) (state_of_list h) in
  map (fun p : N * N => add32 (fst p) (snd p)) (combine h (list_of_state s)).

(** [sha256.Sum256]: the 32-byte digest. *)
Definition sha256 (msg : bytes) : bytes :=
  let padded := pad msg in
  let h := fold_left compress (chunks 64 (length padded) padded) initialHash in
  concat (map be32 h).

(** [ComputeSHA256] and [VerifyHash] of the package. *)
Definition ComputeSHA256 (data : bytes) : bytes := sha256 data.

Definition VerifyHash (data expectedHash : bytes) : bool :=
  bool_decide (ComputeSHA256 data = expectedHash).

(** *** [hex.EncodeToString] *)

Definition hexdigit (n : N) : Ascii.ascii :=
  Ascii.ascii_of_N (if (n <? 10)%N then 48 + n else 87 + n).

Fixpoint hex_EncodeToString (b : bytes) : string :=
  match b with
  | [] => EmptyString
  | x :: b' =>
      String (hexdigit (N.shiftr (Byte.to_N x) 4))
        (String (hexdigit (N.land (Byte.to_N x) 15)) (hex_EncodeToString b'))
  end.

Definition KeyIDSize : nat := 8.
Definition PublicKeySize : Z := 32.
Definition PrivateKeySize : Z := 64.
Definition SignatureSize : Z := 64.

(** [computeKeyID]: the first eight bytes of the key's digest, in hex. *)
Definition computeKeyID (publicKey : bytes) : string :=
  hex_EncodeToString (take KeyIDSize (sha256 publicKey)).

Definition PublicKeyToKeyID (publicKey : bytes) : result string :=
  if negb (len publicKey =? PublicKeySize)
  then Err "invalid public key size"
  else Ok (computeKeyID publicKey).

(** *** Ed25519 *)

Record KeyPair : Type := mkKeyPair {
  PublicKey : bytes;
  PrivateKey : bytes;
  KeyPairID : string
}.

Section WithEd25519.
Context `{Ed25519}.

(** Method [Sign] of [KeyPair]; a panic is reported as an error. *)
Definition KeyPair_Sign (k : KeyPair) (message : bytes) : result bytes :=
  if len (PrivateKey k) =? 0 then Err "panic: private key not available"
  else Ok (ed25519_Sign (PrivateKey k) message).

(** [Verify]: wrong sizes give false. *)
Definition Verify (publicKey message signature : bytes) : bool :=
  if negb (len publicKey =? PublicKeySize) then false
  else if negb (len signature =? SignatureSize) then false
  else ed25519_Verify publicKey message signature.

End WithEd25519.

End Crypto.

(* ====================================================================== *)
(** ** Package geofence: the fence model *)
(* ====================================================================== *)

(** [math.Sin], [math.Cos] and [math.Atan2] of the Go library; the other
    floating-point operations are those of IEEE binary64. *)
Class GoMath : Type := {
  math_Sin : float -> float;
  math_Cos : float -> float;
  math_Atan2 : float -> float -> float
}.

Module Geofence.

(** [FenceType] is an [int32]; the named constants of the package. *)
Definition FenceType : Type := Z.
Definition FenceTypeUnknown : FenceType := 0.
Definition FenceTypeTempRestriction : FenceType := 1.
Definition FenceTypePermanentNoFly : FenceType := 2.
Definition FenceTypeAltitudeLimit : FenceType := 3.
Definition FenceTypeAltitudeMinimum : FenceType := 4.
Definition FenceTypeSpeedLimit : FenceType := 5.

Record Point : Type := mkPoint {
  Latitude : float;
  Longitude : float
}.

Record BoundingBox : Type := mkBoundingBox {
  MinLat : float;
  MinLon : float;
  MaxLat : float;
  MaxLon : float
}.

(** A nil pointer is [None]; a nil slice is the empty list. *)
Record Geometry : Type := mkGeometry {
  Polygon : list Point;
  CircleCenter : option Point;
  CircleRadius : float;
  BBox : option BoundingBox
}.

Record FenceItem : Type := mkFenceItem {
  ID : string;
  Type_ : FenceType;
  Geometry_ : Geometry;
  StartTS : Z;
  EndTS : Z;
  Priority : Z;
  MaxAltitude : Z;
  MaxSpeed : Z;
  Name : string;
  Description : string;
  Signature : bytes;
  KeyID : string
}.

Record FenceCollection : Type := mkFenceCollection {
  Items : list FenceItem;
  CreatedTS : Z;
  CollectionVersion : string
}.

Record FenceDelta : Type := mkFenceDelta {
  Added : list FenceItem;
  RemovedIDs : list string;
  Updated : list FenceItem
}.

Record Manifest : Type := mkManifest {
  Version : Z;
  Timestamp : Z;
  RootHash : bytes;
  DeltaURL : string;
  SnapshotURL : string;
  DeltaSize : Z;
  SnapshotSize : Z;
  DeltaHash : bytes;
  SnapshotHash : bytes;
  MinClientV : Z;
  Message : string;
  ManifestSignature : bytes;
  ManifestKeyID : string
}.

(** [fence.Signature = nil] on a copy. *)
Definition clearSignature (f : FenceItem) : FenceItem :=
  mkFenceItem (ID f) (Type_ f) (Geometry_ f) (StartTS f) (EndTS f) (Priority f)
    (MaxAltitude f) (MaxSpeed f) (Name f) (Description f) [] (KeyID f).

(** *** Activity window *)

(** [IsActiveAt], on the Unix time [ts] of its argument. *)
Definition IsActiveAt (f : FenceItem) (ts : Z) : bool :=
  if ts <? StartTS f then false
  else if (0 <? EndTS f) && (EndTS f <? ts) then false
  else true.

(** *** Geometric predicates *)

Local Open Scope float_scope.

Definition Contains (b : BoundingBox) (p : Point) : bool :=
  (MinLat b <=? Latitude p) && (Latitude p <=? MaxLat b)
  && (MinLon b <=? Longitude p) && (Longitude p <=? MaxLon b).

(** The constant [1e-10] as the nearest binary64 value. *)
Definition epsilon : float := 0x1.b7cdfd9d7bdbbp-34.

(** One edge of the ray casting: [vi] is the current vertex, [vj] the
    previous one. *)
Definition crosses (p vi vj : Point) : bool :=
  xorb (Longitude p <? Longitude vi) (Longitude p <? Longitude vj)
  && (Latitude p <?
        (Latitude vj - Latitude vi) * (Longitude p - Longitude vi)
          / (Longitude vj - Longitude vi + epsilon)
        + Latitude vi).

Fixpoint pointInPolygon_loop (p vj : Point) (rest : list Point) (inside : bool) : bool :=
  match rest with
  | [] => inside
  | vi :: rest' =>
      pointInPolygon_loop p vi rest' (if crosses p vi vj then negb inside else inside)
  end.

Definition pointInPolygon (p : Point) (polygon : list Point) : bool :=
  if (len polygon <? 3)%Z then false
  else
    match last polygon with
    | Some vlast => pointInPolygon_loop p vlast polygon false
    | None => false
    end.

(** [math.Pi] as a [float64]. *)
Definition math_Pi : float := 0x1.921fb54442d18p+1.

Definition degToRad (deg : float) : float := deg * math_Pi / 180.

Section Circle.
Context `{GoMath}.

Definition haversineDistance (p1 p2 : Point) : float :=
  let earthRadius := 6371000 in
  let lat1 := degToRad (Latitude p1) in
  let lon1 := degToRad (Longitude p1) in
  let lat2 := degToRad (Latitude p2) in
  let lon2 := degToRad (Longitude p2) in
  let dLat := lat2 - lat1 in
  let dLon := lon2 - lon1 in
  let a := math_Sin (dLat / 2) * math_Sin (dLat / 2)
           + math_Cos lat1 * math_Cos lat2 * math_Sin (dLon / 2) * math_Sin (dLon / 2) in
  let c := 2 * math_Atan2 (PrimFloat.sqrt a) (PrimFloat.sqrt (1 - a)) in
  earthRadius * c.

Definition pointInCircle (p center : Point) (radiusMeters : float) : bool :=
  haversineDistance p center <=? radiusMeters.

Definition Geometry_ContainsPoint (g : Geometry) (p : Point) : bool :=
  match BBox g with
  | Some b => Contains b p
  | None =>
      if (0 <? len (Polygon g))%Z then pointInPolygon p (Polygon g)
      else
        match CircleCenter g with
        | Some c => pointInCircle p c (CircleRadius g)
        | None => false
        end
  end.

Definition ContainsPoint (f : FenceItem) (p : Point) : bool :=
  Geometry_ContainsPoint (Geometry_ f) p.

End Circle.

(** *** Bounding boxes for the spatial index *)

Definition zeroBox : BoundingBox := mkBoundingBox 0 0 0 0.

Fixpoint boundsFromPoints_loop (b : BoundingBox) (points : list Point) : BoundingBox :=
  match points with
  | [] => b
  | p :: rest =>
      let b1 := if Latitude p <? MinLat b
                then mkBoundingBox (Latitude p) (MinLon b) (MaxLat b) (MaxLon b) else b in
      let b2 := if MaxLat b1 <? Latitude p
                then mkBoundingBox (MinLat b1) (MinLon b1) (Latitude p) (MaxLon b1) else b1 in
      let b3 := if Longitude p <? MinLon b2
                then mkBoundingBox (MinLat b2) (Longitude p) (MaxLat b2) (MaxLon b2) else b2 in
      let b4 := if MaxLon b3 <? Longitude p
                then mkBoundingBox (MinLat b3) (MinLon b3) (MaxLat b3) (Longitude p) else b3 in
      boundsFromPoints_loop b4 rest
  end.

Definition boundsFromPoints (points : list Point) : BoundingBox :=
  match points with
  | [] => zeroBox
  | p0 :: rest =>
      boundsFromPoints_loop
        (mkBoundingBox (Latitude p0) (Longitude p0) (Latitude p0) (Longitude p0)) rest
  end.

Definition cosDegrees (deg : float) : float :=
  let radPerDeg := 0x1.1df46a2529d39p-6 in (* 0.017453292519943295 *)
  let rad := deg * radPerDeg in
  let x := rad * rad in
  1 - x / 2 + x * x / 24.

Definition GetBounds (f : FenceItem) : BoundingBox :=
  match BBox (Geometry_ f) with
  | Some b => b
  | None =>
      if (0 <? len (Polygon (Geometry_ f)))%Z then boundsFromPoints (Polygon (Geometry_ f))
      else
        match CircleCenter (Geometry_ f) with
        | Some c =>
            let approxLatDeg := 111000 in
            let latDelta := CircleRadius (Geometry_ f) / approxLatDeg in
            let lonDelta := CircleRadius (Geometry_ f) / approxLatDeg
                            / cosDegrees (Latitude c) in
            mkBoundingBox (Latitude c - latDelta) (Longitude c - lonDelta)
                          (Latitude c + latDelta) (Longitude c + lonDelta)
        | None => zeroBox
        end
  end.

Local Close Scope float_scope.

(** *** Structured deltas *)

(** The loop over [delta.Added]: an id already in the map is an error. *)
Fixpoint addFences (fenceMap : gmap string FenceItem) (added : list FenceItem)
  : result (gmap string FenceItem) :=
  match added with
  | [] => Ok fenceMap
  | f :: rest =>
      match fenceMap !! ID f with
      | Some _ => Err ("fence " ++ ID f ++ " already exists")
      | None => addFences (<[ID f := f]> fenceMap) rest
      end
  end.

(** The loop over [delta.Updated]: an id missing from the map is an error. *)
Fixpoint updateFences (fenceMap : gmap string FenceItem) (updated : list FenceItem)
  : result (gmap string FenceItem) :=
  match updated with
  | [] => Ok fenceMap
  | f :: rest =>
      match fenceMap !! ID f with
      | None => Err ("fence " ++ ID f ++ " does not exist")
      | Some _ => updateFences (<[ID f := f]> fenceMap) rest
      end
  end.

(** The map built from the existing fences, a later entry replacing an
    earlier one with the same id. *)
Definition mapOfFences (existing : list FenceItem) : gmap string FenceItem :=
  foldl (fun m f => <[ID f := f]> m) ∅ existing.

Definition removeIDs (fenceMap : gmap string FenceItem) (ids : list string)
  : gmap string FenceItem :=
  foldl (fun m id => delete id m) fenceMap ids.

(** [ApplyDelta]. Go ranges over the map in an unspecified order; the
    model lists the entries in the order of [map_to_list]. *)
Definition ApplyDelta (existing : list FenceItem) (delta : FenceDelta)
  : result (list FenceItem) :=
  let fenceMap := removeIDs (mapOfFences existing) (RemovedIDs delta) in
  match addFences fenceMap (Added delta) with
  | Err e => Err e
  | Ok fenceMap1 =>
      match updateFences fenceMap1 (Updated delta) with
      | Err e => Err e
      | Ok fenceMap2 => Ok (map snd (map_to_list fenceMap2))
      end
  end.

End Geofence.

(** [encoding/json] on the types of the package: [json.Marshal],
    [json.MarshalIndent] and [json.Unmarshal]. *)
Class JsonCodec : Type := {
  json_Marshal_FenceItem : Geofence.FenceItem -> result bytes;
  json_Unmarshal_FenceItem : bytes -> result Geofence.FenceItem;
  json_Marshal_FenceCollection : Geofence.FenceCollection -> result bytes;
  json_Unmarshal_FenceCollection : bytes -> result Geofence.FenceCollection;
  json_Unmarshal_FenceDelta : bytes -> result Geofence.FenceDelta;
  json_Marshal_Manifest : Geofence.Manifest -> result bytes;
  json_MarshalIndent_Manifest : Geofence.Manifest -> result bytes;
  json_Unmarshal_Manifest : bytes -> result Geofence.Manifest
}.

(** Package geofence, the functions that encode. *)
Module GeofenceManifest.
Import Geofence.

Section WithJson.
Context `{JsonCodec}.

Definition withSignature (m : Manifest) (sig : bytes) (keyID : string) : Manifest :=
  mkManifest (Version m) (Timestamp m) (RootHash m) (DeltaURL m) (SnapshotURL m)
    (DeltaSize m) (SnapshotSize m) (DeltaHash m) (SnapshotHash m) (MinClientV m)
    (Message m) sig keyID.

(** [MarshalBinaryForSigning]: the encoding of a copy whose [Signature]
    is nil; the other fields, [KeyID] included, are as they are. *)
Definition MarshalBinaryForSigning (m : Manifest) : result bytes :=
  match json_Marshal_Manifest (withSignature m [] (ManifestKeyID m)) with
  | Err e => Err ("failed to marshal manifest: " ++ e)
  | Ok data => Ok data
  end.

Definition SetSignature (m : Manifest) (sig : bytes) (keyID : string) : Manifest :=
  withSignature m sig keyID.

End WithJson.

End GeofenceManifest.

(* ====================================================================== *)
(** ** Package binarydiff: the byte-level delta codec *)
(* ====================================================================== *)

Module Binarydiff.

(** [commonPrefixLen]: the index of the first position where [a] and [b]
    differ, or the length of the shorter one. *)
Fixpoint commonPrefixLen (a b : bytes) : nat :=
  match a, b with
  | x :: a', y :: b' =>
      if decide (x = y) then S (commonPrefixLen a' b') else O
  | _, _ => O
  end.

(** The loop of [commonSuffixLen]: [i] runs from 0 while [i < maxLen];
    [fuel] is the number of iterations left. *)
Fixpoint commonSuffixLen_loop (a b : bytes) (maxLen fuel i : nat) : nat :=
  match fuel with
  | O => maxLen
  | S fuel' =>
      let ai := len a - 1 - Z.of_nat i in
      let bi := len b - 1 - Z.of_nat i in
      if (ai <? 0) || (bi <? 0)
         || negb (bool_decide (a !! Z.to_nat ai = b !! Z.to_nat bi))
      then i
      else commonSuffixLen_loop a b maxLen fuel' (S i)
  end.

Definition commonSuffixLen (a b : bytes) : nat :=
  let maxLen := Nat.min (length a) (length b) in
  commonSuffixLen_loop a b maxLen maxLen O.

(** The test [float64(len(newData)-len(oldData))/float64(len(oldData)) > threshold]
    with [threshold = 0.5], in IEEE binary64 as Go computes it. *)
Definition threshold : float := 0.5%float.

Definition tooDifferent (oldData newData : bytes) : bool :=
  PrimFloat.ltb threshold
    (PrimFloat.div (float64_of_int (len newData - len oldData))
                   (float64_of_int (len oldData))).

(** The two heuristics of [computeDiff] under which the new data is
    returned as it is. *)
Definition emitsVerbatim (oldData newData : bytes) : bool :=
  (len newData <? len oldData) || tooDifferent oldData newData.

Definition computeDiff (oldData newData : bytes) : result bytes :=
  if len newData <? len oldData then Ok newData
  else if tooDifferent oldData newData then Ok newData
  else
    let prefixLen := commonPrefixLen oldData newData in
    let suffixLen :=
      commonSuffixLen (drop prefixLen oldData) (drop prefixLen newData) in
    let middleStart := prefixLen in
    let middleEnd := (length newData - suffixLen)%nat in
    Ok (LittleEndian_PutUint32 (uint32 (Z.of_nat prefixLen))
        ++ LittleEndian_PutUint32 (uint32 (Z.of_nat suffixLen))
        ++ slice middleStart middleEnd newData).

(** The sanity ceiling of [Patch]: [10*1024*1024]. *)
Definition maxPatchedLen : Z := 10 * 1024 * 1024.

(** The length [Patch] would reconstruct from a delta of at least 8 bytes. *)
Definition totalLen (diffData : bytes) : Z :=
  LittleEndian_Uint32 (slice 0 4 diffData)
  + len (drop 8 diffData)
  + LittleEndian_Uint32 (slice 4 8 diffData).

Definition Patch (oldData diffData : bytes) : result bytes :=
  if len diffData <? 8 then Ok diffData
  else
    let prefixLen := LittleEndian_Uint32 (slice 0 4 diffData) in
    let suffixLen := LittleEndian_Uint32 (slice 4 8 diffData) in
    if (uint32 (len oldData) <? prefixLen) || (uint32 (len oldData) <? suffixLen)
    then Ok diffData
    else if maxPatchedLen <? totalLen diffData then Ok diffData
    else
      let result := take (Z.to_nat prefixLen) oldData ++ drop 8 diffData in
      if (0 <? suffixLen) && (prefixLen + suffixLen <=? len oldData)
      then Ok (result ++ drop (Z.to_nat (len oldData - suffixLen)) oldData)
      else Ok result.

(** *** Deltas between fence collections *)

Record DeltaFile : Type := mkDeltaFile {
  FromVersion : Z;
  ToVersion : Z;
  FromSize : Z;
  ToSize : Z;
  DiffData : bytes;
  DiffHash : bytes
}.

(** [encoding/json] on [DeltaFile]. *)
Class DeltaCodec : Type := {
  json_Unmarshal_DeltaFile : bytes -> result DeltaFile
}.

Section WithJson.
Context `{JsonCodec} `{DeltaCodec}.

Definition collectionOf (fences : list Geofence.FenceItem) : Geofence.FenceCollection :=
  Geofence.mkFenceCollection fences 0 EmptyString.

Definition Diff (oldFences newFences : list Geofence.FenceItem) : result DeltaFile :=
  match json_Marshal_FenceCollection (collectionOf oldFences) with
  | Err e => Err ("failed to marshal old fences: " ++ e)
  | Ok oldData =>
      match json_Marshal_FenceCollection (collectionOf newFences) with
      | Err e => Err ("failed to marshal new fences: " ++ e)
      | Ok newData =>
          match computeDiff oldData newData with
          | Err e => Err ("failed to compute binary diff: " ++ e)
          | Ok diffData =>
              Ok (mkDeltaFile 0 0 (len oldData) (len newData) diffData
                    (Crypto.sha256 diffData))
          end
      end
  end.

Definition PatchFences (oldFences : list Geofence.FenceItem) (delta : DeltaFile)
  : result (list Geofence.FenceItem) :=
  match json_Marshal_FenceCollection (collectionOf oldFences) with
  | Err e => Err ("failed to marshal old fences: " ++ e)
  | Ok oldData =>
      if (0 <? len (DiffHash delta))
         && negb (bool_decide (Crypto.sha256 (DiffData delta) = DiffHash delta))
      then Err "diff hash mismatch"
      else
        match Patch oldData (DiffData delta) with
        | Err e => Err ("failed to apply patch: " ++ e)
        | Ok newData =>
            match json_Unmarshal_FenceCollection newData with
            | Err e => Err ("failed to unmarshal new fences: " ++ e)
            | Ok collection => Ok (Geofence.Items collection)
            end
        end
  end.

Definition ReadDelta (data : bytes) : result DeltaFile :=
  match json_Unmarshal_DeltaFile data with
  | Err e => Err ("failed to read delta: " ++ e)
  | Ok delta => Ok delta
  end.

End WithJson.

End Binarydiff.

(* ====================================================================== *)
(** ** Package merkle: the tree over the fence set and its proofs *)
(* ====================================================================== *)

Module Merkle.
Import Geofence.

Definition HashSize : nat := 32.

(** [Hash{}], the zero value of [[HashSize]byte]. *)
Definition zeroHash : bytes := repeat x00 HashSize.

(** A node of the tree. The code handles nodes through [*Node] pointers
    and compares the pointers; [addr] is the address of the node, a fresh
    one for every allocation. A nil pointer is [None]. *)
#[warnings="-register-all"]
Inductive Node : Type := mkNode {
  addr : nat;
  Hash : bytes;
  Left : option Node;
  Right : option Node;
  Leaf : bool;
  LeafID : string;
  LeafData : bytes
}.

Record Tree : Type := mkTree {
  root : option Node;
  leaves : gmap string Node
}.

(** Pointer comparison. *)
Definition samePtr (a b : Node) : bool := Nat.eqb (addr a) (addr b).

Definition pointsTo (p : option Node) (n : Node) : bool :=
  match p with
  | Some a => samePtr a n
  | None => false
  end.

Definition hashOf (p : option Node) : bytes :=
  match p with
  | Some a => Hash a
  | None => []
  end.

(** One pass of the inner loop of [buildTree]: the nodes are taken two
    by two, each pair under a new parent whose hash is the digest of what
    was written to the hasher; a last node without partner gets a parent
    with a nil [Right]. [next] is the next free address. *)
Fixpoint buildLevel (next : nat) (nodes : list Node) : list Node * nat :=
  match nodes with
  | [] => ([], next)
  | [lchild] =>
      ([mkNode next (Crypto.sha256 (Hash lchild)) (Some lchild) None false EmptyString []],
       S next)
  | lchild :: rchild :: rest =>
      let parent := mkNode next (Crypto.sha256 (Hash lchild ++ Hash rchild))
                      (Some lchild) (Some rchild) false EmptyString [] in
      let (level, next') := buildLevel (S next) rest in
      (parent :: level, next')
  end.

(** The outer loop [for len(nodes) > 1]. *)
Fixpoint buildLoop (fuel next : nat) (nodes : list Node) : list Node :=
  match fuel with
  | O => nodes
  | S fuel' =>
      if 1 <? len nodes
      then let (level, next') := buildLevel next nodes in buildLoop fuel' next' level
      else nodes
  end.

Definition buildTree (next : nat) (nodes : list Node) : option Node :=
  if len nodes =? 0 then None
  else if len nodes =? 1 then head nodes
  else head (buildLoop (length nodes) next nodes).

(** [sort.Slice] by ascending id, as an insertion sort. *)
Fixpoint insertByID (f : FenceItem) (sorted : list FenceItem) : list FenceItem :=
  match sorted with
  | [] => [f]
  | g :: rest =>
      if String.ltb (ID g) (ID f) then g :: insertByID f rest else f :: g :: rest
  end.

Definition sortByID (fences : list FenceItem) : list FenceItem :=
  foldr insertByID [] fences.

Section WithJson.
Context `{JsonCodec}.

(** The loop of [NewTree] that creates the leaves and fills [t.leaves]. *)
Fixpoint makeLeaves (next : nat) (sorted : list FenceItem) (leafMap : gmap string Node)
  : result (list Node * gmap string Node) :=
  match sorted with
  | [] => Ok ([], leafMap)
  | fence :: rest =>
      match json_Marshal_FenceItem fence with
      | Err e => Err ("failed to marshal fence " ++ ID fence ++ ": " ++ e)
      | Ok data =>
          match json_Marshal_FenceItem (clearSignature fence) with
          | Err e => Err ("failed to marshal fence for hashing " ++ ID fence ++ ": " ++ e)
          | Ok dataForHash =>
              let node := mkNode next (Crypto.sha256 dataForHash) None None true
                            (ID fence) data in
              match makeLeaves (S next) rest (<[ID fence := node]> leafMap) with
              | Err e => Err e
              | Ok (nodes, leafMap') => Ok (node :: nodes, leafMap')
              end
          end
      end
  end.

Definition NewTree (fences : list FenceItem) : result Tree :=
  if len fences =? 0 then Ok (mkTree None ∅)
  else
    match makeLeaves 0 (sortByID fences) ∅ with
    | Err e => Err e
    | Ok (leafNodes, leafMap) =>
        Ok (mkTree (buildTree (length leafNodes) leafNodes) leafMap)
    end.

End WithJson.

Definition RootHash (t : Tree) : bytes :=
  match root t with
  | None => zeroHash
  | Some r => Hash r
  end.

Fixpoint findParentRecursive (node child : Node) : option Node :=
  match node with
  | mkNode _ _ l r isLeaf _ _ =>
      if isLeaf then None
      else if pointsTo l child || pointsTo r child then Some node
      else
        match (match l with
               | Some ln => findParentRecursive ln child
               | None => None
               end) with
        | Some parent => Some parent
        | None =>
            match r with
            | Some rn => findParentRecursive rn child
            | None => None
            end
        end
  end.

Definition findParent (t : Tree) (child : Node) : option Node :=
  match root t with
  | None => None
  | Some r => findParentRecursive r child
  end.

(** The number of nodes below and including a node. *)
Fixpoint nodeCount (n : Node) : nat :=
  match n with
  | mkNode _ _ l r _ _ _ =>
      S ((match l with Some ln => nodeCount ln | None => O end)
         + (match r with Some rn => nodeCount rn | None => O end))
  end.

(** The loop of [GetProof], from the leaf up to the root; each turn moves
    one level up, so the number of nodes bounds the turns. *)
Fixpoint GetProof_loop (fuel : nat) (t : Tree) (current : Node) (proof : list bytes)
  : list bytes :=
  match fuel with
  | O => proof
  | S fuel' =>
      if pointsTo (root t) current then proof
      else
        match findParent t current with
        | None => proof
        | Some parent =>
            let siblingHash :=
              if pointsTo (Left parent) current then hashOf (Right parent)
              else hashOf (Left parent) in
            let proof' := if 0 <? len siblingHash then proof ++ [siblingHash] else proof in
            GetProof_loop fuel' t parent proof'
        end
  end.

Definition GetProof (t : Tree) (fenceID : string) : result (list bytes) :=
  match leaves t !! fenceID with
  | None => Err ("fence not found: " ++ fenceID)
  | Some leaf =>
      Ok (GetProof_loop (match root t with Some r => nodeCount r | None => O end)
            t leaf [])
  end.

(** One turn of the verification loop. *)
Definition verifyStep (currentHash siblingHash : bytes) : bytes :=
  if len siblingHash =? 0 then currentHash
  else Crypto.sha256 (Crypto.sha256 (currentHash ++ siblingHash)).

Section WithJson.
Context `{JsonCodec}.

Definition VerifyProof (fenceID : string) (fenceData : bytes) (proof : list bytes)
  (rootHash : bytes) : result bool :=
  match json_Unmarshal_FenceItem fenceData with
  | Err e => Err ("failed to unmarshal fence: " ++ e)
  | Ok fence =>
      match json_Marshal_FenceItem (clearSignature fence) with
      | Err e => Err ("failed to marshal fence: " ++ e)
      | Ok data =>
          let currentHash := fold_left verifyStep proof (Crypto.sha256 data) in
          Ok (bool_decide (currentHash = rootHash))
      end
  end.

(** [CreateSnapshot] at the time [now], and [LoadSnapshot]. *)
Definition CreateSnapshot (now : Z) (fences : list FenceItem) : result (bytes * Z) :=
  match json_Marshal_FenceCollection (mkFenceCollection fences now EmptyString) with
  | Err e => Err ("failed to marshal snapshot: " ++ e)
  | Ok data => Ok (data, len data)
  end.

Definition LoadSnapshot (data : bytes) : result (list FenceItem) :=
  match json_Unmarshal_FenceCollection data with
  | Err e => Err ("failed to unmarshal snapshot: " ++ e)
  | Ok collection => Ok (Items collection)
  end.

(** [merkle.ApplyDelta]: decode the delta, then [geofence.ApplyDelta]. *)
Definition ApplyDelta (existingFences : list FenceItem) (deltaData : bytes)
  : result (list FenceItem) :=
  match json_Unmarshal_FenceDelta deltaData with
  | Err e => Err ("failed to unmarshal delta: " ++ e)
  | Ok delta => Geofence.ApplyDelta existingFences delta
  end.

End WithJson.

End Merkle.

(* ====================================================================== *)
(** ** Package storage: the fence table and the spatial index *)
(* ====================================================================== *)

Module Storage.
Import Geofence.

(** *** The database *)

(** A row of table [fences]: the integer primary key and the columns,
    which are the fields of the fence (column [geometry_json] holds the
    JSON text of the geometry and is kept as the geometry it decodes to). *)
Record FenceRow : Type := mkFenceRow {
  rowid : Z;
  item : FenceItem
}.

(** A row of the R-Tree table [fence_index]. *)
Record IndexRow : Type := mkIndexRow {
  irowid : Z;
  minX : float;
  maxX : float;
  minY : float;
  maxY : float
}.

(** The tables, rows in the order of insertion; [fences_seq] is the
    counter SQLite keeps for [AUTOINCREMENT]; the two keys of table
    [metadata]. *)
Record DB : Type := mkDB {
  fences : list FenceRow;
  fence_index : list IndexRow;
  fences_seq : Z;
  metadata_manifest : option Manifest;
  metadata_version : option Z
}.

Definition emptyDB : DB := mkDB [] [] 0 None None.

Definition setFences (d : DB) (rows : list FenceRow) : DB :=
  mkDB rows (fence_index d) (fences_seq d) (metadata_manifest d) (metadata_version d).

Definition setIndex (d : DB) (rows : list IndexRow) : DB :=
  mkDB (fences d) rows (fences_seq d) (metadata_manifest d) (metadata_version d).

(** *** SQL statements on the tables *)

Definition hasID (id : string) (r : FenceRow) : bool := String.eqb (ID (item r)) id.

(** The next [AUTOINCREMENT] key: above every key in use or used before. *)
Definition nextRowid (d : DB) : Z :=
  foldr Z.max (fences_seq d) (map rowid (fences d)) + 1.

(** [INSERT INTO fences ...]: column [id] is [UNIQUE]. Gives the new key. *)
Definition sqlInsertFence (f : FenceItem) (d : DB) : result (Z * DB) :=
  if existsb (hasID (ID f)) (fences d)
  then Err "UNIQUE constraint failed: fences.id"
  else
    let r := nextRowid d in
    Ok (r, mkDB (fences d ++ [mkFenceRow r f]) (fence_index d) r
              (metadata_manifest d) (metadata_version d)).

(** [INSERT INTO fence_index (rowid, minX, maxX, minY, maxY)]: the key is
    the primary key of the R-Tree. The statement decides the one refusal
    that depends on the tables. SQLite's R-Tree can also refuse the row for
    its coordinates (a lower bound above the upper one) and keeps them as
    32-bit numbers, each bound rounded outwards: such a refusal is one of
    the failed calls of the schedule of the world ([faults] below), so
    every run of the store is a run of the model. No statement of Part II
    about all fences concludes a success from the absence of a scheduled
    failure, and the runs of Part II store boxes whose bounds are in
    order. Of the coordinates Part II uses only that a box that holds a
    point here holds it in the R-Tree, and in one run that a point twenty
    times further out than the rounding is outside. *)
Definition sqlInsertIndex (rowID : Z) (b : BoundingBox) (d : DB) : result (unit * DB) :=
  if existsb (fun i => irowid i =? rowID) (fence_index d)
  then Err "UNIQUE constraint failed: fence_index.rowid"
  else Ok (tt, setIndex d (fence_index d
                           ++ [mkIndexRow rowID (MinLon b) (MaxLon b) (MinLat b) (MaxLat b)])).

(** [UPDATE fences SET ... WHERE id = ?]: gives the number of rows. *)
Definition sqlUpdateFence (f : FenceItem) (d : DB) : result (Z * DB) :=
  Ok (len (List.filter (hasID (ID f)) (fences d)),
      setFences d (map (fun r => if hasID (ID f) r then mkFenceRow (rowid r) f else r)
                     (fences d))).

(** [SELECT rowid FROM fences WHERE id = ?]. *)
Definition sqlSelectRowid (id : string) (d : DB) : option Z :=
  match List.filter (hasID id) (fences d) with
  | [] => None
  | r :: _ => Some (rowid r)
  end.

(** [UPDATE fence_index SET ... WHERE rowid = (SELECT rowid FROM fences
    WHERE id = ?)]. A refusal of the new coordinates by the R-Tree is a
    failed call of the schedule, as for the insertion. *)
Definition sqlUpdateIndex (id : string) (b : BoundingBox) (d : DB) : result (unit * DB) :=
  match sqlSelectRowid id d with
  | None => Ok (tt, d)
  | Some target =>
      Ok (tt, setIndex d
                (map (fun i => if irowid i =? target
                               then mkIndexRow target (MinLon b) (MaxLon b) (MinLat b) (MaxLat b)
                               else i)
                   (fence_index d)))
  end.

(** [DELETE FROM fences WHERE id = ?]: gives the number of rows. *)
Definition sqlDeleteFence (id : string) (d : DB) : result (Z * DB) :=
  Ok (len (List.filter (hasID id) (fences d)),
      setFences d (List.filter (fun r => negb (hasID id r)) (fences d))).

(** [DELETE FROM fence_index WHERE rowid = ?]. *)
Definition sqlDeleteIndex (rowID : Z) (d : DB) : result (unit * DB) :=
  Ok (tt, setIndex d (List.filter (fun i => negb (irowid i =? rowID)) (fence_index d))).

(** *** The world of a run *)

(** The database as committed, the outcomes of the database calls to come
    ([true]: the call returns an error, as for a full disk, a lost
    connection or a cancelled context; an exhausted schedule means no
    further failure; a statement that the database refuses for a reason
    the model of the statement does not decide is such a failed call), and
    the Unix time read by [time.Now]. *)
Record World : Type := mkWorld {
  db : DB;
  faults : list bool;
  clock : Z
}.

Definition nextFault (fs : list bool) : bool * list bool :=
  match fs with
  | [] => (false, [])
  | b :: rest => (b, rest)
  end.

(** Code that runs against the store. *)
Definition M (A : Type) : Type := World -> result A * World.

Definition ret {A} (a : A) : M A := fun w => (Ok a, w).

Definition fail {A} (msg : string) : M A := fun w => (Err msg, w).

Definition bind {A B} (m : M A) (k : A -> M B) : M B :=
  fun w =>
    match m w with
    | (Ok a, w') => k a w'
    | (Err e, w') => (Err e, w')
    end.

(** [if err != nil { return fmt.Errorf(prefix, err) }]. *)
Definition wrapErr {A} (prefix : string) (m : M A) : M A :=
  fun w =>
    match m w with
    | (Ok a, w') => (Ok a, w')
    | (Err e, w') => (Err (prefix ++ ": " ++ e), w')
    end.

(** Code that runs inside one [sql.Tx]: it sees and changes its own
    state of the tables, which reaches the database at commit. *)
Definition TxM (A : Type) : Type := DB -> list bool -> result A * DB * list bool.

Definition txRet {A} (a : A) : TxM A := fun d fs => (Ok a, d, fs).

Definition txFail {A} (msg : string) : TxM A := fun d fs => (Err msg, d, fs).

Definition txBind {A B} (m : TxM A) (k : A -> TxM B) : TxM B :=
  fun d fs =>
    match m d fs with
    | (Ok a, d', fs') => k a d' fs'
    | (Err e, d', fs') => (Err e, d', fs')
    end.

(** A statement run through the transaction: it fails when the database
    call does, or by a constraint. *)
Definition txExec {A} (prefix : string) (stmt : DB -> result (A * DB)) : TxM A :=
  fun d fs =>
    let (failed, fs') := nextFault fs in
    if failed then (Err (prefix ++ ": database error"), d, fs')
    else
      match stmt d with
      | Ok (a, d') => (Ok a, d', fs')
      | Err e => (Err (prefix ++ ": " ++ e), d, fs')
      end.

(** A call on the result of a statement ([LastInsertId], [RowsAffected]). *)
Definition txCall (prefix : string) : TxM unit :=
  fun d fs =>
    let (failed, fs') := nextFault fs in
    if failed then (Err (prefix ++ ": database error"), d, fs') else (Ok tt, d, fs').

(** [tx, err := s.db.BeginTx(ctx, nil)], the body, [tx.Commit()], with
    the deferred [tx.Rollback()] when [committed] is still false: the
    tables change only at a successful commit. *)
Definition inTransaction {A} (body : TxM A) : M A :=
  fun w =>
    let (failed, fs1) := nextFault (faults w) in
    if failed
    then (Err "failed to begin transaction: database error", mkWorld (db w) fs1 (clock w))
    else
      match body (db w) fs1 with
      | (Err e, _, fs2) => (Err e, mkWorld (db w) fs2 (clock w))
      | (Ok a, d', fs2) =>
          let (failed', fs3) := nextFault fs2 in
          if failed'
          then (Err "failed to commit transaction: database error",
                mkWorld (db w) fs3 (clock w))
          else (Ok a, mkWorld d' fs3 (clock w))
      end.

(** A statement run on the database handle, outside any transaction. *)
Definition dbExec {A} (prefix : string) (stmt : DB -> result (A * DB)) : M A :=
  fun w =>
    let (failed, fs') := nextFault (faults w) in
    if failed then (Err (prefix ++ ": database error"), mkWorld (db w) fs' (clock w))
    else
      match stmt (db w) with
      | Ok (a, d') => (Ok a, mkWorld d' fs' (clock w))
      | Err e => (Err (prefix ++ ": " ++ e), mkWorld (db w) fs' (clock w))
      end.

(** *** The operations of [SQLiteStore] *)

Definition ErrFenceNotFound : string := "fence not found".

Definition finite (x : float) : bool :=
  negb (PrimFloat.is_nan x) && negb (PrimFloat.is_infinity x).

Definition finitePoint (p : Point) : bool := finite (Latitude p) && finite (Longitude p).

(** [json.Marshal(fence.Geometry)] succeeds unless a number is NaN or
    infinite. *)
Definition geometryMarshals (g : Geometry) : bool :=
  forallb finitePoint (Polygon g)
  && match CircleCenter g with Some c => finitePoint c | None => true end
  && finite (CircleRadius g)
  && match BBox g with
     | Some b => finite (MinLat b) && finite (MinLon b) && finite (MaxLat b) && finite (MaxLon b)
     | None => true
     end.

Definition AddFence (fence : FenceItem) : M unit :=
  if negb (geometryMarshals (Geometry_ fence))
  then fail "failed to marshal geometry: json: unsupported value"
  else
    let bounds := GetBounds fence in
    inTransaction
      (txBind (txExec "failed to insert fence" (sqlInsertFence fence)) (fun rowID =>
       txBind (txCall "failed to get rowid") (fun _ =>
       txExec "failed to insert into rtree" (sqlInsertIndex rowID bounds)))).

Definition UpdateFence (fence : FenceItem) : M unit :=
  if negb (geometryMarshals (Geometry_ fence))
  then fail "failed to marshal geometry: json: unsupported value"
  else
    let bounds := GetBounds fence in
    inTransaction
      (txBind (txExec "failed to update fence" (sqlUpdateFence fence)) (fun rows =>
       txBind (txCall "failed to get rows affected") (fun _ =>
       if rows =? 0 then txFail ErrFenceNotFound
       else txExec "failed to update rtree" (sqlUpdateIndex (ID fence) bounds)))).

Definition DeleteFence (id : string) : M unit :=
  inTransaction
    (txBind (txCall "failed to get rowid") (fun _ =>
     fun d =>
       match sqlSelectRowid id d with
       | None => txFail ErrFenceNotFound d
       | Some rowID =>
           txBind (txExec "failed to delete fence" (sqlDeleteFence id)) (fun rows =>
           txBind (txCall "failed to get rows affected") (fun _ =>
           if rows =? 0 then txFail ErrFenceNotFound
           else txExec "failed to delete from rtree" (sqlDeleteIndex rowID))) d
       end)).

(** [ORDER BY priority DESC], as a stable insertion sort. SQL leaves the
    order of rows of equal priority open; the model keeps them in table
    order, one of the orders the database may return. The statements of
    Part II on [ListFences] and on [Check] do not mention the order of
    such rows; the run that shows a tie says that it rests on it. *)
Fixpoint insertByPriority (f : FenceItem) (sorted : list FenceItem) : list FenceItem :=
  match sorted with
  | [] => [f]
  | g :: rest =>
      if Priority f <? Priority g then g :: insertByPriority f rest else f :: g :: rest
  end.

Definition orderByPriorityDesc (rows : list FenceItem) : list FenceItem :=
  foldr insertByPriority [] rows.

(** A call that reads: the query, or [rows.Err()] after the scan. *)
Definition dbRead (prefix : string) : M unit :=
  fun w =>
    let (failed, fs') := nextFault (faults w) in
    if failed then (Err (prefix ++ ": database error"), mkWorld (db w) fs' (clock w))
    else (Ok tt, mkWorld (db w) fs' (clock w)).

Definition ListFences : M (list FenceItem) :=
  bind (dbRead "failed to query fences") (fun _ =>
  fun w =>
    bind (dbRead "failed to scan fence") (fun _ =>
    ret (orderByPriorityDesc (map item (fences (db w))))) w).

Definition GetFence (id : string) : M FenceItem :=
  bind (dbRead "failed to query fence") (fun _ =>
  fun w =>
    match List.filter (hasID id) (fences (db w)) with
    | [] => fail ("fence not found: " ++ id) w
    | r :: _ => ret (item r) w
    end).

(** The R-Tree condition of [QueryAtPoint] on a row of the index. *)
Definition boxHolds (i : IndexRow) (lat lon : float) : bool :=
  (PrimFloat.leb (minX i) lon) && (PrimFloat.leb lon (maxX i))
  && (PrimFloat.leb (minY i) lat) && (PrimFloat.leb lat (maxY i)).

(** [fences f INNER JOIN fence_index idx ON f.rowid = idx.rowid WHERE ...]. *)
Definition joinAtPoint (d : DB) (lat lon : float) : list FenceItem :=
  flat_map (fun r =>
              map (fun _ => item r)
                (List.filter (fun i => (irowid i =? rowid r) && boxHolds i lat lon)
                   (fence_index d)))
    (fences d).

Section WithMath.
Context `{GoMath}.

Definition QueryAtPoint (lat lon : float) : M (list FenceItem) :=
  bind (dbRead "failed to query rtree") (fun _ =>
  fun w =>
    let point := mkPoint lat lon in
    let candidates := orderByPriorityDesc (joinAtPoint (db w) lat lon) in
    let matching :=
      List.filter (fun f => ContainsPoint f point && IsActiveAt f (clock w)) candidates in
    bind (dbRead "failed to scan fence") (fun _ => ret matching) w).

End WithMath.

Definition GetManifest : M (option Manifest) :=
  bind (dbRead "failed to query manifest") (fun _ =>
  fun w => ret (metadata_manifest (db w)) w).

Definition SetManifest (manifest : Manifest) : M unit :=
  dbExec "failed to store manifest"
    (fun d => Ok (tt, mkDB (fences d) (fence_index d) (fences_seq d)
                        (Some manifest) (metadata_version d))).

Definition GetVersion : M Z :=
  bind (dbRead "failed to query version") (fun _ =>
  fun w => ret (match metadata_version (db w) with Some v => v | None => 0 end) w).

Definition SetVersion (version : Z) : M unit :=
  dbExec "failed to store version"
    (fun d => Ok (tt, mkDB (fences d) (fence_index d) (fences_seq d)
                        (metadata_manifest d) (Some version))).

(** [storage.Tx] wraps a [sql.Tx] in an unexported field and offers only
    [Commit] and [Rollback]: no statement can be run through it, so
    neither call changes the tables. *)
Definition BeginTx : M unit := dbRead "failed to begin transaction".
Definition Tx_Commit : M unit := dbRead "commit".
Definition Tx_Rollback : M unit := ret tt.

End Storage.

(* ====================================================================== *)
(** ** Package client: fetching and verifying the manifest *)
(* ====================================================================== *)

(** The network as the client sees it: the outcome of the manifest request
    for a base URL and of a binary download for a URL (status and size
    checks included), and [isAbsoluteURL] of [net/url]. *)
Class Network : Type := {
  http_manifest : string -> result bytes;
  http_binary : string -> result bytes;
  isAbsoluteURL : string -> bool
}.

Module Client.
Import Geofence.

Record Client : Type := mkClient {
  userAgent : string;
  publicKey : bytes;
  cdnBaseURL : string
}.

Section WithLibraries.
Context `{JsonCodec} `{Ed25519} `{Network}.

(** [verifyManifestSignature]: [data] is the body of the response, as
    downloaded. *)
Definition verifyManifestSignature (c : Client) (manifest : Manifest) (data : bytes)
  : result unit :=
  if len (publicKey c) =? 0 then Ok tt
  else if len (ManifestSignature manifest) =? 0 then Err "manifest has no signature"
  else if negb (Crypto.Verify (publicKey c) data (ManifestSignature manifest))
  then Err "invalid signature"
  else if negb (String.eqb (ManifestKeyID manifest) EmptyString)
  then
    match Crypto.PublicKeyToKeyID (publicKey c) with
    | Err e => Err ("failed to compute key ID: " ++ e)
    | Ok expectedKeyID =>
        if negb (String.eqb expectedKeyID (ManifestKeyID manifest))
        then Err ("key ID mismatch: expected " ++ expectedKeyID ++ ", got "
                  ++ ManifestKeyID manifest)
        else Ok tt
    end
  else Ok tt.

Definition FetchManifest (c : Client) : result Manifest :=
  if String.eqb (cdnBaseURL c) EmptyString then Err "no CDN base URL configured"
  else
    match http_manifest (cdnBaseURL c) with
    | Err e => Err e
    | Ok manifestData =>
        match json_Unmarshal_Manifest manifestData with
        | Err e => Err ("failed to parse manifest: " ++ e)
        | Ok manifest =>
            match verifyManifestSignature c manifest manifestData with
            | Err e => Err ("manifest signature verification failed: " ++ e)
            | Ok _ => Ok manifest
            end
        end
    end.

Definition FetchSnapshot (c : Client) (snapshotURL : string) : result bytes :=
  if String.eqb snapshotURL EmptyString then Err "empty snapshot URL"
  else http_binary (if isAbsoluteURL snapshotURL then snapshotURL
                    else cdnBaseURL c ++ snapshotURL).

Definition FetchDelta (c : Client) (deltaURL : string) : result bytes :=
  if String.eqb deltaURL EmptyString then Err "empty delta URL"
  else http_binary (if isAbsoluteURL deltaURL then deltaURL
                    else cdnBaseURL c ++ deltaURL).

End WithLibraries.

End Client.

(* ====================================================================== *)
(** ** Package publisher: signing the manifest *)
(* ====================================================================== *)

Module Publisher.
Import Geofence GeofenceManifest.

Section WithLibraries.
Context `{JsonCodec} `{Ed25519}.

(** The step "Sign manifest" of [Publish]: the error of
    [MarshalBinaryForSigning] is dropped, the data being nil then. *)
Definition signManifest (keyPair : Crypto.KeyPair) (manifest : Manifest) : result Manifest :=
  let manifestData :=
    match MarshalBinaryForSigning manifest with
    | Ok data => data
    | Err _ => []
    end in
  match Crypto.KeyPair_Sign keyPair manifestData with
  | Err e => Err e
  | Ok sig => Ok (SetSignature manifest sig (Crypto.KeyPairID keyPair))
  end.

(** [writeManifest]: the content of [manifest.json]. *)
Definition writeManifest (manifest : Manifest) : result bytes :=
  match json_MarshalIndent_Manifest manifest with
  | Err e => Err ("failed to marshal manifest: " ++ e)
  | Ok data => Ok data
  end.

End WithLibraries.

End Publisher.

(* ====================================================================== *)
(** ** Package sync: the update protocol and the point check *)
(* ====================================================================== *)

Module Syncer.
Import Geofence Storage.

(** The fields of [Syncer] that the code reads or writes; the store is the
    database of the world. *)
Record Syncer : Type := mkSyncer {
  client : Client.Client;
  currentVer : Z;
  lastSyncTime : option Z
}.

Record SyncResult : Type := mkSyncResult {
  UpToDate : bool;
  PreviousVer : Z;
  CurrentVer : Z;
  Error : option string
}.

Section WithLibraries.
Context `{JsonCodec} `{Binarydiff.DeltaCodec} `{Ed25519} `{Network} `{GoMath}.

Definition getCurrentFences : M (list FenceItem) := ListFences.

(** The loop of [updateStorage]: update, and add when the update
    reports an error. *)
Fixpoint storeFences (fences : list FenceItem) : M unit :=
  match fences with
  | [] => ret tt
  | f :: rest =>
      fun w =>
        match UpdateFence f w with
        | (Ok _, w1) => storeFences rest w1
        | (Err _, w1) =>
            match AddFence f w1 with
            | (Ok _, w2) => storeFences rest w2
            | (Err e, w2) => (Err ("failed to add fence " ++ ID f ++ ": " ++ e), w2)
            end
        end
  end.

(** [updateStorage]: the transaction begun here is the one of
    [storage.Tx]; the calls that follow go to the store, each with its own
    transaction or directly to the database handle. *)
Definition updateStorage (fences : list FenceItem) (manifest : Manifest) : M unit :=
  bind BeginTx (fun _ =>
  bind (storeFences fences) (fun _ =>
  bind (wrapErr "failed to store manifest" (SetManifest manifest)) (fun _ =>
  bind (wrapErr "failed to set version" (SetVersion (Version manifest))) (fun _ =>
  wrapErr "failed to commit transaction" Tx_Commit)))).

Definition liftResult {A} (r : result A) : M A :=
  fun w => (r, w).

Definition applySnapshot (s : Syncer) (manifest : Manifest) : M unit :=
  bind (wrapErr "failed to fetch snapshot"
          (liftResult (Client.FetchSnapshot (client s) (SnapshotURL manifest))))
    (fun snapshotData =>
  if (0 <? len (SnapshotHash manifest))
     && negb (Crypto.VerifyHash snapshotData (SnapshotHash manifest))
  then fail "snapshot hash verification failed"
  else
  bind (wrapErr "failed to load snapshot" (liftResult (Merkle.LoadSnapshot snapshotData)))
    (fun fences =>
  bind (if 0 <? len (RootHash manifest)
        then
          match Merkle.NewTree fences with
          | Err e => fail ("failed to build Merkle tree: " ++ e)
          | Ok tree =>
              if negb (Crypto.VerifyHash (Merkle.RootHash tree) (RootHash manifest))
              then fail "root hash verification failed"
              else ret tt
          end
        else ret tt)
    (fun _ => wrapErr "failed to update storage" (updateStorage fences manifest)))).

Definition applyDelta (s : Syncer) (manifest : Manifest) : M unit :=
  bind (wrapErr "failed to fetch delta"
          (liftResult (Client.FetchDelta (client s) (DeltaURL manifest))))
    (fun deltaData =>
  if (0 <? len (DeltaHash manifest))
     && negb (Crypto.VerifyHash deltaData (DeltaHash manifest))
  then fail "delta hash verification failed"
  else
  bind (wrapErr "failed to get current fences" getCurrentFences) (fun oldFences =>
  bind (wrapErr "failed to parse delta" (liftResult (Binarydiff.ReadDelta deltaData)))
    (fun delta =>
  let delta := Binarydiff.mkDeltaFile (currentVer s) (Version manifest)
                 (Binarydiff.FromSize delta) (Binarydiff.ToSize delta)
                 (Binarydiff.DiffData delta) (Binarydiff.DiffHash delta) in
  bind (wrapErr "failed to apply patch"
          (liftResult (Binarydiff.PatchFences oldFences delta)))
    (fun newFences =>
  wrapErr "failed to update storage" (updateStorage newFences manifest))))).

(** [Sync]: the result and the syncer after the call. *)
Definition Sync (s : Syncer) (w : World) : SyncResult * Syncer * World :=
  match Client.FetchManifest (client s) with
  | Err e =>
      (mkSyncResult false (currentVer s) 0 (Some ("failed to fetch manifest: " ++ e)%string), s, w)
  | Ok manifest =>
      if Version manifest <=? currentVer s
      then (mkSyncResult true (currentVer s) (Version manifest) None, s, w)
      else
        let useDelta :=
          (Version manifest - currentVer s =? 1)
          && negb (String.eqb (DeltaURL manifest) EmptyString) in
        match (if useDelta then applyDelta s manifest else applySnapshot s manifest) w with
        | (Err e, w') =>
            (mkSyncResult false (currentVer s) (Version manifest)
               (Some ("failed to apply update: " ++ e)%string), s, w')
        | (Ok _, w') =>
            (mkSyncResult false (currentVer s) (Version manifest) None,
             mkSyncer (client s) (Version manifest) (Some (clock w')), w')
        end
  end.

(** The search for the highest priority: [results[0]] to begin with, then
    every later entry of strictly higher priority. *)
Definition highestPriority (first : FenceItem) (others : list FenceItem) : FenceItem :=
  fold_left (fun best f => if Priority best <? Priority f then f else best) others first.

(** [Check]: allowed or not, and the restriction that decides. *)
Definition Check (lat lon : float) : M (bool * option FenceItem) :=
  bind (wrapErr "query failed" (QueryAtPoint lat lon)) (fun results =>
  match results with
  | [] => ret (true, None)
  | first :: others =>
      let highest := highestPriority first others in
      if (Type_ highest =? FenceTypePermanentNoFly)
         || (Type_ highest =? FenceTypeTempRestriction)
      then ret (false, Some highest)
      else ret (true, Some highest)
  end).

End WithLibraries.

End Syncer.

(* ====================================================================== *)
(** ** Package version: the query of the manager *)
(* ====================================================================== *)

Module Version.
Import Geofence Storage.

Section WithMath.
Context `{GoMath}.

(** Method [QueryAtPoint] of [Manager]. *)
Definition QueryAtPoint (lat lon : float) : M (bool * option FenceItem) :=
  bind (wrapErr "query failed" (Storage.QueryAtPoint lat lon)) (fun results =>
  match results with
  | [] => ret (true, None)
  | first :: others =>
      let highest := Syncer.highestPriority first others in
      if (Type_ highest =? FenceTypePermanentNoFly)
         || (Type_ highest =? FenceTypeTempRestriction)
      then ret (false, Some highest)
      else if Type_ highest =? FenceTypeAltitudeLimit then ret (true, Some highest)
      else if Type_ highest =? FenceTypeSpeedLimit then ret (true, Some highest)
      else ret (true, None)
  end).

Definition Check (lat lon : float) : M (bool * option FenceItem) := QueryAtPoint lat lon.

End WithMath.

End Version.

(* ====================================================================== *)
(** ** Executable stand-ins for the Go libraries *)
(* ====================================================================== *)

(** The statements of Part II hold for every implementation of
    [encoding/json], [crypto/ed25519] and [math]. To run the code on
    concrete inputs, this module gives instances that compute:
    a fragment of [encoding/json] that prints the Go encoding of fences
    with an empty geometry and of manifests, for strings that need no
    escaping, and decodes by looking a text up among the encodings of
    known values; a keyed digest with the sizes and the interface of
    Ed25519 (without its security); a [math] that is never called on
    inputs without circles, and one by power series for the one circle
    of the examples. *)
Module Examples.
Import Geofence.
Local Open Scope string_scope.

Definition dq : string := String (Ascii.ascii_of_N 34) EmptyString.
Definition nl : string := String (Ascii.ascii_of_N 10) EmptyString.

Definition quoted (s : string) : string := dq ++ s ++ dq.

Definition decimal (z : Z) : string := NilZero.string_of_int (Z.to_int z).

Definition base64Alphabet : list Ascii.ascii :=
  list_ascii_of_string
    "ABCDEFGHIJKLMNOPQRSTUVWXYZabcdefghijklmnopqrstuvwxyz0123456789+/".

Definition base64Char (n : N) : Ascii.ascii :=
  nth (N.to_nat n) base64Alphabet "="%char.

(** [base64.StdEncoding.EncodeToString]. *)
Fixpoint base64 (b : bytes) : string :=
  match b with
  | [] => EmptyString
  | [x] =>
      let n := Byte.to_N x in
      String (base64Char (N.shiftr n 2))
        (String (base64Char (N.shiftl (N.land n 3) 4)) "==")
  | [x; y] =>
      let n := Byte.to_N x in
      let m := Byte.to_N y in
      String (base64Char (N.shiftr n 2))
        (String (base64Char (N.lor (N.shiftl (N.land n 3) 4) (N.shiftr m 4)))
           (String (base64Char (N.shiftl (N.land m 15) 2)) "="))
  | x :: y :: z :: rest =>
      let n := Byte.to_N x in
      let m := Byte.to_N y in
      let o := Byte.to_N z in
      String (base64Char (N.shiftr n 2))
        (String (base64Char (N.lor (N.shiftl (N.land n 3) 4) (N.shiftr m 4)))
           (String (base64Char (N.lor (N.shiftl (N.land m 15) 2) (N.shiftr o 6)))
              (String (base64Char (N.land o 63)) (base64 rest))))
  end.

(** A [[]byte] field: [null] for a nil slice, else the base64 text. *)
Definition jsonBytes (b : bytes) : string :=
  match b with
  | [] => "null"
  | _ => quoted (base64 b)
  end.

(** A list of [name: value] members, compact or indented by two spaces. *)
Definition member (sep : string) (kv : string * string) : string :=
  quoted kv.1 ++ sep ++ kv.2.

Fixpoint joinWith (sep : string) (l : list string) : string :=
  match l with
  | [] => EmptyString
  | [x] => x
  | x :: rest => x ++ sep ++ joinWith sep rest
  end.

Definition object (members : list (string * string)) : string :=
  "{" ++ joinWith "," (map (member ":") members) ++ "}".

Definition objectIndent (members : list (string * string)) : string :=
  "{" ++ nl ++ "  " ++ joinWith ("," ++ nl ++ "  ") (map (member ": ") members)
  ++ nl ++ "}".

Definition emptyGeometry (g : Geometry) : bool :=
  match Polygon g, CircleCenter g, BBox g with
  | [], None, None => PrimFloat.eqb (CircleRadius g) 0%float
  | _, _, _ => false
  end.

Definition fenceText (f : FenceItem) : result string :=
  if emptyGeometry (Geometry_ f)
  then Ok (object
             [("id", quoted (ID f)); ("type", decimal (Type_ f)); ("geometry", "{}");
              ("start_ts", decimal (StartTS f)); ("end_ts", decimal (EndTS f));
              ("priority", decimal (Priority f)); ("max_alt_m", decimal (MaxAltitude f));
              ("max_speed_mps", decimal (MaxSpeed f)); ("name", quoted (Name f));
              ("description", quoted (Description f));
              ("signature", jsonBytes (Signature f)); ("key_id", quoted (KeyID f))])
  else Err "json: geometry outside the fragment".

Fixpoint fenceTexts (l : list FenceItem) : result (list string) :=
  match l with
  | [] => Ok []
  | f :: rest =>
      match fenceText f, fenceTexts rest with
      | Ok t, Ok ts => Ok (t :: ts)
      | Err e, _ => Err e
      | _, Err e => Err e
      end
  end.

Definition collectionText (c : FenceCollection) : result string :=
  match fenceTexts (Items c) with
  | Err e => Err e
  | Ok ts =>
      Ok (object
            [("items", match ts with [] => "null" | _ => "[" ++ joinWith "," ts ++ "]" end);
             ("created_ts", decimal (CreatedTS c));
             ("version", quoted (CollectionVersion c))])
  end.

Definition manifestMembers (m : Manifest) : list (string * string) :=
  [("version", decimal (Version m)); ("timestamp", decimal (Timestamp m));
   ("root_hash", jsonBytes (RootHash m)); ("delta_url", quoted (DeltaURL m));
   ("snapshot_url", quoted (SnapshotURL m)); ("delta_size", decimal (DeltaSize m));
   ("snapshot_size", decimal (SnapshotSize m)); ("delta_hash", jsonBytes (DeltaHash m));
   ("snapshot_hash", jsonBytes (SnapshotHash m));
   ("min_client_version", decimal (MinClientV m)); ("message", quoted (Message m));
   ("signature", jsonBytes (ManifestSignature m)); ("key_id", quoted (ManifestKeyID m))].

Definition toBytes (r : result string) : result bytes :=
  match r with
  | Ok s => Ok (list_byte_of_string s)
  | Err e => Err e
  end.

(** Decoding by lookup: the first known value one of whose encodings is
    the given text. *)
Definition decodeAmong {A} (encodings : list (A -> result bytes)) (known : list A)
  (data : bytes) : result A :=
  let gives (r : result bytes) :=
    match r with
    | Ok d => bool_decide (d = data)
    | Err _ => false
    end in
  match find (fun a => existsb (fun enc => gives (enc a)) encodings) known with
  | Some a => Ok a
  | None => Err "invalid character looking for beginning of value"
  end.

Definition exampleJson (fences : list FenceItem) (collections : list FenceCollection)
  (manifests : list Manifest) : JsonCodec := {|
  json_Marshal_FenceItem f := toBytes (fenceText f);
  json_Unmarshal_FenceItem := decodeAmong [fun f => toBytes (fenceText f)] fences;
  json_Marshal_FenceCollection c := toBytes (collectionText c);
  json_Unmarshal_FenceCollection :=
    decodeAmong [fun c => toBytes (collectionText c)] collections;
  json_Unmarshal_FenceDelta _ := Err "json: deltas outside the fragment";
  json_Marshal_Manifest m := Ok (list_byte_of_string (object (manifestMembers m)));
  json_MarshalIndent_Manifest m :=
    Ok (list_byte_of_string (objectIndent (manifestMembers m)));
  json_Unmarshal_Manifest :=
    decodeAmong [fun m => Ok (list_byte_of_string (object (manifestMembers m)));
                 fun m => Ok (list_byte_of_string (objectIndent (manifestMembers m)))]
      manifests
|}.

(** No trigonometry: for inputs without circles. *)
Definition noTrig : GoMath := {|
  math_Sin _ := 0%float;
  math_Cos _ := 0%float;
  math_Atan2 _ _ := 0%float
|}.

(** Trigonometry by power series, for the circle of the examples: sine
    and cosine by their Taylor series, and [Atan2 y x] as the series of
    the arc tangent at [y / x], which is accurate for a small positive
    quotient only (the angles between points a few kilometres apart). *)
Fixpoint alternating (n : nat) (x2 k term acc : float) : float :=
  match n with
  | O => acc
  | S n' =>
      let term' := (- term * x2 / ((k + 1) * (k + 2)))%float in
      alternating n' x2 (k + 2)%float term' (acc + term')%float
  end.

Fixpoint arctanSeries (n : nat) (t k pow acc : float) : float :=
  match n with
  | O => acc
  | S n' =>
      let pow' := (- pow * t * t)%float in
      arctanSeries n' t (k + 2)%float pow' (acc + pow' / (k + 2))%float
  end.

Definition seriesTrig : GoMath := {|
  math_Sin x := alternating 12 (x * x)%float 1%float x x;
  math_Cos x := alternating 12 (x * x)%float 0%float 1%float 1%float;
  math_Atan2 y x := arctanSeries 12 (y / x)%float 1%float (y / x)%float (y / x)%float
|}.

(** A keyed digest in the place of Ed25519: the private key is a seed
    followed by the public key, as in Go; here the seed is the digest of
    the public key, so that the verifier can recompute the signature. *)
Definition digestSign (privateKey message : bytes) : bytes :=
  (Crypto.sha256 (privateKey ++ message) ++ Crypto.sha256 (message ++ privateKey))%list.

Definition privateKeyOf (publicKey : bytes) : bytes :=
  (Crypto.sha256 publicKey ++ publicKey)%list.

Definition exampleEd25519 : Ed25519 := {|
  ed25519_Sign := digestSign;
  ed25519_Verify publicKey message sig :=
    bool_decide (sig = digestSign (privateKeyOf publicKey) message)
|}.

Definition exampleKeyPair : Crypto.KeyPair :=
  let publicKey := Crypto.sha256 (list_byte_of_string "publisher") in
  Crypto.mkKeyPair publicKey (privateKeyOf publicKey) (Crypto.computeKeyID publicKey).

(** No delta file decodes. *)
Definition noDeltas : Binarydiff.DeltaCodec := {|
  Binarydiff.json_Unmarshal_DeltaFile _ := Err "unexpected end of JSON input"
|}.

(** A static file server: the manifest under the base URL and binary
    objects under their URLs; everything else is not found. *)
Definition staticServer (base : string) (manifest : bytes) (objects : list (string * bytes))
  : Network := {|
  http_manifest url :=
    if String.eqb url base then Ok manifest else Err "unexpected status code: 404";
  http_binary url :=
    match find (fun o => String.eqb o.1 url) objects with
    | Some o => Ok o.2
    | None => Err "unexpected status code: 404"
    end;
  isAbsoluteURL url := String.prefix "https://" url
|}.

End Examples.

(* ====================================================================== *)
(** ** Package crypto: keys in hexadecimal, key pairs *)
(* ====================================================================== *)

(** [%d] of package [fmt] on an integer. *)
Definition fmt_d (z : Z) : string := NilZero.string_of_int (Z.to_int z).

(** [encoding/hex]: [DecodeString] and the text of its errors. *)
Module Hex.

(** [reverseHexTable]: the value of a hexadecimal digit, in either case. *)
Definition fromHexChar (c : Ascii.ascii) : option N :=
  let n := Ascii.N_of_ascii c in
  if (48 <=? n)%N && (n <=? 57)%N then Some (n - 48)%N
  else if (97 <=? n)%N && (n <=? 102)%N then Some (n - 87)%N
  else if (65 <=? n)%N && (n <=? 70)%N then Some (n - 55)%N
  else None.

Definition upperHexdigit (n : N) : Ascii.ascii :=
  Ascii.ascii_of_N (if (n <? 10)%N then 48 + n else 55 + n).

(** [strconv.IsPrint] on a rune below 256. *)
Definition isPrint (n : N) : bool :=
  ((32 <=? n)%N && (n <? 127)%N)
  || ((161 <=? n)%N && (n <=? 255)%N && negb (n =? 173)%N).

(** The UTF-8 encoding of a rune below 256. *)
Definition utf8 (n : N) : string :=
  if (n <? 128)%N then String (Ascii.ascii_of_N n) EmptyString
  else String (Ascii.ascii_of_N (192 + N.shiftr n 6))
         (String (Ascii.ascii_of_N (128 + N.land n 63)) EmptyString).

(** [InvalidByteError(c).Error()]: the byte is printed with [%#U]. *)
Definition InvalidByteError (c : Ascii.ascii) : string :=
  let n := Ascii.N_of_ascii c in
  ("encoding/hex: invalid byte: U+00"
   ++ String (upperHexdigit (N.shiftr n 4)) (String (upperHexdigit (N.land n 15)) EmptyString)
   ++ (if isPrint n then " '" ++ utf8 n ++ "'" else EmptyString))%string.

Definition ErrLength : string := "encoding/hex: odd length hex string".

Definition byte_of_N (n : N) : byte :=
  match Byte.of_N n with
  | Some b => b
  | None => x00
  end.

(** [hex.DecodeString]: the pairs are read from the left, the first
    offending byte is reported; a last digit without partner is an error of
    length. *)
Fixpoint DecodeString (s : string) : result bytes :=
  match s with
  | EmptyString => Ok []
  | String p EmptyString =>
      match fromHexChar p with
      | None => Err (InvalidByteError p)
      | Some _ => Err ErrLength
      end
  | String p (String q rest) =>
      match fromHexChar p with
      | None => Err (InvalidByteError p)
      | Some a =>
          match fromHexChar q with
          | None => Err (InvalidByteError q)
          | Some b =>
              match DecodeString rest with
              | Err e => Err e
              | Ok decoded => Ok (byte_of_N (16 * a + b) :: decoded)
              end
          end
      end
  end.

End Hex.

Module CryptoKeys.
Import Crypto.

Definition MarshalPublicKeyHex (publicKey : bytes) : string := hex_EncodeToString publicKey.

Definition MarshalPrivateKeyHex (privateKey : bytes) : string := hex_EncodeToString privateKey.

Definition UnmarshalPublicKeyHex (s : string) : result bytes :=
  match Hex.DecodeString s with
  | Err e => Err ("invalid hex encoding: " ++ e)
  | Ok key =>
      if negb (len key =? PublicKeySize)
      then Err ("invalid public key size: " ++ fmt_d (len key))
      else Ok key
  end.

Definition UnmarshalPrivateKeyHex (s : string) : result bytes :=
  match Hex.DecodeString s with
  | Err e => Err ("invalid hex encoding: " ++ e)
  | Ok key =>
      if negb (len key =? PrivateKeySize)
      then Err ("invalid private key size: " ++ fmt_d (len key))
      else Ok key
  end.

(** [ed25519.PrivateKey(privateKey).Public()] on a private key of 64
    bytes, the size checked before the call: a copy of its second half. *)
Definition ed25519_Public (privateKey : bytes) : bytes := drop 32 privateKey.

(** The comparison loop of [DeriveKeyPair]: the index of the first byte
    that differs. *)
Fixpoint firstMismatch (i : Z) (derived publicKey : bytes) : option Z :=
  match derived, publicKey with
  | x :: derived', y :: publicKey' =>
      if decide (x = y) then firstMismatch (i + 1) derived' publicKey' else Some i
  | _, _ => None
  end.

Definition DeriveKeyPair (publicKey privateKey : bytes) : result KeyPair :=
  if negb (len publicKey =? PublicKeySize)
  then Err ("invalid public key size: " ++ fmt_d (len publicKey))
  else if negb (len privateKey =? PrivateKeySize)
  then Err ("invalid private key size: " ++ fmt_d (len privateKey))
  else
    let derivedPublicKey := ed25519_Public privateKey in
    if negb (len derivedPublicKey =? len publicKey)
    then Err ("public key does not match private key: derived len="
              ++ fmt_d (len derivedPublicKey) ++ ", input len=" ++ fmt_d (len publicKey))
    else
      match firstMismatch 0 derivedPublicKey publicKey with
      | Some i => Err ("public key does not match private key: mismatch at byte " ++ fmt_d i)
      | None => Ok (mkKeyPair publicKey privateKey (computeKeyID publicKey))
      end.

(** [PublicKeyFromBytes]: a key pair for verification only. *)
Definition PublicKeyFromBytes (publicKey : bytes) : result KeyPair :=
  if negb (len publicKey =? PublicKeySize)
  then Err ("invalid public key size: " ++ fmt_d (len publicKey))
  else Ok (mkKeyPair publicKey [] (computeKeyID publicKey)).

End CryptoKeys.

(* ====================================================================== *)
(** ** Package config: validation and defaults *)
(* ====================================================================== *)

Module Config.

(** A [time.Duration] is a number of nanoseconds. *)
Definition Second : Z := 1000000000.
Definition Minute : Z := 60 * Second.

Definition DefaultSyncInterval : Z := 1 * Minute.
Definition DefaultHTTPTimeout : Z := 30 * Second.
Definition DefaultMaxDownloadSize : Z := 100 * 1024 * 1024.

Record ClientConfig : Type := mkClientConfig {
  ManifestURL : string;
  PublicKeyHex : string;
  StorePath : string;
  SyncInterval : Z;
  HTTPTimeout : Z;
  MaxDownloadSize : Z;
  UserAgent : string;
  InsecureSkipVerify : bool
}.

Record PublisherConfig : Type := mkPublisherConfig {
  PrivateKeyHex : string;
  KeyID : string;
  OutputDir : string;
  CDNBaseURL : string;
  CurrentVersion : Z;
  PreviousDir : string
}.

Record Config : Type := mkConfig {
  Client : option ClientConfig;
  Publisher : option PublisherConfig;
  DataDir : string
}.

Definition isEmpty (s : string) : bool := String.eqb s EmptyString.

(** Method [Validate] of [ClientConfig]. The method fills the defaults in
    place; the result is the configuration after the call. No field is
    written before the last check, so an error leaves it as it was. *)
Definition ClientConfig_Validate (c : ClientConfig) : result ClientConfig :=
  if isEmpty (ManifestURL c) then Err "manifest_url is required"
  else if isEmpty (PublicKeyHex c) && negb (InsecureSkipVerify c)
  then Err "public_key_hex is required (set insecure_skip_verify=true to disable verification, NOT recommended for production)"
  else if isEmpty (StorePath c) then Err "store_path is required"
  else
    Ok (mkClientConfig (ManifestURL c) (PublicKeyHex c) (StorePath c)
          (if SyncInterval c =? 0 then DefaultSyncInterval else SyncInterval c)
          (if HTTPTimeout c =? 0 then DefaultHTTPTimeout else HTTPTimeout c)
          (if MaxDownloadSize c =? 0 then DefaultMaxDownloadSize else MaxDownloadSize c)
          (if isEmpty (UserAgent c) then "GUL-Client/1.0" else UserAgent c)
          (InsecureSkipVerify c)).

(** Method [Validate] of [PublisherConfig], in the same way. *)
Definition PublisherConfig_Validate (c : PublisherConfig) : result PublisherConfig :=
  if isEmpty (PrivateKeyHex c) then Err "private_key_hex is required"
  else if isEmpty (OutputDir c) then Err "output_dir is required"
  else if isEmpty (CDNBaseURL c) then Err "cdn_base_url is required"
  else
    Ok (mkPublisherConfig (PrivateKeyHex c) (KeyID c) (OutputDir c) (CDNBaseURL c)
          (if CurrentVersion c =? 0 then 1 else CurrentVersion c) (PreviousDir c)).

(** Method [Validate] of [Config]: the error, if any, and the
    configuration after the call (the client part keeps its defaults when
    the publisher part is turned down). *)
Definition Config_Validate (c : Config) : option string * Config :=
  match Client c with
  | Some cc =>
      match ClientConfig_Validate cc with
      | Err e => (Some ("client config invalid: " ++ e)%string, c)
      | Ok cc' =>
          match Publisher c with
          | Some pc =>
              match PublisherConfig_Validate pc with
              | Err e => (Some ("publisher config invalid: " ++ e)%string,
                          mkConfig (Some cc') (Some pc) (DataDir c))
              | Ok pc' => (None, mkConfig (Some cc') (Some pc') (DataDir c))
              end
          | None => (None, mkConfig (Some cc') None (DataDir c))
          end
      end
  | None =>
      match Publisher c with
      | Some pc =>
          match PublisherConfig_Validate pc with
          | Err e => (Some ("publisher config invalid: " ++ e)%string, c)
          | Ok pc' => (None, mkConfig None (Some pc') (DataDir c))
          end
      | None => (None, c)
      end
  end.

Definition DefaultClientConfig : ClientConfig :=
  mkClientConfig EmptyString EmptyString EmptyString DefaultSyncInterval DefaultHTTPTimeout
    DefaultMaxDownloadSize "GUL-Client/1.0" false.

Definition DefaultPublisherConfig : PublisherConfig :=
  mkPublisherConfig EmptyString EmptyString "./output" "https://cdn.example.com/geofence"
    1 EmptyString.

End Config.

(* ====================================================================== *)
(** ** Constructors: [client.NewClient] and [publisher.NewPublisher] *)
(* ====================================================================== *)

Module Setup.

(** [NewClient]: the configuration is validated, the public key decoded
    when one is given. *)
Definition NewClient (cfg : Config.ClientConfig) : result Client.Client :=
  match Config.ClientConfig_Validate cfg with
  | Err e => Err ("invalid config: " ++ e)
  | Ok cfg' =>
      match (if negb (Config.isEmpty (Config.PublicKeyHex cfg'))
             then CryptoKeys.UnmarshalPublicKeyHex (Config.PublicKeyHex cfg')
             else Ok []) with
      | Err e => Err ("invalid public key: " ++ e)
      | Ok publicKey =>
          Ok (Client.mkClient (Config.UserAgent cfg') publicKey (Config.ManifestURL cfg'))
      end
  end.

(** [NewPublisher] up to the derivation of the key pair; [rest] is what
    follows (the output directory, the store, the current version), given
    the validated configuration and the key pair. *)
Definition NewPublisher {P : Type}
  (rest : Config.PublisherConfig -> Crypto.KeyPair -> result P)
  (cfg : Config.PublisherConfig) : result P :=
  match Config.PublisherConfig_Validate cfg with
  | Err e => Err ("invalid config: " ++ e)
  | Ok cfg' =>
      match CryptoKeys.UnmarshalPrivateKeyHex (Config.PrivateKeyHex cfg') with
      | Err e => Err ("invalid private key: " ++ e)
      | Ok privateKey =>
          match CryptoKeys.DeriveKeyPair [] privateKey with
          | Err e => Err ("failed to derive key pair: " ++ e)
          | Ok keyPair =>
              rest cfg'
                (if negb (Config.isEmpty (Config.KeyID cfg'))
                 then Crypto.mkKeyPair (Crypto.PublicKey keyPair) (Crypto.PrivateKey keyPair)
                        (Config.KeyID cfg')
                 else keyPair)
          end
      end
  end.

End Setup.

(* ====================================================================== *)
(** ** Package geofence: deltas between fence lists, checks on a list *)
(* ====================================================================== *)

Module GeofenceOps.
Import Geofence.

(** [fencesEqual] of package [geofence]: the geometry, the signature and
    the key id are not compared. *)
Definition fencesEqual (a b : FenceItem) : bool :=
  String.eqb (ID a) (ID b)
  && (Type_ a =? Type_ b)
  && (StartTS a =? StartTS b)
  && (EndTS a =? EndTS b)
  && (Priority a =? Priority b)
  && (MaxAltitude a =? MaxAltitude b)
  && (MaxSpeed a =? MaxSpeed b)
  && String.eqb (Name a) (Name b)
  && String.eqb (Description a) (Description b).

(** [CreateDelta]. The two loops range over the maps, in the order of
    [map_to_list] here; the first appends to [RemovedIDs] or to [Updated],
    the second to [Added]. *)
Definition CreateDelta (oldFences newFences : list FenceItem) : FenceDelta :=
  let oldMap := mapOfFences oldFences in
  let newMap := mapOfFences newFences in
  let removed :=
    omap (fun entry : string * FenceItem =>
            match newMap !! entry.1 with
            | None => Some entry.1
            | Some _ => None
            end) (map_to_list oldMap) in
  let updated :=
    omap (fun entry : string * FenceItem =>
            match newMap !! entry.1 with
            | Some newF => if fencesEqual entry.2 newF then None else Some newF
            | None => None
            end) (map_to_list oldMap) in
  let added :=
    omap (fun entry : string * FenceItem =>
            match oldMap !! entry.1 with
            | None => Some entry.2
            | Some _ => None
            end) (map_to_list newMap) in
  mkFenceDelta added removed updated.

(** Conversion of a [uint32] to [int32]. *)
Definition int32 (z : Z) : Z := (z + 2 ^ 31) mod 2 ^ 32 - 2 ^ 31.

Record CheckResult : Type := mkCheckResult {
  Allowed : bool;
  Restriction : option FenceItem;
  MatchingFences : list FenceItem
}.

Section WithMath.
Context `{GoMath}.

(** The methods below call [IsActiveNow]; [now] is the Unix time that
    [time.Now] gives. *)
Definition RestrictionLevel (f : FenceItem) (at_ : Point) (now : Z) : Z :=
  if negb (ContainsPoint f at_) then 0
  else if negb (IsActiveAt f now) then 0
  else if Type_ f =? FenceTypePermanentNoFly then 100
  else if Type_ f =? FenceTypeTempRestriction then 80
  else if Type_ f =? FenceTypeAltitudeLimit then 50
  else if Type_ f =? FenceTypeAltitudeMinimum then 40
  else if Type_ f =? FenceTypeSpeedLimit then 20
  else 10.

Definition GetAltitudeLimit (f : FenceItem) (at_ : Point) (now : Z) : Z :=
  if negb (ContainsPoint f at_) then 0
  else if negb (IsActiveAt f now) then 0
  else if (Type_ f =? FenceTypePermanentNoFly) || (Type_ f =? FenceTypeTempRestriction)
  then -1
  else if (Type_ f =? FenceTypeAltitudeLimit) && (0 <? MaxAltitude f)
  then int32 (MaxAltitude f)
  else 0.

Definition GetSpeedLimit (f : FenceItem) (at_ : Point) (now : Z) : Z :=
  if negb (ContainsPoint f at_) then 0
  else if negb (IsActiveAt f now) then 0
  else if (Type_ f =? FenceTypeSpeedLimit) && (0 <? MaxSpeed f)
  then int32 (MaxSpeed f)
  else 0.

(** One turn of the loop of [CheckFences] on the pair of
    [highestPriority] and [matchingFences]. *)
Definition checkStep (p : Point) (now : Z)
  (state : option FenceItem * list FenceItem) (f : FenceItem)
  : option FenceItem * list FenceItem :=
  if ContainsPoint f p && IsActiveAt f now
  then
    (match state.1 with
     | None => Some f
     | Some highest => if Priority highest <? Priority f then Some f else Some highest
     end,
     state.2 ++ [f])
  else state.

Definition CheckFences (fences : list FenceItem) (p : Point) (now : Z) : CheckResult :=
  let (highestPriority, matchingFences) := fold_left (checkStep p now) fences (None, []) in
  match highestPriority with
  | Some highest =>
      if (Type_ highest =? FenceTypePermanentNoFly)
         || (Type_ highest =? FenceTypeTempRestriction)
      then mkCheckResult false (Some highest) matchingFences
      else mkCheckResult true None matchingFences
  | None => mkCheckResult true None matchingFences
  end.

End WithMath.

End GeofenceOps.

(* ====================================================================== *)
(** ** Package binarydiff: the delta file with its binary header *)
(* ====================================================================== *)

Module DeltaFormat.
Import Binarydiff.

(** [binary.Write(w, binary.LittleEndian, v)] for an unsigned integer of
    [n] bytes, and the value [binary.Read] gives for such bytes. *)
Fixpoint le_bytes (n : nat) (v : Z) : bytes :=
  match n with
  | O => []
  | S n' => byte_of_Z v :: le_bytes n' (Z.shiftr v 8)
  end.

Fixpoint le_value (b : bytes) : Z :=
  match b with
  | [] => 0
  | x :: b' => Z_of_byte x + 256 * le_value b'
  end.

(** Conversions between [uint64] and [int64]. *)
Definition uint64 (z : Z) : Z := z mod 2 ^ 64.
Definition int64 (z : Z) : Z := (z + 2 ^ 63) mod 2 ^ 64 - 2 ^ 63.

(** A reader over bytes held in memory: the input that is left. *)
Definition Reader (A : Type) : Type := bytes -> result A * bytes.

(** [io.ReadFull(r, buf)] with [len(buf) = n]: the bytes read, or [io.EOF]
    when nothing is left, or [io.ErrUnexpectedEOF] when the input ends
    before the buffer is full. *)
Definition io_ReadFull (n : nat) : Reader bytes :=
  fun input =>
    if (n =? 0)%nat then (Ok [], input)
    else if (length input =? 0)%nat then (Err "EOF", input)
    else if (length input <? n)%nat then (Err "unexpected EOF", [])
    else (Ok (take n input), drop n input).

(** [binary.Read(r, binary.LittleEndian, &v)] for an unsigned integer of
    [n] bytes. *)
Definition binary_Read (n : nat) : Reader Z :=
  fun input =>
    match io_ReadFull n input with
    | (Ok b, rest) => (Ok (le_value b), rest)
    | (Err e, rest) => (Err e, rest)
    end.

Record DeltaHeader : Type := mkDeltaHeader {
  Magic : bytes;
  HeaderVersion : Z;
  HeaderFromVersion : Z;
  HeaderToVersion : Z;
  OldSize : Z;
  NewSize : Z;
  DiffSize : Z;
  HeaderDiffHash : bytes
}.

(** The bytes of ["GULD"]. *)
Definition deltaMagic : bytes := list_byte_of_string "GULD".

(** [binaryWriteHeader] into a buffer, whose writes do not fail: the bytes
    written. *)
Definition binaryWriteHeader (h : DeltaHeader) : bytes :=
  Magic h
  ++ le_bytes 2 (HeaderVersion h)
  ++ le_bytes 8 (HeaderFromVersion h)
  ++ le_bytes 8 (HeaderToVersion h)
  ++ le_bytes 8 (OldSize h)
  ++ le_bytes 8 (NewSize h)
  ++ le_bytes 8 (DiffSize h)
  ++ HeaderDiffHash h.

Definition readBind {A B} (m : Reader A) (k : A -> Reader B) : Reader B :=
  fun input =>
    match m input with
    | (Ok a, rest) => k a rest
    | (Err e, rest) => (Err e, rest)
    end.

(** [binaryReadHeader]. The hash is read last, into a buffer of 32 bytes;
    a short read is not an error there, the header then holds the bytes
    that were read. *)
Definition binaryReadHeader : Reader DeltaHeader :=
  readBind (io_ReadFull 4) (fun magic =>
  if negb (bool_decide (magic = deltaMagic))
  then fun rest => (Err ("invalid magic number: " ++ string_of_list_byte magic), rest)
  else
  readBind (binary_Read 2) (fun version =>
  readBind (binary_Read 8) (fun fromVersion =>
  readBind (binary_Read 8) (fun toVersion =>
  readBind (binary_Read 8) (fun oldSize =>
  readBind (binary_Read 8) (fun newSize =>
  readBind (binary_Read 8) (fun diffSize =>
  fun rest =>
    (Ok (mkDeltaHeader magic version fromVersion toVersion oldSize newSize diffSize
           (take 32 rest)),
     drop 32 rest)))))))).

Section WithJson.
Context `{JsonCodec}.

(** [WriteDeltaFile] into a buffer: the bytes of the file. *)
Definition WriteDeltaFile (oldFences newFences : list Geofence.FenceItem)
  (fromVer toVer : Z) : result bytes :=
  match Diff oldFences newFences with
  | Err e => Err ("failed to create diff: " ++ e)
  | Ok delta =>
      let header :=
        mkDeltaHeader deltaMagic 1 fromVer toVer (uint64 (FromSize delta))
          (uint64 (ToSize delta)) (uint64 (len (DiffData delta))) (DiffHash delta) in
      Ok (binaryWriteHeader header ++ DiffData delta)
  end.

End WithJson.

(** [ReadDeltaFile]. The buffer for the diff data has the size named in
    the header; a size beyond the input left is an error (of [io.ReadFull],
    or of the allocation when it is very large). *)
Definition ReadDeltaFile (input : bytes) (expectedToVer : Z) : result DeltaFile :=
  match binaryReadHeader input with
  | (Err e, _) => Err ("failed to read header: " ++ e)
  | (Ok header, rest) =>
      if negb (bool_decide (Magic header = deltaMagic))
      then Err ("invalid magic number: " ++ string_of_list_byte (Magic header))
      else if negb (HeaderVersion header =? 1)
      then Err ("unsupported delta version: " ++ fmt_d (HeaderVersion header))
      else if negb (HeaderToVersion header =? expectedToVer)
      then Err ("version mismatch: expected " ++ fmt_d expectedToVer ++ ", got "
                ++ fmt_d (HeaderToVersion header))
      else
        match io_ReadFull (Z.to_nat (DiffSize header)) rest with
        | (Err e, _) => Err ("failed to read diff data: " ++ e)
        | (Ok diffData, _) =>
            if (length (HeaderDiffHash header) =? 32)%nat
               && negb (bool_decide (Crypto.sha256 diffData = HeaderDiffHash header))
            then Err "diff hash mismatch"
            else
              Ok (mkDeltaFile (HeaderFromVersion header) (HeaderToVersion header)
                    (int64 (OldSize header)) (int64 (NewSize header)) diffData
                    (HeaderDiffHash header))
        end
  end.

End DeltaFormat.

(* ====================================================================== *)
(** ** Package binarydiff: the size estimate of a delta *)
(* ====================================================================== *)

Module DiffStats.
Import Geofence.

(** One turn of the loop over [newMap]: the id is counted as added when
    [oldMap] does not hold it, else as updated. *)
Definition countStep (oldMap : gset string) (counts : Z * Z) (entry : string * FenceItem)
  : Z * Z :=
  if decide (entry.1 ∈ oldMap) then (counts.1, counts.2 + 1) else (counts.1 + 1, counts.2).

(** [computeDeltaStats]: the numbers of added, removed and updated
    fences, in this order. [oldMap] is a set of ids, [newMap] a map from
    ids to fences, ranged over in the order of [map_to_list]. *)
Definition computeDeltaStats (oldFences newFences : list FenceItem) : Z * Z * Z :=
  let oldMap : gset string := list_to_set (ID <$> oldFences) in
  let newMap := mapOfFences newFences in
  let removed :=
    if Z.of_nat (size oldMap) - Z.of_nat (size newMap) <? 0 then 0
    else Z.of_nat (size oldMap) - Z.of_nat (size newMap) in
  let (added, updated) := fold_left (countStep oldMap) (map_to_list newMap) (0, 0) in
  (added, removed, updated).

(** [ComputeDeltaSize]: the estimate, which is never an error. *)
Definition ComputeDeltaSize (oldFences newFences : list FenceItem) : result Z :=
  let '(added, removed, updated) := computeDeltaStats oldFences newFences in
  Ok (added * 200 + updated * 300 + removed * 50).

End DiffStats.

(* ###################################################################### *)
(** * Part II: properties *)
(* ###################################################################### *)

(** ** Bytes and little-endian words *)

Lemma Z_of_byte_of_Z (z : Z) : Z_of_byte (byte_of_Z z) = z mod 256.
Proof.
  unfold Z_of_byte, byte_of_Z.
  assert (Hb : 0 <= z mod 256 < 256) by (apply Z.mod_pos_bound; lia).
  destruct (Byte.of_N (Z.to_N (z mod 256))) as [b|] eqn:E.
  - apply Byte.to_of_N in E. rewrite E. apply Z2N.id. lia.
  - apply Byte.of_N_None_iff in E. lia.
Qed.

Lemma Z_of_byte_range (b : byte) : 0 <= Z_of_byte b < 256.
Proof.
  unfold Z_of_byte. pose proof (Byte.to_N_bounded b). lia.
Qed.

Lemma LittleEndian_Uint32_Put (v : Z) :
  LittleEndian_Uint32 (LittleEndian_PutUint32 v) = v mod 2 ^ 32.
Proof.
  unfold LittleEndian_Uint32, LittleEndian_PutUint32.
  rewrite !Z_of_byte_of_Z.
  change 256 with (2 ^ 8).
  apply Z.bits_inj'. intros n Hn.
  rewrite !Z.lor_spec.
  destruct (Z.ltb_spec n 32) as [Hlt|Hge].
  - rewrite (Z.mod_pow2_bits_low v 32 n) by lia.
    destruct (Z.ltb_spec n 8); [|destruct (Z.ltb_spec n 16); [|destruct (Z.ltb_spec n 24)]].
    + rewrite Z.mod_pow2_bits_low by lia.
      rewrite !Z.shiftl_spec_low by lia. now rewrite !orb_false_r.
    + rewrite Z.mod_pow2_bits_high by lia.
      rewrite Z.shiftl_spec by lia. rewrite Z.mod_pow2_bits_low by lia.
      rewrite Z.shiftr_spec by lia.
      rewrite !Z.shiftl_spec_low by lia.
      replace (n - 8 + 8) with n by lia. now rewrite !orb_false_r.
    + rewrite Z.mod_pow2_bits_high by lia.
      rewrite (Z.shiftl_spec _ 8) by lia. rewrite (Z.mod_pow2_bits_high _ 8 (n - 8)) by lia.
      rewrite (Z.shiftl_spec _ 16) by lia. rewrite Z.mod_pow2_bits_low by lia.
      rewrite Z.shiftr_spec by lia.
      rewrite !Z.shiftl_spec_low by lia.
      replace (n - 16 + 16) with n by lia. now rewrite !orb_false_r.
    + rewrite Z.mod_pow2_bits_high by lia.
      rewrite (Z.shiftl_spec _ 8) by lia. rewrite (Z.mod_pow2_bits_high _ 8 (n - 8)) by lia.
      rewrite (Z.shiftl_spec _ 16) by lia. rewrite (Z.mod_pow2_bits_high _ 8 (n - 16)) by lia.
      rewrite (Z.shiftl_spec _ 24) by lia. rewrite Z.mod_pow2_bits_low by lia.
      rewrite Z.shiftr_spec by lia.
      replace (n - 24 + 24) with n by lia. reflexivity.
  - rewrite (Z.mod_pow2_bits_high v 32 n) by lia.
    rewrite Z.mod_pow2_bits_high by lia.
    rewrite (Z.shiftl_spec _ 8) by lia. rewrite (Z.mod_pow2_bits_high _ 8 (n - 8)) by lia.
    rewrite (Z.shiftl_spec _ 16) by lia. rewrite (Z.mod_pow2_bits_high _ 8 (n - 16)) by lia.
    rewrite (Z.shiftl_spec _ 24) by lia. rewrite (Z.mod_pow2_bits_high _ 8 (n - 24)) by lia.
    reflexivity.
Qed.

Lemma LittleEndian_PutUint32_length (v : Z) :
  length (LittleEndian_PutUint32 v) = 4%nat.
Proof. reflexivity. Qed.

(* ====================================================================== *)
(** ** binarydiff: diff followed by patch *)
(* ====================================================================== *)

Module BinarydiffSpec.
Import Binarydiff.

Lemma commonPrefixLen_le_l (a b : bytes) : (commonPrefixLen a b <= length a)%nat.
Proof.
  revert b. induction a as [|x a IH]; intros [|y b]; simpl; try lia.
  destruct (decide (x = y)); [specialize (IH b)|]; lia.
Qed.

Lemma commonPrefixLen_le_r (a b : bytes) : (commonPrefixLen a b <= length b)%nat.
Proof.
  revert b. induction a as [|x a IH]; intros [|y b]; simpl; try lia.
  destruct (decide (x = y)); [specialize (IH b)|]; lia.
Qed.

Lemma commonPrefixLen_take (a b : bytes) :
  take (commonPrefixLen a b) a = take (commonPrefixLen a b) b.
Proof.
  revert b. induction a as [|x a IH]; intros [|y b]; simpl; try reflexivity.
  destruct (decide (x = y)) as [->|]; simpl; [|reflexivity].
  now rewrite IH.
Qed.

(** Loop invariant of [commonSuffixLen]: the last [i] bytes agree. *)
Lemma commonSuffixLen_loop_spec (a b : bytes) (maxLen fuel i : nat) :
  (fuel + i = maxLen)%nat ->
  (maxLen <= length a)%nat -> (maxLen <= length b)%nat ->
  drop (length a - i) a = drop (length b - i) b ->
  (i <= commonSuffixLen_loop a b maxLen fuel i <= maxLen)%nat /\
  drop (length a - commonSuffixLen_loop a b maxLen fuel i) a
  = drop (length b - commonSuffixLen_loop a b maxLen fuel i) b.
Proof.
  revert i. induction fuel as [|fuel IH]; intros i Hfuel Ha Hb Hagree; simpl.
  - assert (i = maxLen) by lia. subst i. split; [lia | exact Hagree].
  - unfold len.
    destruct (Z.ltb_spec (Z.of_nat (length a) - 1 - Z.of_nat i) 0) as [Hneg|_]; [lia|].
    destruct (Z.ltb_spec (Z.of_nat (length b) - 1 - Z.of_nat i) 0) as [Hneg|_]; [lia|].
    simpl.
    replace (Z.to_nat (Z.of_nat (length a) - 1 - Z.of_nat i))
      with (length a - S i)%nat by lia.
    replace (Z.to_nat (Z.of_nat (length b) - 1 - Z.of_nat i))
      with (length b - S i)%nat by lia.
    destruct (bool_decide_reflect (a !! (length a - S i)%nat = b !! (length b - S i)%nat))
      as [Heq|Hne]; simpl.
    + destruct (lookup_lt_is_Some_2 a (length a - S i)%nat) as [x Hx]; [lia|].
      assert (Hy : b !! (length b - S i)%nat = Some x) by (now rewrite <- Heq).
      destruct (IH (S i)) as [Hrange Hdrop]; try lia.
      * rewrite (drop_S a x (length a - S i)) by exact Hx.
        rewrite (drop_S b x (length b - S i)) by exact Hy.
        replace (length a - i)%nat with (S (length a - S i)) in Hagree by lia.
        replace (length b - i)%nat with (S (length b - S i)) in Hagree by lia.
        now rewrite Hagree.
      * split; [lia | exact Hdrop].
    + split; [lia | exact Hagree].
Qed.

Lemma commonSuffixLen_le_l (a b : bytes) : (commonSuffixLen a b <= length a)%nat.
Proof.
  unfold commonSuffixLen.
  destruct (commonSuffixLen_loop_spec a b (Nat.min (length a) (length b))
              (Nat.min (length a) (length b)) 0) as [H _]; try lia.
  rewrite !Nat.sub_0_r, !drop_all. reflexivity.
Qed.

Lemma commonSuffixLen_le_r (a b : bytes) : (commonSuffixLen a b <= length b)%nat.
Proof.
  unfold commonSuffixLen.
  destruct (commonSuffixLen_loop_spec a b (Nat.min (length a) (length b))
              (Nat.min (length a) (length b)) 0) as [H _]; try lia.
  rewrite !Nat.sub_0_r, !drop_all. reflexivity.
Qed.

Lemma commonSuffixLen_drop (a b : bytes) :
  drop (length a - commonSuffixLen a b) a = drop (length b - commonSuffixLen a b) b.
Proof.
  unfold commonSuffixLen.
  destruct (commonSuffixLen_loop_spec a b (Nat.min (length a) (length b))
              (Nat.min (length a) (length b)) 0) as [_ H]; try lia.
  - rewrite !Nat.sub_0_r, !drop_all. reflexivity.
  - exact H.
Qed.

(** [Patch] never reports an error. *)
Lemma Patch_is_ok (oldData diffData : bytes) : is_ok (Patch oldData diffData) = true.
Proof.
  unfold Patch.
  repeat match goal with |- context [if ?c then _ else _] => destruct c end; reflexivity.
Qed.

(** The two guards under which [Patch] takes its input for raw data. *)
Definition takenForRaw (oldData data : bytes) : Prop :=
  len data < 8
  \/ uint32 (len oldData) < LittleEndian_Uint32 (slice 0 4 data)
  \/ uint32 (len oldData) < LittleEndian_Uint32 (slice 4 8 data).

Lemma Patch_takenForRaw (oldData data : bytes) :
  takenForRaw oldData data -> Patch oldData data = Ok data.
Proof.
  unfold takenForRaw, Patch. intros H.
  destruct (Z.ltb_spec (len data) 8); [reflexivity|].
  destruct (Z.ltb_spec (uint32 (len oldData)) (LittleEndian_Uint32 (slice 0 4 data)));
    [reflexivity|].
  destruct (Z.ltb_spec (uint32 (len oldData)) (LittleEndian_Uint32 (slice 4 8 data)));
    [reflexivity|].
  lia.
Qed.

(** The delta form, patched onto the old data, gives the new data back
    as long as the new data fits under the ceiling. *)
Lemma Patch_delta_form (a b : bytes) :
  (length a <= length b)%nat ->
  len b <= maxPatchedLen ->
  let p := commonPrefixLen a b in
  let s := commonSuffixLen (drop p a) (drop p b) in
  Patch a (LittleEndian_PutUint32 (uint32 (Z.of_nat p))
           ++ LittleEndian_PutUint32 (uint32 (Z.of_nat s))
           ++ slice p (length b - s) b) = Ok b.
Proof.
  intros Hab Hcap p s.
  pose proof (commonPrefixLen_le_l a b) as Hpa.
  pose proof (commonPrefixLen_le_r a b) as Hpb.
  pose proof (commonPrefixLen_take a b) as Hptake.
  pose proof (commonSuffixLen_le_l (drop p a) (drop p b)) as Hsa.
  pose proof (commonSuffixLen_le_r (drop p a) (drop p b)) as Hsb.
  pose proof (commonSuffixLen_drop (drop p a) (drop p b)) as Hsdrop.
  fold p in Hpa, Hpb, Hptake. fold s in Hsa, Hsb, Hsdrop.
  rewrite !length_drop in Hsa, Hsb.
  rewrite !drop_drop in Hsdrop.
  replace (p + (length (drop p a) - s))%nat with (length a - s)%nat in Hsdrop
    by (rewrite length_drop; lia).
  replace (p + (length (drop p b) - s))%nat with (length b - s)%nat in Hsdrop
    by (rewrite length_drop; lia).
  unfold maxPatchedLen, len in Hcap.
  set (mid := slice p (length b - s) b).
  assert (Hmid : length mid = (length b - s - p)%nat).
  { unfold mid, slice. rewrite length_take, length_drop. lia. }
  set (hp := LittleEndian_PutUint32 (uint32 (Z.of_nat p))).
  set (hs := LittleEndian_PutUint32 (uint32 (Z.of_nat s))).
  assert (Hhp : LittleEndian_Uint32 (slice 0 4 (hp ++ hs ++ mid)) = Z.of_nat p).
  { unfold slice. rewrite drop_0. change (4 - 0)%nat with (length hp).
    rewrite take_app_length. unfold hp. rewrite LittleEndian_Uint32_Put.
    unfold uint32. rewrite Z.mod_mod by lia. apply Z.mod_small. lia. }
  assert (Hhs : LittleEndian_Uint32 (slice 4 8 (hp ++ hs ++ mid)) = Z.of_nat s).
  { unfold slice.
    replace (drop 4 (hp ++ hs ++ mid)) with (hs ++ mid)
      by (symmetry; apply (drop_app_length hp)).
    change (8 - 4)%nat with (length hs).
    rewrite take_app_length. unfold hs. rewrite LittleEndian_Uint32_Put.
    unfold uint32. rewrite Z.mod_mod by lia. apply Z.mod_small. lia. }
  assert (Hbody : drop 8 (hp ++ hs ++ mid) = mid).
  { rewrite app_assoc. change 8%nat with (length (hp ++ hs)). apply drop_app_length. }
  unfold Patch, totalLen. rewrite Hhp, Hhs, Hbody.
  assert (Hlen : len (hp ++ hs ++ mid) = 8 + Z.of_nat (length mid)).
  { unfold len. rewrite !length_app. change (length hp) with 4%nat.
    change (length hs) with 4%nat. lia. }
  rewrite Hlen.
  destruct (Z.ltb_spec (8 + Z.of_nat (length mid)) 8) as [?|_]; [lia|].
  assert (Hu : uint32 (len a) = Z.of_nat (length a)).
  { unfold uint32, len. apply Z.mod_small. lia. }
  rewrite Hu.
  destruct (Z.ltb_spec (Z.of_nat (length a)) (Z.of_nat p)) as [?|_]; [lia|].
  destruct (Z.ltb_spec (Z.of_nat (length a)) (Z.of_nat s)) as [?|_]; [lia|].
  simpl orb. cbv iota.
  unfold maxPatchedLen, len.
  destruct (Z.ltb_spec (10 * 1024 * 1024)
              (Z.of_nat p + Z.of_nat (length mid) + Z.of_nat s)) as [?|_]; [lia|].
  rewrite Nat2Z.id.
  assert (Hb : b = take p b ++ mid ++ drop (length b - s) b).
  { unfold mid, slice.
    rewrite <- (take_drop p b) at 1. f_equal.
    rewrite <- (take_drop (length b - s - p) (drop p b)) at 1. f_equal.
    rewrite drop_drop. f_equal. lia. }
  destruct (Z.ltb_spec 0 (Z.of_nat s)) as [Hspos|Hszero]; simpl andb.
  - destruct (Z.leb_spec (Z.of_nat p + Z.of_nat s) (Z.of_nat (length a))) as [_|?]; [|lia].
    replace (Z.to_nat (Z.of_nat (length a) - Z.of_nat s)) with (length a - s)%nat by lia.
    rewrite Hptake, Hsdrop, <- app_assoc. now rewrite <- Hb.
  - assert (s = 0%nat) by lia.
    transitivity (Ok (take p b ++ mid ++ drop (length b - s) b));
      [|now rewrite <- Hb].
    rewrite Hptake. do 2 f_equal.
    replace (length b - s)%nat with (length b) by lia.
    rewrite drop_all. now rewrite app_nil_r.
Qed.

(** C3 (amended): [Patch] inverts [computeDiff] when the delta form is
    emitted for new data of at most 10 MiB, and, when the new data is
    emitted verbatim, as soon as [Patch] takes it for raw data: it is shorter
    than 8 bytes, or its first 8 bytes decode to a prefix or suffix length
    above the length of the old data. *)
Theorem Patch_computeDiff_roundtrip (a b : bytes) :
  (emitsVerbatim a b = false -> len b <= maxPatchedLen) ->
  (emitsVerbatim a b = true -> takenForRaw a b) ->
  exists d, computeDiff a b = Ok d /\ Patch a d = Ok b.
Proof.
  unfold emitsVerbatim, computeDiff. intros Hdelta Hraw.
  destruct (Z.ltb_spec (len b) (len a)) as [Hshort|Hlong]; simpl in *.
  - exists b. split; [reflexivity|]. apply Patch_takenForRaw. now apply Hraw.
  - destruct (tooDifferent a b).
    + exists b. split; [reflexivity|]. apply Patch_takenForRaw. now apply Hraw.
    + eexists. split; [reflexivity|].
      apply Patch_delta_form; [unfold len in Hlong; lia | now apply Hdelta].
Qed.

(** A run of the delta form: one byte changed and one byte appended. *)
Lemma Patch_computeDiff_roundtrip_witness :
  let a := [x01; x02; x03; x04; x05; x06; x07; x08; x09; x0a] in
  let b := [x01; x02; x03; x2c; x05; x06; x07; x08; x09; x0a; x0b] in
  emitsVerbatim a b = false /\
  exists d, computeDiff a b = Ok d /\ Patch a d = Ok b.
Proof.
  intros a b. split; [reflexivity|].
  apply (Patch_computeDiff_roundtrip a b).
  - intros _. unfold maxPatchedLen, len. simpl. lia.
  - intros H. vm_compute in H. discriminate H.
Defined.

(** C3 as stated fails: eight zero bytes, shorter than the old data, are
    emitted verbatim; [Patch] reads them as a delta with empty prefix,
    middle and suffix and returns the empty sequence. *)
Lemma Patch_computeDiff_counterexample :
  let a := [x01; x02; x03; x04; x05; x06; x07; x08; x09] in
  let b := [x00; x00; x00; x00; x00; x00; x00; x00] in
  computeDiff a b = Ok b /\ Patch a b = Ok [] /\ Patch a b <> Ok b.
Proof.
  intros a b. split; [reflexivity|]. split; [reflexivity|].
  vm_compute. discriminate.
Qed.

(** C9 (amended): a delta whose reconstructed length exceeds the ceiling is
    not applied and no error is raised: [Patch] returns the delta bytes
    themselves, unchanged, as its result. *)
Theorem Patch_beyond_ceiling (oldData diffData : bytes) :
  8 <= len diffData ->
  maxPatchedLen < totalLen diffData ->
  Patch oldData diffData = Ok diffData.
Proof.
  intros Hlen Hbig. unfold Patch.
  destruct (Z.ltb_spec (len diffData) 8) as [?|_]; [lia|].
  destruct (_ || _); [reflexivity|].
  destruct (Z.ltb_spec maxPatchedLen (totalLen diffData)) as [_|?]; [reflexivity|lia].
Qed.

Lemma Patch_beyond_ceiling_witness :
  let d := [x01; x00; xa0; x00; x00; x00; x00; x00] in
  8 <= len d /\ maxPatchedLen < totalLen d /\ Patch [] d = Ok d.
Proof.
  intros d.
  assert (H1 : 8 <= len d) by (vm_compute; discriminate).
  assert (H2 : maxPatchedLen < totalLen d) by reflexivity.
  split; [exact H1|]. split; [exact H2|].
  exact (Patch_beyond_ceiling [] d H1 H2).
Defined.

(** A delta with an empty prefix and suffix over empty old data and a
    middle part of 10 MiB + 1 bytes. *)
Definition hugeDelta : bytes :=
  [x00; x00; x00; x00; x00; x00; x00; x00]
  ++ repeat xff (Z.to_nat (maxPatchedLen + 1)).

(** C9 as stated fails: the delta passes the span checks, reaches the
    ceiling test and is returned as the result, without any error. *)
Lemma Patch_no_DeltaTooLarge :
  maxPatchedLen < totalLen hugeDelta /\
  LittleEndian_Uint32 (slice 0 4 hugeDelta) <= uint32 (len (@nil byte)) /\
  LittleEndian_Uint32 (slice 4 8 hugeDelta) <= uint32 (len (@nil byte)) /\
  Patch [] hugeDelta = Ok hugeDelta /\
  is_ok (Patch [] hugeDelta) = true.
Proof.
  unfold hugeDelta.
  set (big := repeat xff (Z.to_nat (maxPatchedLen + 1))).
  assert (Hbig : len big = maxPatchedLen + 1).
  { unfold big, len. rewrite repeat_length. apply Z2Nat.id.
    unfold maxPatchedLen. lia. }
  clearbody big.
  assert (Htot : totalLen ([x00; x00; x00; x00; x00; x00; x00; x00] ++ big)
                 = maxPatchedLen + 1).
  { unfold totalLen.
    change (slice 0 4 ([x00; x00; x00; x00; x00; x00; x00; x00] ++ big))
      with [x00; x00; x00; x00].
    change (slice 4 8 ([x00; x00; x00; x00; x00; x00; x00; x00] ++ big))
      with [x00; x00; x00; x00].
    change (drop 8 ([x00; x00; x00; x00; x00; x00; x00; x00] ++ big)) with big.
    change (LittleEndian_Uint32 [x00; x00; x00; x00]) with 0.
    rewrite Hbig. lia. }
  assert (Hlen : 8 <= len ([x00; x00; x00; x00; x00; x00; x00; x00] ++ big)).
  { unfold len in *. rewrite length_app. simpl length. unfold maxPatchedLen in Hbig. lia. }
  assert (HP : Patch [] ([x00; x00; x00; x00; x00; x00; x00; x00] ++ big)
               = Ok ([x00; x00; x00; x00; x00; x00; x00; x00] ++ big)).
  { apply Patch_beyond_ceiling; [exact Hlen | rewrite Htot; lia]. }
  split; [rewrite Htot; lia|].
  split; [unfold slice; simpl; reflexivity|].
  split; [unfold slice; simpl; reflexivity|].
  split; [exact HP | now rewrite HP].
Qed.

End BinarydiffSpec.


(* ====================================================================== *)
(** ** geofence: applying a structured delta *)
(* ====================================================================== *)

Module GeofenceSpec.
Import Geofence.

(** The last fence of a list that carries the id [k]. *)
Definition lastWithID (k : string) (l : list FenceItem) : option FenceItem :=
  last (filter (fun f => ID f = k) l).

(** An id is still present after the removals: some fence of [E] has
    it and the delta does not remove it. *)
Definition presentAfterRemovals (E : list FenceItem) (d : FenceDelta) (k : string) : Prop :=
  k ∈ ID <$> E /\ k ∉ RemovedIDs d.

(** The fence the result is to hold under the id [k]: the update, else the
    addition, else the surviving entry of [E]. *)
Definition expected (E : list FenceItem) (d : FenceDelta) (k : string) : option FenceItem :=
  match lastWithID k (Updated d) with
  | Some u => Some u
  | None =>
      match lastWithID k (Added d) with
      | Some a => Some a
      | None => if decide (k ∈ RemovedIDs d) then None else lastWithID k E
      end
  end.

(** Every entry sits under its own id. *)
Definition keyed (m : gmap string FenceItem) : Prop :=
  forall k f, m !! k = Some f -> ID f = k.

Lemma lastWithID_cons (k : string) (f : FenceItem) (l : list FenceItem) :
  lastWithID k (f :: l) =
  match lastWithID k l with
  | Some g => Some g
  | None => if decide (ID f = k) then Some f else None
  end.
Proof.
  unfold lastWithID. rewrite filter_cons.
  destruct (decide (ID f = k)); [|now destruct (last _)].
  apply last_cons.
Qed.

Lemma lastWithID_None (k : string) (l : list FenceItem) :
  lastWithID k l = None <-> k ∉ ID <$> l.
Proof.
  induction l as [|f l IH]; [rewrite elem_of_nil; now split|].
  rewrite lastWithID_cons, fmap_cons, not_elem_of_cons.
  destruct (lastWithID k l) eqn:E.
  - split; [discriminate|]. intros [_ H]. apply IH in H. discriminate.
  - destruct (decide (ID f = k)) as [->|Hne]; split; try done.
    + now intros [? _].
    + intros _. split; [congruence | now apply IH].
Qed.

Lemma lastWithID_Some (k : string) (l : list FenceItem) (f : FenceItem) :
  lastWithID k l = Some f -> ID f = k /\ f ∈ l.
Proof.
  induction l as [|g l IH]; [discriminate|].
  rewrite lastWithID_cons. destruct (lastWithID k l) eqn:E.
  - intros [= ->]. destruct IH as [? ?]; [done|]. split; [done | now right].
  - destruct (decide (ID g = k)); [|discriminate].
    intros [= ->]. split; [done | now left].
Qed.

Lemma insertAll_lookup (l : list FenceItem) (m : gmap string FenceItem) (k : string) :
  foldl (fun m f => <[ID f := f]> m) m l !! k =
  match lastWithID k l with
  | Some f => Some f
  | None => m !! k
  end.
Proof.
  revert m. induction l as [|f l IH]; intros m; [reflexivity|].
  simpl. rewrite IH, lastWithID_cons.
  destruct (lastWithID k l); [reflexivity|].
  rewrite lookup_insert. now destruct (decide (ID f = k)).
Qed.

Lemma mapOfFences_lookup (E : list FenceItem) (k : string) :
  mapOfFences E !! k = lastWithID k E.
Proof.
  unfold mapOfFences. rewrite insertAll_lookup, lookup_empty.
  now destruct (lastWithID k E).
Qed.

Lemma removeIDs_lookup (ids : list string) (m : gmap string FenceItem) (k : string) :
  removeIDs m ids !! k = if decide (k ∈ ids) then None else m !! k.
Proof.
  unfold removeIDs. revert m. induction ids as [|i ids IH]; intros m; simpl.
  - destruct (decide (k ∈ [])) as [H|]; [|reflexivity]. now apply elem_of_nil in H.
  - rewrite IH. destruct (decide (k ∈ ids)) as [Hin|Hnin].
    + rewrite decide_True; [reflexivity | now right].
    + rewrite lookup_delete. destruct (decide (i = k)) as [->|Hne].
      * rewrite decide_True; [reflexivity | now left].
      * rewrite decide_False; [reflexivity|].
        rewrite elem_of_cons. intros [->|?]; done.
Qed.

Lemma kept_is_Some (E : list FenceItem) (d : FenceDelta) (k : string) :
  is_Some (removeIDs (mapOfFences E) (RemovedIDs d) !! k) <-> presentAfterRemovals E d k.
Proof.
  unfold presentAfterRemovals.
  rewrite removeIDs_lookup, mapOfFences_lookup.
  destruct (decide (k ∈ RemovedIDs d)) as [Hin|Hnin].
  - split; [intros [? ?]; discriminate | now intros [_ ?]].
  - rewrite <- not_eq_None_Some, lastWithID_None. split.
    + intros H. split; [|done]. destruct (decide (k ∈ ID <$> E)); [done|]. now destruct H.
    + intros [? _] ?. done.
Qed.

Lemma addFences_spec (added : list FenceItem) (m : gmap string FenceItem) :
  match addFences m added with
  | Ok m' =>
      NoDup (ID <$> added) /\ (forall a, a ∈ added -> m !! ID a = None)
      /\ m' = foldl (fun m f => <[ID f := f]> m) m added
  | Err _ => (exists a, a ∈ added /\ is_Some (m !! ID a)) \/ ~ NoDup (ID <$> added)
  end.
Proof.
  revert m. induction added as [|f rest IH]; intros m; simpl.
  - split; [constructor|]. split; [|reflexivity]. intros a Ha. now apply elem_of_nil in Ha.
  - destruct (m !! ID f) eqn:Hf.
    + left. exists f. split; [now left | now rewrite Hf].
    + specialize (IH (<[ID f := f]> m)).
      destruct (addFences (<[ID f := f]> m) rest) as [m'|msg].
      * destruct IH as (Hnd & Hfree & ->). split; [|split; [|reflexivity]].
        -- constructor; [|exact Hnd]. intros Hin.
           apply list_elem_of_fmap in Hin as (a & Heq & Ha).
           specialize (Hfree a Ha). rewrite <- Heq, lookup_insert_eq in Hfree. discriminate.
        -- intros a [->|Ha]%elem_of_cons; [exact Hf|].
           specialize (Hfree a Ha). rewrite lookup_insert in Hfree.
           now destruct (decide (ID f = ID a)).
      * destruct IH as [(a & Ha & Hsome)|Hdup].
        -- rewrite lookup_insert in Hsome.
           destruct (decide (ID f = ID a)) as [Heq|Hne].
           ++ right. intros Hnd. apply NoDup_cons in Hnd as [Hnin _].
              apply Hnin, list_elem_of_fmap. now exists a.
           ++ left. exists a. split; [now right | exact Hsome].
        -- right. intros Hnd. apply NoDup_cons in Hnd as [_ ?]. done.
Qed.

Lemma updateFences_spec (updated : list FenceItem) (m : gmap string FenceItem) :
  match updateFences m updated with
  | Ok m' =>
      (forall u, u ∈ updated -> is_Some (m !! ID u))
      /\ m' = foldl (fun m f => <[ID f := f]> m) m updated
  | Err _ => exists u, u ∈ updated /\ m !! ID u = None
  end.
Proof.
  revert m. induction updated as [|f rest IH]; intros m; simpl.
  - split; [|reflexivity]. intros a Ha. now apply elem_of_nil in Ha.
  - destruct (m !! ID f) as [g|] eqn:Hf.
    + specialize (IH (<[ID f := f]> m)).
      destruct (updateFences (<[ID f := f]> m) rest) as [m'|msg].
      * destruct IH as (Hall & ->). split; [|reflexivity].
        intros u [->|Hu]%elem_of_cons; [now rewrite Hf|].
        specialize (Hall u Hu). rewrite lookup_insert in Hall.
        destruct (decide (ID f = ID u)) as [Heq|]; [|exact Hall].
        rewrite <- Heq, Hf. done.
      * destruct IH as (u & Hu & Hnone). exists u. split; [now right|].
        rewrite lookup_insert in Hnone. now destruct (decide (ID f = ID u)).
    + exists f. split; [now left | exact Hf].
Qed.

Lemma keyed_insertAll (l : list FenceItem) (m : gmap string FenceItem) :
  keyed m -> keyed (foldl (fun m f => <[ID f := f]> m) m l).
Proof.
  intros Hm k f. rewrite insertAll_lookup.
  destruct (lastWithID k l) eqn:E.
  - intros [= ->]. now apply lastWithID_Some in E as [? _].
  - apply Hm.
Qed.

Lemma keyed_removeIDs (ids : list string) (m : gmap string FenceItem) :
  keyed m -> keyed (removeIDs m ids).
Proof.
  intros Hm k f. rewrite removeIDs_lookup.
  destruct (decide (k ∈ ids)); [discriminate | apply Hm].
Qed.

Lemma keyed_mapOfFences (E : list FenceItem) : keyed (mapOfFences E).
Proof.
  apply keyed_insertAll. intros k f. rewrite lookup_empty. discriminate.
Qed.

(** The listing of a keyed map: one fence per id, found under its id. *)
Lemma listing_keyed (m : gmap string FenceItem) :
  keyed m ->
  NoDup (ID <$> map snd (map_to_list m))
  /\ forall f, f ∈ map snd (map_to_list m) <-> m !! ID f = Some f.
Proof.
  intros Hm. split.
  - assert (Heq : ID <$> map snd (map_to_list m) = (map_to_list m).*1).
    { rewrite <- list_fmap_compose. apply list_fmap_ext.
      intros i [k f] Hl. simpl.
      apply list_elem_of_lookup_2, elem_of_map_to_list in Hl. now apply Hm. }
    rewrite Heq. apply NoDup_fst_map_to_list.
  - intros f. change (map snd (map_to_list m)) with ((map_to_list m).*2).
    rewrite list_elem_of_fmap. split.
    + intros ([k g] & -> & Hin). simpl. apply elem_of_map_to_list in Hin.
      now rewrite (Hm k g Hin).
    + intros Hf. exists (ID f, f). split; [reflexivity|]. now apply elem_of_map_to_list.
Qed.

(** C10 (amended): [ApplyDelta] fails exactly when a fence of [d.Added]
    has an id still present after the removals or shared with another
    fence of [d.Added], or when a fence of [d.Updated] has an id that is
    neither present after the removals nor added by the delta. Otherwise the
    result holds one fence per id: the last update for that id, else the
    addition, else the last entry of [E] with that id when it is not
    removed. *)
Theorem ApplyDelta_spec (E : list FenceItem) (d : FenceDelta) :
  let addedClash :=
    (exists a, a ∈ Added d /\ presentAfterRemovals E d (ID a))
    \/ ~ NoDup (ID <$> Added d) in
  let updatedMissing :=
    exists u, u ∈ Updated d
              /\ ~ presentAfterRemovals E d (ID u) /\ ID u ∉ ID <$> Added d in
  match ApplyDelta E d with
  | Err _ => addedClash \/ updatedMissing
  | Ok res =>
      ~ addedClash /\ ~ updatedMissing
      /\ NoDup (ID <$> res)
      /\ forall f, f ∈ res <-> expected E d (ID f) = Some f
  end.
Proof.
  intros addedClash updatedMissing. unfold ApplyDelta.
  set (kept := removeIDs (mapOfFences E) (RemovedIDs d)).
  assert (Hkeyed : keyed kept) by apply keyed_removeIDs, keyed_mapOfFences.
  pose proof (addFences_spec (Added d) kept) as Hadd.
  destruct (addFences kept (Added d)) as [m1|msg].
  2:{ left. destruct Hadd as [(a & Ha & Hsome)|Hdup]; [left|now right].
      exists a. split; [exact Ha | now apply kept_is_Some]. }
  destruct Hadd as (Hnd & Hfree & ->).
  assert (Hnoclash : ~ addedClash).
  { intros [(a & Ha & Hp)|Hdup]; [|done].
    apply kept_is_Some in Hp. fold kept in Hp. rewrite (Hfree a Ha) in Hp.
    now destruct Hp. }
  set (m1 := foldl (fun m f => <[ID f := f]> m) kept (Added d)).
  assert (Hm1 : forall k, is_Some (m1 !! k)
                          <-> presentAfterRemovals E d k \/ k ∈ ID <$> Added d).
  { intros k. unfold m1. rewrite insertAll_lookup.
    destruct (lastWithID k (Added d)) eqn:Ek.
    - split; [|done]. intros _. right.
      destruct (decide (k ∈ ID <$> Added d)) as [|Hn]; [done|].
      apply lastWithID_None in Hn. congruence.
    - apply lastWithID_None in Ek. rewrite <- kept_is_Some. fold kept.
      split; [now left | now intros [?|?]]. }
  pose proof (updateFences_spec (Updated d) m1) as Hupd.
  destruct (updateFences m1 (Updated d)) as [m2|msg].
  2:{ right. destruct Hupd as (u & Hu & Hnone). exists u. split; [exact Hu|].
      assert (Hns : ~ is_Some (m1 !! ID u)) by (rewrite Hnone; now intros [? ?]).
      rewrite Hm1 in Hns. split; intros ?; apply Hns; [now left | now right]. }
  destruct Hupd as (Hall & ->).
  split; [exact Hnoclash|]. split.
  { intros (u & Hu & Hnp & Hna). specialize (Hall u Hu).
    apply Hm1 in Hall as [?|?]; done. }
  assert (Hk2 : keyed (foldl (fun m f => <[ID f := f]> m) m1 (Updated d))).
  { apply keyed_insertAll. unfold m1. now apply keyed_insertAll. }
  destruct (listing_keyed _ Hk2) as [Hnodup Hiff].
  split; [exact Hnodup|].
  intros f. rewrite Hiff. unfold expected.
  rewrite insertAll_lookup. destruct (lastWithID (ID f) (Updated d)); [reflexivity|].
  unfold m1. rewrite insertAll_lookup.
  destruct (lastWithID (ID f) (Added d)); [reflexivity|].
  unfold kept. now rewrite removeIDs_lookup, mapOfFences_lookup.
Qed.

(** A fence used in the examples. *)
Definition sampleFence (id : string) (type : FenceType) (priority : Z) : FenceItem :=
  mkFenceItem id type (mkGeometry [] None 0%float None) 0 0 priority 0 0
    EmptyString EmptyString [] EmptyString.

(** C10 as stated fails: the delta adds the same new id twice to an empty
    list. No id of [d.Added] is present after the removals and nothing is
    updated, yet [ApplyDelta] returns an error. *)
Lemma ApplyDelta_duplicate_added :
  let f := sampleFence "zone-1" FenceTypePermanentNoFly 100 in
  let d := mkFenceDelta [f; f] [] [] in
  ApplyDelta [] d = Err "fence zone-1 already exists"
  /\ (forall a, a ∈ Added d -> ~ presentAfterRemovals [] d (ID a))
  /\ Updated d = [].
Proof.
  intros f d. split; [vm_compute; reflexivity|]. split; [|reflexivity].
  intros a _ [Hin _]. simpl in Hin. now apply elem_of_nil in Hin.
Qed.

End GeofenceSpec.

(* ====================================================================== *)
(** ** crypto: the digest *)
(* ====================================================================== *)

Module CryptoSpec.
Import Crypto.

(** The implementation agrees with the published test vectors. *)
Example sha256_empty :
  hex_EncodeToString (sha256 [])
  = "e3b0c44298fc1c149afbf4c8996fb92427ae41e4649b934ca495991b7852b855".
Proof. vm_compute. reflexivity. Qed.

Example sha256_abc :
  hex_EncodeToString (sha256 (list_byte_of_string "abc"))
  = "ba7816bf8f01cfea414140de5dae2223b00361a396177a9cb410ff61f20015ad".
Proof. vm_compute. reflexivity. Qed.

Example sha256_two_blocks :
  hex_EncodeToString
    (sha256 (list_byte_of_string
               "abcdbcdecdefdefgefghfghighijhijkijkljklmklmnlmnomnopnopq"))
  = "248d6a61d20638b8e5c026930c3e6039a33ce45964ff2167f6ecedd419db06c1".
Proof. vm_compute. reflexivity. Qed.

Lemma compress_length (h : list N) (block : bytes) :
  length h = 8%nat -> length (compress h block) = 8%nat.
Proof.
  intros Hh. unfold compress.
  rewrite length_map, length_combine, Hh. reflexivity.
Qed.

Lemma fold_compress_length (blocks : list bytes) (h : list N) :
  length h = 8%nat -> length (fold_left compress blocks h) = 8%nat.
Proof.
  revert h. induction blocks as [|b blocks IH]; intros h Hh; simpl; [exact Hh|].
  apply IH. now apply compress_length.
Qed.

Lemma concat_be32_length (h : list N) :
  length (concat (map be32 h)) = (4 * length h)%nat.
Proof.
  induction h as [|w h IH]; [reflexivity|].
  change (concat (map be32 (w :: h))) with (be32 w ++ concat (map be32 h)).
  rewrite length_app, IH. simpl. lia.
Qed.

(** A digest has 32 bytes. *)
Lemma sha256_length (msg : bytes) : length (sha256 msg) = 32%nat.
Proof.
  unfold sha256. rewrite concat_be32_length, fold_compress_length; reflexivity.
Qed.

End CryptoSpec.

(* ====================================================================== *)
(** ** merkle: the shape and the hashes of the built tree *)
(* ====================================================================== *)

Module MerkleSpec.
Import Geofence Merkle.

Definition children (n : Node) : list Node :=
  option_list (Left n) ++ option_list (Right n).

Definition childrenLevel (level : list Node) : list Node :=
  concat (map children level).

(** The nodes [k] levels below the nodes of [level], from left to right. *)
Fixpoint levelAt (k : nat) (level : list Node) : list Node :=
  match k with
  | O => level
  | S k' => levelAt k' (childrenLevel level)
  end.

(** The hash of a parent made by [buildTree]: the digest of the two
    children's hashes in order, or of the only child's hash. *)
Definition internalOK (p : Node) : Prop :=
  Leaf p = false /\
  match Left p, Right p with
  | Some l, Some r => Hash p = Crypto.sha256 (Hash l ++ Hash r)
  | Some l, None => Hash p = Crypto.sha256 (Hash l)
  | None, _ => False
  end.

(** A level made by [buildTree]: parents as above, and only the last one
    may have a single child. *)
Definition properLevel (level : list Node) : Prop :=
  Forall internalOK level /\
  forall i p, level !! i = Some p -> Right p = None -> S i = length level.

Lemma buildLevel_spec (n : nat) :
  forall (nodes : list Node) (next : nat),
    (length nodes <= n)%nat ->
    childrenLevel (buildLevel next nodes).1 = nodes
    /\ properLevel (buildLevel next nodes).1
    /\ (length nodes <= 2 * length (buildLevel next nodes).1 <= S (length nodes))%nat.
Proof.
  induction n as [|n IH]; intros nodes next Hlen.
  - destruct nodes; [|simpl in Hlen; lia].
    simpl. repeat split; [constructor | intros i p Hi; discriminate | lia | lia].
  - destruct nodes as [|a [|b rest]].
    + simpl. repeat split; [constructor | intros i p Hi; discriminate | lia | lia].
    + simpl. repeat split; [| |lia|lia].
      * repeat constructor.
      * intros [|i] p Hi _; [reflexivity | discriminate].
    + simpl in Hlen.
      destruct (IH rest (S next)) as (Hch & [Hall Hlast] & Hlen'); [lia|].
      simpl. destruct (buildLevel (S next) rest) as [level next'] eqn:E. simpl in *.
      repeat split; [| | |lia|lia].
      * unfold childrenLevel in *. simpl. now rewrite Hch.
      * constructor; [|exact Hall]. now split.
      * intros [|i] p Hi Hr; simpl in Hi.
        -- injection Hi as <-. discriminate.
        -- now rewrite (Hlast i p Hi Hr).
Qed.

(** With at least as much fuel as nodes, the loop ends on a single root
    above all the levels it made. *)
Lemma buildLoop_spec (fuel : nat) :
  forall (next : nat) (cur : list Node) (t : nat) (inputs : list Node),
    cur <> [] -> (length cur <= fuel)%nat ->
    levelAt t cur = inputs ->
    (forall j, (j < t)%nat -> properLevel (levelAt j cur)) ->
    exists r k, buildLoop fuel next cur = [r]
                /\ levelAt k [r] = inputs
                /\ forall j, (j < k)%nat -> properLevel (levelAt j [r]).
Proof.
  induction fuel as [|fuel IH]; intros next cur t inputs Hne Hlen Hat Hlevels.
  - destruct cur; [done | simpl in Hlen; lia].
  - simpl. unfold len. destruct (Z.ltb_spec 1 (Z.of_nat (length cur))) as [Hmany|Hone].
    + destruct (buildLevel_spec (length cur) cur next) as (Hch & Hproper & Hl); [lia|].
      destruct (buildLevel next cur) as [level next'] eqn:E. simpl in *.
      apply (IH next' level (S t) inputs).
      * intros ->. simpl in Hl. lia.
      * lia.
      * simpl. now rewrite Hch.
      * intros [|j] Hj; simpl; [exact Hproper|].
        rewrite Hch. apply Hlevels. lia.
    + destruct cur as [|r [|? ?]]; [done | | simpl in Hone; lia].
      exists r, t. split; [reflexivity|]. split; [exact Hat | exact Hlevels].
Qed.

(** C7 (amended): for a non-empty list of nodes [buildTree] returns a root
    with the given nodes, each once and in order, at its bottom level; on
    every level above, a parent of two nodes carries the SHA-256 digest of
    the concatenation of their hashes, and only the last parent of a level
    may have a single child, of which it carries the SHA-256 digest of the
    hash: an unpaired last node is not duplicated, and it is hashed again
    alone at every level it passes. *)
Theorem buildTree_levels (next : nat) (nodes : list Node) :
  nodes <> [] ->
  exists r k, buildTree next nodes = Some r
              /\ levelAt k [r] = nodes
              /\ forall j, (j < k)%nat -> properLevel (levelAt j [r]).
Proof.
  intros Hne. unfold buildTree, len.
  destruct nodes as [|a [|b rest]]; [done | |].
  - exists a, O. split; [reflexivity|]. split; [reflexivity|]. intros j Hj. lia.
  - destruct (Z.eqb_spec (Z.of_nat (length (a :: b :: rest))) 0) as [H0|_];
      [simpl in H0; lia|].
    destruct (Z.eqb_spec (Z.of_nat (length (a :: b :: rest))) 1) as [H1|_];
      [simpl in H1; lia|].
    destruct (buildLoop_spec (length (a :: b :: rest)) next (a :: b :: rest) O
                (a :: b :: rest)) as (r & k & Hloop & Hat & Hlevels);
      [done | lia | reflexivity | intros j Hj; lia |].
    exists r, k. rewrite Hloop. split; [reflexivity|]. split; [exact Hat | exact Hlevels].
Qed.

(** Leaves over the digests of three one-letter strings. *)
Definition leafA : Node := mkNode 0 (Crypto.sha256 [x61]) None None true "a" [x61].
Definition leafB : Node := mkNode 1 (Crypto.sha256 [x62]) None None true "b" [x62].
Definition leafC : Node := mkNode 2 (Crypto.sha256 [x63]) None None true "c" [x63].

Lemma buildTree_levels_witness :
  [leafA; leafB; leafC] <> [] /\
  exists r k, buildTree 3 [leafA; leafB; leafC] = Some r
              /\ levelAt k [r] = [leafA; leafB; leafC]
              /\ forall j, (j < k)%nat -> properLevel (levelAt j [r]).
Proof.
  assert (H : [leafA; leafB; leafC] <> []) by discriminate.
  split; [exact H|]. exact (buildTree_levels 3 [leafA; leafB; leafC] H).
Defined.

(** The construction in the words of the specification, on the hashes of
    a level: pairs are hashed together, a last node without partner is
    carried to the next level as it is. *)
Fixpoint specLevel (hashes : list bytes) : list bytes :=
  match hashes with
  | [] => []
  | [h] => [h]
  | h1 :: h2 :: rest => Crypto.sha256 (h1 ++ h2) :: specLevel rest
  end.

Fixpoint specRoot (fuel : nat) (hashes : list bytes) : bytes :=
  match fuel with
  | O => hashOf None
  | S fuel' =>
      match hashes with
      | [] => zeroHash
      | [h] => h
      | _ => specRoot fuel' (specLevel hashes)
      end
  end.

(** C7 as stated fails on three leaves: the third leaf is not carried to
    the next level; it gets a parent of its own whose hash is the digest of
    the leaf's hash, and the root differs from the root built in the words
    of the specification. *)
Lemma buildTree_rehashes_unpaired :
  exists r p,
    buildTree 3 [leafA; leafB; leafC] = Some r
    /\ Right r = Some p
    /\ Left p = Some leafC /\ Right p = None /\ Leaf p = false
    /\ Hash p = Crypto.sha256 (Hash leafC)
    /\ Hash p <> Hash leafC
    /\ Hash r <> specRoot 3 [Hash leafA; Hash leafB; Hash leafC].
Proof.
  eexists. eexists.
  split; [vm_compute; reflexivity|].
  split; [reflexivity|].
  repeat (split; [reflexivity|]).
  split; vm_compute; discriminate.
Qed.

(** *** Inclusion proofs *)

Section InclusionProofs.
Context `{JsonCodec}.

Local Opaque Crypto.sha256.

Lemma len_sha256 (msg : bytes) : len (Crypto.sha256 msg) = 32.
Proof. unfold len. now rewrite CryptoSpec.sha256_length. Qed.

(** One turn of the verifier on a non-empty sibling hash: the digest of
    the digest of the concatenation. *)
Lemma verifyStep_sibling (cur msg : bytes) :
  verifyStep cur (Crypto.sha256 msg)
  = Crypto.sha256 (Crypto.sha256 (cur ++ Crypto.sha256 msg)).
Proof. unfold verifyStep. now rewrite len_sha256. Qed.

(** C6, on the code: for a set of two fences the tree and the proof of
    the first fence are as expected, the root being the digest of the two
    leaf hashes, while [VerifyProof] hashes the concatenation twice and
    compares the outcome with the root. Unless the root is a fixed point of
    SHA-256, the proof of a member is rejected. *)
Theorem VerifyProof_rejects_member (f1 f2 : FenceItem) (d1 d2 c1 c2 : bytes) :
  ID f1 <> ID f2 ->
  String.ltb (ID f2) (ID f1) = false ->
  json_Marshal_FenceItem f1 = Ok d1 ->
  json_Marshal_FenceItem f2 = Ok d2 ->
  json_Marshal_FenceItem (clearSignature f1) = Ok c1 ->
  json_Marshal_FenceItem (clearSignature f2) = Ok c2 ->
  json_Unmarshal_FenceItem d1 = Ok f1 ->
  Crypto.sha256 (Crypto.sha256 (Crypto.sha256 c1 ++ Crypto.sha256 c2))
  <> Crypto.sha256 (Crypto.sha256 c1 ++ Crypto.sha256 c2) ->
  exists t,
    NewTree [f1; f2] = Ok t
    /\ RootHash t = Crypto.sha256 (Crypto.sha256 c1 ++ Crypto.sha256 c2)
    /\ GetProof t (ID f1) = Ok [Crypto.sha256 c2]
    /\ VerifyProof (ID f1) d1 [Crypto.sha256 c2] (RootHash t) = Ok false.
Proof.
  intros Hids Hord Hd1 Hd2 Hc1 Hc2 Hun Hfix.
  set (l1 := mkNode 0 (Crypto.sha256 c1) None None true (ID f1) d1).
  set (l2 := mkNode 1 (Crypto.sha256 c2) None None true (ID f2) d2).
  set (p := mkNode 2 (Crypto.sha256 (Crypto.sha256 c1 ++ Crypto.sha256 c2))
              (Some l1) (Some l2) false EmptyString []).
  exists (mkTree (Some p) (<[ID f2 := l2]> (<[ID f1 := l1]> ∅))).
  split; [|split; [reflexivity|split]].
  - unfold NewTree. cbn [len length Z.of_nat Z.eqb Pos.of_succ_nat Pos.succ].
    unfold sortByID. cbn [foldr insertByID]. rewrite Hord.
    cbn [makeLeaves]. rewrite Hd1, Hc1, Hd2, Hc2. reflexivity.
  - unfold GetProof. cbn [leaves root].
    rewrite lookup_insert_ne by congruence. rewrite lookup_insert_eq.
    cbn [nodeCount p l1 l2 Nat.add GetProof_loop].
    cbn [root pointsTo samePtr addr p l1 Nat.eqb].
    unfold findParent. cbn [root p findParentRecursive pointsTo samePtr addr l1 Nat.eqb orb].
    cbn [Left Right hashOf Hash l2 pointsTo samePtr addr Nat.eqb].
    change (samePtr l1 l1) with true. cbv iota.
    rewrite len_sha256. reflexivity.
  - unfold VerifyProof. rewrite Hun, Hc1.
    cbn [fold_left]. rewrite verifyStep_sibling.
    unfold RootHash. cbn [root Hash p].
    now rewrite bool_decide_eq_false_2.
Qed.

End InclusionProofs.

(** Two fences of the examples and their instance of [encoding/json]. *)
Definition zoneA : FenceItem :=
  mkFenceItem "zone-a" FenceTypeTempRestriction (mkGeometry [] None 0%float None)
    0 0 50 0 0 "Zone A" EmptyString [] EmptyString.

Definition zoneB : FenceItem :=
  mkFenceItem "zone-b" FenceTypePermanentNoFly (mkGeometry [] None 0%float None)
    0 0 100 0 0 "Zone B" EmptyString [] EmptyString.

Definition zonesJson : JsonCodec := Examples.exampleJson [zoneA; zoneB] [] [].

Definition zoneBytes (f : FenceItem) : bytes :=
  match @json_Marshal_FenceItem zonesJson f with
  | Ok d => d
  | Err _ => []
  end.

(** The set {zone-a, zone-b}: the proof produced for zone-a does not verify
    against the root of the tree built from the set. *)
Lemma VerifyProof_rejects_member_witness :
  exists t,
    @NewTree zonesJson [zoneA; zoneB] = Ok t
    /\ RootHash t
       = Crypto.sha256 (Crypto.sha256 (zoneBytes zoneA) ++ Crypto.sha256 (zoneBytes zoneB))
    /\ GetProof t (ID zoneA) = Ok [Crypto.sha256 (zoneBytes zoneB)]
    /\ @VerifyProof zonesJson (ID zoneA) (zoneBytes zoneA)
         [Crypto.sha256 (zoneBytes zoneB)] (RootHash t) = Ok false.
Proof.
  apply (@VerifyProof_rejects_member zonesJson zoneA zoneB
           (zoneBytes zoneA) (zoneBytes zoneB) (zoneBytes zoneA) (zoneBytes zoneB)).
  - discriminate.
  - reflexivity.
  - reflexivity.
  - reflexivity.
  - reflexivity.
  - reflexivity.
  - vm_compute. reflexivity.
  - vm_compute. discriminate.
Defined.

End MerkleSpec.

(* ====================================================================== *)
(** ** storage: the fence table and the index stay in step *)
(* ====================================================================== *)

Module StorageSpec.
Import Geofence Storage.

(** One-to-one correspondence by row id: every fence row has exactly one
    entry in the index, and every entry exactly one fence row. *)
Definition consistent (d : DB) : Prop :=
  (forall r, r ∈ fences d ->
     length (List.filter (fun i => irowid i =? rowid r) (fence_index d)) = 1%nat)
  /\ (forall i, i ∈ fence_index d ->
        length (List.filter (fun r => rowid r =? irowid i) (fences d)) = 1%nat).

(** The invariant kept by the transactions: keys without repetition, the
    same keys in both tables, ids without repetition. *)
Definition Inv (d : DB) : Prop :=
  NoDup (map rowid (fences d))
  /\ NoDup (map irowid (fence_index d))
  /\ (forall k, k ∈ map rowid (fences d) <-> k ∈ map irowid (fence_index d))
  /\ NoDup (map (fun r => ID (item r)) (fences d)).

(** *** Lists filtered by a boolean test *)

Lemma elem_of_bfilter {A} (p : A -> bool) (l : list A) (x : A) :
  x ∈ List.filter p l <-> x ∈ l /\ p x = true.
Proof. rewrite !list_elem_of_In. apply filter_In. Qed.

Lemma elem_of_map_iff {A B} (f : A -> B) (l : list A) (y : B) :
  y ∈ map f l <-> exists x, y = f x /\ x ∈ l.
Proof. apply (list_elem_of_fmap f l y). Qed.

Lemma bfilter_none {A} (p : A -> bool) (l : list A) :
  (forall x, x ∈ l -> p x = false) -> List.filter p l = [].
Proof.
  induction l as [|a l IH]; intros Hall; [reflexivity|].
  simpl. rewrite (Hall a) by now left. apply IH. intros x Hx. apply Hall. now right.
Qed.

Lemma NoDup_map_bfilter {A B} (key : A -> B) (p : A -> bool) (l : list A) :
  NoDup (map key l) -> NoDup (map key (List.filter p l)).
Proof.
  induction l as [|a l IH]; simpl; intros Hnd; [constructor|].
  apply NoDup_cons in Hnd as [Hnotin Hnd].
  destruct (p a); [|now apply IH].
  simpl. apply NoDup_cons. split; [|now apply IH].
  intros Hin. apply Hnotin.
  apply elem_of_map_iff in Hin as (x & Hx & Hin).
  apply elem_of_bfilter in Hin as [Hin _].
  apply elem_of_map_iff. now exists x.
Qed.

Lemma count_key {A} (key : A -> Z) (l : list A) (k : Z) :
  NoDup (map key l) -> k ∈ map key l ->
  length (List.filter (fun a => key a =? k) l) = 1%nat.
Proof.
  induction l as [|a l IH]; simpl; intros Hnd Hin.
  - now apply elem_of_nil in Hin.
  - apply NoDup_cons in Hnd as [Hnotin Hnd].
    destruct (Z.eqb_spec (key a) k) as [Heq|Hne].
    + simpl. f_equal. rewrite bfilter_none; [reflexivity|].
      intros x Hx. apply Z.eqb_neq. intros Hk. apply Hnotin.
      apply elem_of_map_iff. exists x. split; [congruence | exact Hx].
    + apply IH; [exact Hnd|].
      apply elem_of_cons in Hin as [Hk|Hin]; [congruence | exact Hin].
Qed.

(** Rows of a table without repeated keys are told apart by their key. *)
Lemma NoDup_map_inj {A B} (key : A -> B) (l : list A) (x y : A) :
  NoDup (map key l) -> x ∈ l -> y ∈ l -> key x = key y -> x = y.
Proof.
  induction l as [|a l IH]; simpl; intros Hnd Hx Hy Hk.
  - now apply elem_of_nil in Hx.
  - apply NoDup_cons in Hnd as [Hnotin Hnd].
    apply elem_of_cons in Hx as [->|Hx]; apply elem_of_cons in Hy as [->|Hy].
    + reflexivity.
    + exfalso. apply Hnotin. apply elem_of_map_iff. now exists y.
    + exfalso. apply Hnotin. apply elem_of_map_iff. exists x. split; [congruence | exact Hx].
    + now apply IH.
Qed.

Lemma Inv_consistent (d : DB) : Inv d -> consistent d.
Proof.
  intros (Hrows & Hidx & Hsame & _). split.
  - intros r Hr. apply count_key; [exact Hidx|].
    apply Hsame. apply elem_of_map_iff. now exists r.
  - intros i Hi. apply count_key; [exact Hrows|].
    apply Hsame. apply elem_of_map_iff. now exists i.
Qed.

Lemma Inv_empty : Inv emptyDB.
Proof.
  repeat split; simpl; try constructor; intros Hk; now apply elem_of_nil in Hk.
Qed.

(** *** The statements *)

Lemma foldr_max_ge (s : Z) (l : list Z) (x : Z) : x ∈ l -> x <= foldr Z.max s l.
Proof.
  induction l as [|a l IH]; simpl; intros Hx; [now apply elem_of_nil in Hx|].
  apply elem_of_cons in Hx as [->|Hx]; [lia|]. specialize (IH Hx). lia.
Qed.

Lemma nextRowid_fresh (d : DB) : nextRowid d ∉ map rowid (fences d).
Proof.
  intros Hin. apply (foldr_max_ge (fences_seq d)) in Hin. unfold nextRowid in Hin. lia.
Qed.

Lemma existsb_false_elem {A} (p : A -> bool) (l : list A) (x : A) :
  existsb p l = false -> x ∈ l -> p x = false.
Proof.
  intros He Hx. destruct (p x) eqn:Hp; [|reflexivity].
  assert (existsb p l = true) as Ht; [|congruence].
  apply existsb_exists. exists x. split; [now apply list_elem_of_In | exact Hp].
Qed.

Lemma NoDup_snoc {A} (l : list A) (x : A) : NoDup l -> x ∉ l -> NoDup (l ++ [x]).
Proof.
  intros Hnd Hx. apply NoDup_app. split; [exact Hnd|]. split.
  - intros y Hy Hin. apply list_elem_of_singleton in Hin as ->. done.
  - apply NoDup_singleton.
Qed.

(** Inserting a fence and its index entry. *)
Lemma Inv_insert (d d1 d2 : DB) (f : FenceItem) (b : BoundingBox) (r : Z) :
  Inv d ->
  sqlInsertFence f d = Ok (r, d1) ->
  sqlInsertIndex r b d1 = Ok (tt, d2) ->
  Inv d2.
Proof.
  intros (Hrows & Hidx & Hsame & Hids). unfold sqlInsertFence, sqlInsertIndex.
  destruct (existsb (hasID (ID f)) (fences d)) eqn:Hex; [discriminate|].
  intros [= <- <-]. simpl.
  destruct (existsb _ (fence_index d)) eqn:Hex2; [discriminate|].
  intros [= <-]. unfold Inv. simpl.
  pose proof (nextRowid_fresh d) as Hfresh.
  rewrite !map_app. simpl.
  split; [now apply NoDup_snoc|].
  split; [apply NoDup_snoc; [exact Hidx | now rewrite <- Hsame]|].
  split.
  - intros k. rewrite !elem_of_app, Hsame. reflexivity.
  - apply NoDup_snoc; [exact Hids|].
    intros Hin. apply elem_of_map_iff in Hin as (x & Hx & Hin).
    apply (existsb_false_elem _ _ x Hex) in Hin.
    unfold hasID in Hin. apply String.eqb_neq in Hin. congruence.
Qed.

(** Updating a fence and its index entry. *)
Lemma Inv_update (d d1 d2 : DB) (f : FenceItem) (b : BoundingBox) (n : Z) :
  Inv d ->
  sqlUpdateFence f d = Ok (n, d1) ->
  sqlUpdateIndex (ID f) b d1 = Ok (tt, d2) ->
  Inv d2.
Proof.
  intros (Hrows & Hidx & Hsame & Hids). unfold sqlUpdateFence, sqlUpdateIndex.
  intros [= _ <-].
  assert (Hr : map rowid (map (fun r => if hasID (ID f) r then mkFenceRow (rowid r) f else r)
                            (fences d)) = map rowid (fences d)).
  { rewrite map_map. apply map_ext. intros r. now destruct (hasID (ID f) r). }
  assert (Hi : map (fun r => ID (item r))
                 (map (fun r => if hasID (ID f) r then mkFenceRow (rowid r) f else r)
                    (fences d)) = map (fun r => ID (item r)) (fences d)).
  { rewrite map_map. apply map_ext. intros r. unfold hasID.
    destruct (String.eqb_spec (ID (item r)) (ID f)) as [Heq|]; [|reflexivity].
    simpl. now rewrite Heq. }
  assert (Hx : forall t, map irowid
                 (map (fun i => if irowid i =? t
                                then mkIndexRow t (MinLon b) (MaxLon b) (MinLat b) (MaxLat b)
                                else i) (fence_index d)) = map irowid (fence_index d)).
  { intros t. rewrite map_map. apply map_ext. intros i.
    destruct (Z.eqb_spec (irowid i) t) as [Heq|]; [|reflexivity]. simpl. now rewrite Heq. }
  destruct (sqlSelectRowid _ _); intros [= <-]; unfold Inv; simpl;
    rewrite ?Hr, ?Hi, ?Hx;
    (split; [exact Hrows|]; split; [exact Hidx|]; split; [exact Hsame | exact Hids]).
Qed.

(** Deleting a fence and its index entry. *)
Lemma Inv_delete (d d1 d2 : DB) (id : string) (rowID n : Z) :
  Inv d ->
  sqlSelectRowid id d = Some rowID ->
  sqlDeleteFence id d = Ok (n, d1) ->
  sqlDeleteIndex rowID d1 = Ok (tt, d2) ->
  Inv d2.
Proof.
  intros (Hrows & Hidx & Hsame & Hids). unfold sqlSelectRowid, sqlDeleteFence, sqlDeleteIndex.
  destruct (List.filter (hasID id) (fences d)) as [|r0 rest] eqn:Hsel; [discriminate|].
  intros [= <-] [= _ <-] [= <-]. unfold Inv. simpl.
  assert (Hr0 : r0 ∈ fences d /\ hasID id r0 = true).
  { apply elem_of_bfilter. rewrite Hsel. now left. }
  destruct Hr0 as [Hr0 Hid0].
  split; [now apply NoDup_map_bfilter|].
  split; [now apply NoDup_map_bfilter|].
  split; [|now apply NoDup_map_bfilter].
  intros k. rewrite !elem_of_map_iff. split.
  - intros (r & -> & Hr). apply elem_of_bfilter in Hr as [Hr Hnot].
    assert (Hk : rowid r ∈ map irowid (fence_index d)).
    { apply Hsame, elem_of_map_iff. now exists r. }
    apply elem_of_map_iff in Hk as (i & Hk & Hi). exists i. split; [exact Hk|].
    apply elem_of_bfilter. split; [exact Hi|].
    apply negb_true_iff, Z.eqb_neq. intros Heq.
    assert (r = r0) as ->.
    { apply (NoDup_map_inj rowid (fences d)); [exact Hrows | exact Hr | exact Hr0 | congruence]. }
    rewrite Hid0 in Hnot. discriminate.
  - intros (i & -> & Hi). apply elem_of_bfilter in Hi as [Hi Hnot].
    apply negb_true_iff, Z.eqb_neq in Hnot.
    assert (Hk : irowid i ∈ map rowid (fences d)).
    { apply Hsame, elem_of_map_iff. now exists i. }
    apply elem_of_map_iff in Hk as (r & Hk & Hr). exists r. split; [exact Hk|].
    apply elem_of_bfilter. split; [exact Hr|].
    apply negb_true_iff. destruct (hasID id r) eqn:Hid; [|reflexivity].
    exfalso. apply Hnot.
    assert (r = r0) as ->; [|exact Hk].
    apply (NoDup_map_inj (fun r => ID (item r)) (fences d)); [exact Hids | exact Hr | exact Hr0 |].
    unfold hasID in *. apply String.eqb_eq in Hid, Hid0. congruence.
Qed.

(** *** Transactions *)

Lemma inTransaction_db {A} (body : TxM A) (w : World) :
  db (inTransaction body w).2 = db w
  \/ exists a fs fs', body (db w) fs = (Ok a, db (inTransaction body w).2, fs').
Proof.
  unfold inTransaction.
  destruct (nextFault (faults w)) as [[] fs1]; [now left|].
  destruct (body (db w) fs1) as [[[a|e] d'] fs2] eqn:E; [|now left].
  destruct (nextFault fs2) as [[] fs3]; [now left|].
  right. exists a, fs1, fs2. exact E.
Qed.

(** A transaction that reports an error leaves the tables as they were. *)
Lemma inTransaction_rollback {A} (body : TxM A) (w : World) (e : string) :
  (inTransaction body w).1 = Err e -> db (inTransaction body w).2 = db w.
Proof.
  unfold inTransaction.
  destruct (nextFault (faults w)) as [[] fs1]; [reflexivity|].
  destruct (body (db w) fs1) as [[[a|e'] d'] fs2]; [|reflexivity].
  destruct (nextFault fs2) as [[] fs3]; [reflexivity | discriminate].
Qed.

Lemma txBind_ok {A B} (m : TxM A) (k : A -> TxM B) d fs b d' fs' :
  txBind m k d fs = (Ok b, d', fs') ->
  exists a d1 fs1, m d fs = (Ok a, d1, fs1) /\ k a d1 fs1 = (Ok b, d', fs').
Proof.
  unfold txBind. destruct (m d fs) as [[[a|e] d1] fs1]; [|discriminate].
  intros Hk. now exists a, d1, fs1.
Qed.

Lemma txExec_ok {A} (prefix : string) (stmt : DB -> result (A * DB)) d fs a d' fs' :
  txExec prefix stmt d fs = (Ok a, d', fs') -> stmt d = Ok (a, d').
Proof.
  unfold txExec. destruct (nextFault fs) as [[] fs1]; [discriminate|].
  destruct (stmt d) as [[a1 d1]|e]; [|discriminate]. now intros [= <- <- _].
Qed.

Lemma txCall_ok (prefix : string) d fs u d' fs' :
  txCall prefix d fs = (Ok u, d', fs') -> d' = d.
Proof.
  unfold txCall. destruct (nextFault fs) as [[] fs1]; [discriminate|]. now intros [= _ <- _].
Qed.

(** *** The operations *)

Lemma AddFence_Inv (f : FenceItem) (w : World) :
  Inv (db w) -> Inv (db (AddFence f w).2).
Proof.
  intros HI. unfold AddFence.
  destruct (negb (geometryMarshals (Geometry_ f))); [exact HI|].
  match goal with |- context [inTransaction ?b w] =>
    destruct (inTransaction_db b w) as [->|(a & fs & fs' & Hbody)]; [exact HI|] end.
  apply txBind_ok in Hbody as (r & d1 & fs1 & H1 & H2).
  apply txExec_ok in H1.
  apply txBind_ok in H2 as (u & d2 & fs2 & H2 & H3).
  apply txCall_ok in H2 as ->.
  apply txExec_ok in H3. destruct a.
  exact (Inv_insert _ _ _ _ _ _ HI H1 H3).
Qed.

Lemma UpdateFence_Inv (f : FenceItem) (w : World) :
  Inv (db w) -> Inv (db (UpdateFence f w).2).
Proof.
  intros HI. unfold UpdateFence.
  destruct (negb (geometryMarshals (Geometry_ f))); [exact HI|].
  match goal with |- context [inTransaction ?b w] =>
    destruct (inTransaction_db b w) as [->|(a & fs & fs' & Hbody)]; [exact HI|] end.
  apply txBind_ok in Hbody as (n & d1 & fs1 & H1 & H2).
  apply txExec_ok in H1.
  apply txBind_ok in H2 as (u & d2 & fs2 & H2 & H3).
  apply txCall_ok in H2 as ->.
  destruct (n =? 0); [discriminate|].
  apply txExec_ok in H3. destruct a.
  exact (Inv_update _ _ _ _ _ _ HI H1 H3).
Qed.

Lemma DeleteFence_Inv (id : string) (w : World) :
  Inv (db w) -> Inv (db (DeleteFence id w).2).
Proof.
  intros HI. unfold DeleteFence.
  match goal with |- context [inTransaction ?b w] =>
    destruct (inTransaction_db b w) as [->|(a & fs & fs' & Hbody)]; [exact HI|] end.
  apply txBind_ok in Hbody as (u0 & d0 & fs0 & H0 & Hbody).
  apply txCall_ok in H0 as ->.
  destruct (sqlSelectRowid id (db w)) as [rowID|] eqn:Hsel; [|discriminate].
  apply txBind_ok in Hbody as (n & d1 & fs1 & H1 & H2).
  apply txExec_ok in H1.
  apply txBind_ok in H2 as (u & d2 & fs2 & H2 & H3).
  apply txCall_ok in H2 as ->.
  destruct (n =? 0); [discriminate|].
  apply txExec_ok in H3. destruct a.
  exact (Inv_delete _ _ _ _ _ _ HI Hsel H1 H3).
Qed.

(** An operation that reports an error has changed nothing. *)
Lemma AddFence_atomic (f : FenceItem) (w : World) (e : string) :
  (AddFence f w).1 = Err e -> db (AddFence f w).2 = db w.
Proof.
  unfold AddFence. destruct (negb (geometryMarshals (Geometry_ f))); [reflexivity|].
  apply inTransaction_rollback.
Qed.

Lemma UpdateFence_atomic (f : FenceItem) (w : World) (e : string) :
  (UpdateFence f w).1 = Err e -> db (UpdateFence f w).2 = db w.
Proof.
  unfold UpdateFence. destruct (negb (geometryMarshals (Geometry_ f))); [reflexivity|].
  apply inTransaction_rollback.
Qed.

Lemma DeleteFence_atomic (id : string) (w : World) (e : string) :
  (DeleteFence id w).1 = Err e -> db (DeleteFence id w).2 = db w.
Proof. unfold DeleteFence. apply inTransaction_rollback. Qed.

(** *** Sequences of mutations *)

Inductive Mutation : Type :=
  | MAdd (f : FenceItem)
  | MUpdate (f : FenceItem)
  | MDelete (id : string).

Definition mutate (m : Mutation) : M unit :=
  match m with
  | MAdd f => AddFence f
  | MUpdate f => UpdateFence f
  | MDelete id => DeleteFence id
  end.

(** The world after the operations, whatever each of them returned. *)
Fixpoint runAll (ms : list Mutation) (w : World) : World :=
  match ms with
  | [] => w
  | m :: rest => runAll rest (mutate m w).2
  end.

Lemma mutate_Inv (m : Mutation) (w : World) : Inv (db w) -> Inv (db (mutate m w).2).
Proof.
  destruct m; simpl; [apply AddFence_Inv | apply UpdateFence_Inv | apply DeleteFence_Inv].
Qed.

Lemma runAll_Inv (ms : list Mutation) :
  forall w, Inv (db w) -> Inv (db (runAll ms w)).
Proof.
  induction ms as [|m ms IH]; intros w HI; simpl; [exact HI|].
  apply IH. now apply mutate_Inv.
Qed.

(** C8: from the empty store, after any sequence of [AddFence],
    [UpdateFence] and [DeleteFence] calls and at every point of it (after
    the first [n] calls), under every schedule of database failures, the
    fence table and the index are in one-to-one correspondence by row id. *)
Theorem store_index_consistent (ms : list Mutation) (n : nat) (fs : list bool) (now : Z) :
  consistent (db (runAll (take n ms) (mkWorld emptyDB fs now))).
Proof.
  apply Inv_consistent, runAll_Inv. exact Inv_empty.
Qed.

End StorageSpec.

(* ====================================================================== *)
(** ** sync: the point check *)
(* ====================================================================== *)

Module CheckSpec.
Import Geofence Storage.

(** The prohibitive fence types. *)
Definition prohibitive (f : FenceItem) : bool :=
  (Type_ f =? FenceTypePermanentNoFly) || (Type_ f =? FenceTypeTempRestriction).

(** [sel] is the first entry of maximal priority of [l]. *)
Definition firstOfMaxPriority (sel : FenceItem) (l : list FenceItem) : Prop :=
  exists pre post,
    l = pre ++ sel :: post
    /\ Forall (fun g => Priority g < Priority sel) pre
    /\ Forall (fun g => Priority g <= Priority sel) post.

Lemma highestPriority_loop (others : list FenceItem) :
  forall (best : FenceItem) (seen : list FenceItem),
    firstOfMaxPriority best seen ->
    firstOfMaxPriority
      (fold_left (fun best f => if Priority best <? Priority f then f else best) others best)
      (seen ++ others).
Proof.
  induction others as [|f others IH]; intros best seen Hbest; simpl.
  - now rewrite app_nil_r.
  - replace (seen ++ f :: others) with ((seen ++ [f]) ++ others)
      by now rewrite <- app_assoc.
    apply IH. destruct Hbest as (pre & post & -> & Hpre & Hpost).
    destruct (Z.ltb_spec (Priority best) (Priority f)) as [Hlt|Hge].
    + exists (pre ++ best :: post), []. split; [reflexivity|]. split; [|constructor].
      apply Forall_app. split.
      * eapply Forall_impl; [exact Hpre|]. simpl. intros g Hg. lia.
      * constructor; [exact Hlt|].
        eapply Forall_impl; [exact Hpost|]. simpl. intros g Hg. lia.
    + exists pre, (post ++ [f]). split; [now rewrite <- !app_assoc|].
      split; [exact Hpre|]. apply Forall_app. split; [exact Hpost|].
      constructor; [lia | constructor].
Qed.

Lemma highestPriority_spec (first : FenceItem) (others : list FenceItem) :
  firstOfMaxPriority (Syncer.highestPriority first others) (first :: others).
Proof.
  apply (highestPriority_loop others first [first]).
  exists [], []. split; [reflexivity|]. split; constructor.
Qed.



Section WithMath.
Context `{GoMath}.


(** The row has an entry in the index whose box holds the point. *)
Definition indexed (d : DB) (lat lon : float) (r : FenceRow) : bool :=
  existsb (fun i => (irowid i =? rowid r) && boxHolds i lat lon) (fence_index d).

(** The index loses no fence at the point: every stored fence whose
    geometry contains the point, and which is active, has an entry in the
    index whose box holds the point. The comment in [QueryAtPoint] takes
    this for granted (the R-Tree gives the bounding box matches, the exact
    geometry is checked after); [GetBounds] does not ensure it for
    circles, see [Check_misses_circle] below. *)
Definition indexCovers (w : World) (lat lon : float) : bool :=
  forallb (fun r =>
             implb (ContainsPoint (item r) (mkPoint lat lon) && IsActiveAt (item r) (clock w))
                   (indexed (db w) lat lon r))
    (fences (db w)).




End WithMath.

(** *** Runs of the check *)

(** A fence over the box from (0, 0) to (1, 1), never expiring. *)
Definition boxFence (id : string) (type : FenceType) (priority : Z) : FenceItem :=
  mkFenceItem id type
    (mkGeometry [] None 0%float (Some (mkBoundingBox 0%float 0%float 1%float 1%float)))
    0 0 priority 0 0 EmptyString EmptyString [] EmptyString.

Definition advisoryA : FenceItem := boxFence "zone-a" FenceTypeAltitudeLimit 100.
Definition noFlyB : FenceItem := boxFence "zone-b" FenceTypePermanentNoFly 100.


Definition worldBA : World :=
  StorageSpec.runAll [StorageSpec.MAdd noFlyB; StorageSpec.MAdd advisoryA]
    (mkWorld emptyDB [] 1000).

Definition half : float := 0.5%float.






(** The manager's query differs on the remaining types: for a selected
    fence of type AltitudeMinimum it names no restriction at all. *)
Lemma Manager_QueryAtPoint_AltitudeMinimum :
  let w := StorageSpec.runAll
             [StorageSpec.MAdd (boxFence "floor" FenceTypeAltitudeMinimum 10)]
             (mkWorld emptyDB [] 1000) in
  (@Version.QueryAtPoint Examples.noTrig half half w).1 = Ok (true, None)
  /\ (@Syncer.Check Examples.noTrig half half w).1
     = Ok (true, Some (boxFence "floor" FenceTypeAltitudeMinimum 10)).
Proof. split; vm_compute; reflexivity. Qed.

(** *** What the amended claim leaves out: a fence the index misses *)

(** A no-fly circle of 10 km around 60 N, 100 E, and the point on the
    same parallel at 100.1797 E, about 9991 m east of the centre. *)
Definition noFlyCircle : FenceItem :=
  mkFenceItem "circle" FenceTypePermanentNoFly
    (mkGeometry [] (Some (mkPoint 60%float 100%float)) 10000%float None)
    0 0 100 0 0 EmptyString EmptyString [] EmptyString.

Definition worldCircle : World :=
  StorageSpec.runAll [StorageSpec.MAdd noFlyCircle] (mkWorld emptyDB [] 1000).

Definition eastOfCentre : Point := mkPoint 60%float 0x1.90b80346dc5d6p+6%float.

(** [GetBounds] takes the cosine of the latitude from two terms of its
    series, which is too large at 60 N (0.5018 for 0.5), so the box of the
    circle ends at 100.179535 E, west of the point (and so does the bound
    that the R-Tree keeps, rounded up to a 32-bit number: at most
    100.179543 E). The index then does not return the fence and [Check]
    allows the flight without looking at the geometry, whatever the math
    library; and whenever the library finds the point within the radius,
    the point is inside the active no-fly zone.
    [GetBounds] is documented as the bounding box of the geometry: this is
    a defect of the code, which the amended claim neither promises nor
    denies. *)
Lemma Check_misses_circle `{GoMath} :
  PrimFloat.ltb (MaxLon (GetBounds noFlyCircle)) (Longitude eastOfCentre) = true
  /\ joinAtPoint (db worldCircle) (Latitude eastOfCentre) (Longitude eastOfCentre) = []
  /\ Syncer.Check (Latitude eastOfCentre) (Longitude eastOfCentre) worldCircle
     = (Ok (true, None), worldCircle)
  /\ (pointInCircle eastOfCentre (mkPoint 60%float 100%float) 10000%float = true ->
      ContainsPoint noFlyCircle eastOfCentre = true
      /\ IsActiveAt noFlyCircle (clock worldCircle) = true
      /\ prohibitive noFlyCircle = true
      /\ indexCovers worldCircle (Latitude eastOfCentre) (Longitude eastOfCentre) = false).
Proof.
  split; [vm_compute; reflexivity|]. split; [vm_compute; reflexivity|].
  split; [vm_compute; reflexivity|].
  intros Hin.
  assert (Hc : ContainsPoint noFlyCircle eastOfCentre = true) by exact Hin.
  split; [exact Hc|]. split; [reflexivity|]. split; [reflexivity|].
  unfold indexCovers.
  change (fences (db worldCircle)) with [mkFenceRow 1 noFlyCircle].
  change (mkPoint (Latitude eastOfCentre) (Longitude eastOfCentre)) with eastOfCentre.
  cbn [forallb item]. rewrite Hc. vm_compute. reflexivity.
Qed.

(** With sine, cosine and arc tangent from their power series the
    haversine distance of the point from the centre is between 9990 m and
    9991 m: the point is within the radius. *)
Example eastOfCentre_in_circle :
  let d := @haversineDistance Examples.seriesTrig eastOfCentre (mkPoint 60%float 100%float) in
  PrimFloat.ltb 9990%float d = true /\ PrimFloat.ltb d 9991%float = true
  /\ @pointInCircle Examples.seriesTrig eastOfCentre (mkPoint 60%float 100%float) 10000%float
     = true.
Proof. vm_compute. repeat split. Qed.

End CheckSpec.

(* ====================================================================== *)
(** ** sync: what a synchronization leaves in the store *)
(* ====================================================================== *)

Module SyncSpec.
Import Geofence Storage Syncer.

(** *** What a sync that applies an update leaves behind *)

Lemma bind_ok {A B} (m : M A) (k : A -> M B) (w w' : World) (b : B) :
  bind m k w = (Ok b, w') -> exists a w1, m w = (Ok a, w1) /\ k a w1 = (Ok b, w').
Proof.
  unfold bind. destruct (m w) as [[a|e] w1]; [|discriminate].
  intros Hk. now exists a, w1.
Qed.

Lemma wrapErr_ok {A} (prefix : string) (m : M A) (w w' : World) (a : A) :
  wrapErr prefix m w = (Ok a, w') -> m w = (Ok a, w').
Proof.
  unfold wrapErr. destruct (m w) as [[a1|e] w1]; [|discriminate]. now intros [= <- <-].
Qed.

Lemma dbRead_db (prefix : string) (w w' : World) (r : result unit) :
  dbRead prefix w = (r, w') -> db w' = db w.
Proof.
  unfold dbRead. destruct (nextFault (faults w)) as [[] fs]; now intros [= <- <-].
Qed.

Lemma SetVersion_ok (v : Z) (w w' : World) :
  SetVersion v w = (Ok tt, w') ->
  metadata_version (db w') = Some v /\ metadata_manifest (db w') = metadata_manifest (db w)
  /\ fences (db w') = fences (db w).
Proof.
  unfold SetVersion, dbExec. destruct (nextFault (faults w)) as [[] fs]; [discriminate|].
  intros [= <-]. now repeat split.
Qed.

Lemma SetManifest_ok (m : Manifest) (w w' : World) :
  SetManifest m w = (Ok tt, w') -> metadata_manifest (db w') = Some m.
Proof.
  unfold SetManifest, dbExec. destruct (nextFault (faults w)) as [[] fs]; [discriminate|].
  now intros [= <-].
Qed.

Section WithLibraries.
Context `{JsonCodec} `{Binarydiff.DeltaCodec} `{Ed25519} `{Network}.

(** When [updateStorage] returns without error, the store holds the
    manifest and its version. *)
Lemma updateStorage_ok (fs : list FenceItem) (manifest : Manifest) (w w' : World) :
  updateStorage fs manifest w = (Ok tt, w') ->
  metadata_version (db w') = Some (Version manifest)
  /\ metadata_manifest (db w') = Some manifest.
Proof.
  unfold updateStorage. intros Hrun.
  apply bind_ok in Hrun as (_ & w1 & _ & Hrun).
  apply bind_ok in Hrun as (_ & w2 & _ & Hrun).
  apply bind_ok in Hrun as ([] & w3 & Hman & Hrun).
  apply bind_ok in Hrun as ([] & w4 & Hver & Hrun).
  apply wrapErr_ok in Hman. apply wrapErr_ok in Hver. apply wrapErr_ok in Hrun.
  apply dbRead_db in Hrun. apply SetManifest_ok in Hman.
  apply SetVersion_ok in Hver as (Hv & Hm & _).
  rewrite Hrun. split; [exact Hv | congruence].
Qed.

Lemma applySnapshot_ok (s : Syncer) (manifest : Manifest) (w w' : World) :
  applySnapshot s manifest w = (Ok tt, w') ->
  exists fs w1, updateStorage fs manifest w1 = (Ok tt, w').
Proof.
  unfold applySnapshot. intros Hrun.
  apply bind_ok in Hrun as (snapshotData & w1 & _ & Hrun).
  destruct (_ && _); [discriminate|].
  apply bind_ok in Hrun as (fs & w2 & _ & Hrun).
  apply bind_ok in Hrun as (_ & w3 & _ & Hrun).
  apply wrapErr_ok in Hrun. now exists fs, w3.
Qed.

Lemma applyDelta_ok (s : Syncer) (manifest : Manifest) (w w' : World) :
  applyDelta s manifest w = (Ok tt, w') ->
  exists fs w1, updateStorage fs manifest w1 = (Ok tt, w').
Proof.
  unfold applyDelta. intros Hrun.
  apply bind_ok in Hrun as (deltaData & w1 & _ & Hrun).
  destruct (_ && _); [discriminate|].
  apply bind_ok in Hrun as (oldFences & w2 & _ & Hrun).
  apply bind_ok in Hrun as (delta & w3 & _ & Hrun).
  apply bind_ok in Hrun as (newFences & w4 & _ & Hrun).
  apply wrapErr_ok in Hrun. now exists newFences, w4.
Qed.

(** The first half of C1 holds: a sync that returns without error and
    not as up to date has fetched a manifest of a higher version, and
    afterwards the store and the syncer are at that version. *)
Lemma Sync_applied_version (s s' : Syncer) (w w' : World) (res : SyncResult) :
  Sync s w = (res, s', w') ->
  Error res = None -> UpToDate res = false ->
  exists manifest,
    Client.FetchManifest (client s) = Ok manifest
    /\ currentVer s < Version manifest
    /\ metadata_version (db w') = Some (Version manifest)
    /\ metadata_manifest (db w') = Some manifest
    /\ currentVer s' = Version manifest.
Proof.
  unfold Sync. destruct (Client.FetchManifest (client s)) as [manifest|e].
  2:{ intros [= <- _ _]. discriminate. }
  destruct (Z.leb_spec (Version manifest) (currentVer s)) as [Hle|Hlt].
  { intros [= <- _ _]. discriminate. }
  set (useDelta := _ && _).
  destruct ((if useDelta then applyDelta s manifest else applySnapshot s manifest) w)
    as [[[]|e] w1] eqn:Happly.
  2:{ intros [= <- _ _]. discriminate. }
  intros [= <- <- <-] _ _. exists manifest.
  assert (Hstore : exists fs w0, updateStorage fs manifest w0 = (Ok tt, w1)).
  { destruct useDelta; [eapply applyDelta_ok | eapply applySnapshot_ok]; exact Happly. }
  destruct Hstore as (fs & w0 & Hstore). apply updateStorage_ok in Hstore as [Hv Hm].
  repeat split; [exact Hlt | exact Hv | exact Hm].
Qed.

(** An up-to-date result leaves the world and the syncer as they were. *)
Lemma Sync_UpToDate (s s' : Syncer) (w w' : World) (res : SyncResult) :
  Sync s w = (res, s', w') -> UpToDate res = true -> s' = s /\ w' = w.
Proof.
  unfold Sync. destruct (Client.FetchManifest (client s)) as [manifest|e].
  2:{ intros [= <- _ _]. discriminate. }
  destruct (Version manifest <=? currentVer s); [now intros [= _ <- <-]|].
  set (useDelta := _ && _).
  destruct ((if useDelta then applyDelta s manifest else applySnapshot s manifest) w)
    as [[[]|e] w1]; intros [= <- _ _]; discriminate.
Qed.

(** A sync that reports an error never moves the version of the syncer. *)
Lemma Sync_error_currentVer (s s' : Syncer) (w w' : World) (res : SyncResult) (e : string) :
  Sync s w = (res, s', w') -> Error res = Some e -> s' = s.
Proof.
  unfold Sync. destruct (Client.FetchManifest (client s)) as [manifest|e1].
  2:{ now intros [= _ <- _]. }
  destruct (Version manifest <=? currentVer s); [now intros [= _ <- _]|].
  set (useDelta := _ && _).
  destruct ((if useDelta then applyDelta s manifest else applySnapshot s manifest) w)
    as [[[]|e1] w1]; [|now intros [= _ <- _]].
  intros [= <- _ _]. discriminate.
Qed.

End WithLibraries.

(** *** A remote with one snapshot *)

Definition zoneA : FenceItem := MerkleSpec.zoneA.
Definition zoneB : FenceItem := MerkleSpec.zoneB.

(** Version 3 of the dataset holds zone-b only. *)
Definition snapshotB : FenceCollection := mkFenceCollection [zoneB] 1700000000 EmptyString.

Definition snapshotBytes : bytes :=
  match Examples.toBytes (Examples.collectionText snapshotB) with
  | Ok data => data
  | Err _ => []
  end.

(** The manifest names the snapshot and its digest. It carries no root
    hash: [applySnapshot] passes the root of the rebuilt tree to
    [VerifyHash], which hashes its first argument before comparing, and
    the manifest that carries the root itself is turned down (see
    [root_in_manifest_rejected] below). *)
Definition manifest3 : Manifest :=
  mkManifest 3 1700000000 [] EmptyString "/v3.bin" 0 (len snapshotBytes) []
    (Crypto.sha256 snapshotBytes) 0 "Version 3 - 1 fences" [] EmptyString.

Definition remoteJson : JsonCodec :=
  Examples.exampleJson [zoneA; zoneB] [snapshotB] [manifest3].

Definition manifestBytes : bytes :=
  match @json_MarshalIndent_Manifest remoteJson manifest3 with
  | Ok data => data
  | Err _ => []
  end.

Definition base : string := "https://cdn.example.com".

Definition remote : Network :=
  Examples.staticServer base manifestBytes [((base ++ "/v3.bin")%string, snapshotBytes)].

(** A client without public key: the signature check is skipped. *)
Definition drone : Client.Client := Client.mkClient "GUL-Client/1.0" [] base.

Definition runSync (s : Syncer) (w : World) : SyncResult * Syncer * World :=
  @Sync remoteJson Examples.noDeltas Examples.exampleEd25519 remote s w.

Example remote_serves_snapshotB :
  @Client.FetchManifest remoteJson Examples.exampleEd25519 remote drone = Ok manifest3
  /\ @Client.FetchSnapshot remote drone (SnapshotURL manifest3) = Ok snapshotBytes
  /\ @Merkle.LoadSnapshot remoteJson snapshotBytes = Ok [zoneB].
Proof. repeat split; vm_compute; reflexivity. Qed.

(** The same remote with the Merkle root of the snapshot in the manifest,
    as [Publish] writes it. *)
Definition rootB : bytes :=
  match @Merkle.NewTree remoteJson [zoneB] with
  | Ok tree => Merkle.RootHash tree
  | Err _ => []
  end.

Definition manifest3Root : Manifest :=
  mkManifest 3 1700000000 rootB EmptyString "/v3.bin" 0 (len snapshotBytes) []
    (Crypto.sha256 snapshotBytes) 0 "Version 3 - 1 fences" [] EmptyString.

Definition rootJson : JsonCodec :=
  Examples.exampleJson [zoneA; zoneB] [snapshotB] [manifest3Root].

Definition rootRemote : Network :=
  Examples.staticServer base
    (match @json_MarshalIndent_Manifest rootJson manifest3Root with
     | Ok data => data
     | Err _ => []
     end)
    [((base ++ "/v3.bin")%string, snapshotBytes)].

Example root_in_manifest_rejected :
  len rootB = 32
  /\ let '(res, s', w') :=
       @Sync rootJson Examples.noDeltas Examples.exampleEd25519 rootRemote
         (mkSyncer drone 0 None) (mkWorld emptyDB [] 1700000100) in
     Error res = Some "failed to apply update: root hash verification failed"
     /\ db w' = emptyDB.
Proof. split; [vm_compute; reflexivity|]. vm_compute. split; reflexivity. Qed.

(** *** C4 on the code: a snapshot sync that succeeds *)

(** The client holds version 1 with zone-a. *)
Definition worldV1 : World :=
  (SetVersion 1 (StorageSpec.runAll [StorageSpec.MAdd zoneA] (mkWorld emptyDB [] 1700000100))).2.

Definition syncerV1 : Syncer := mkSyncer drone 1 None.

(** C4, on the code: the sync takes the snapshot path (the version moves
    from 1 to 3) and succeeds; the fetched snapshot decodes to zone-b
    alone, and afterwards the store holds zone-a as well: the fence absent
    from the snapshot is not removed. *)
Theorem snapshot_sync_keeps_absent_fence :
  let '(res, s', w') := runSync syncerV1 worldV1 in
  map item (fences (db worldV1)) = [zoneA]
  /\ Error res = None /\ UpToDate res = false
  /\ currentVer s' = 3 /\ metadata_version (db w') = Some 3
  /\ metadata_manifest (db w') = Some manifest3
  /\ map item (fences (db w')) = [zoneA; zoneB].
Proof. vm_compute. repeat split; reflexivity. Qed.

(** *** C1 on the code: a sync that fails while applying *)

(** A fresh client, and a database whose eleventh call fails: the calls
    of [updateStorage] are the begin of the outer transaction, three for the
    update that finds no row, five for the insertion, the write of the
    manifest, and then the write of the version. *)
Definition worldFresh : World :=
  mkWorld emptyDB (replicate 10 false ++ [true]) 1700000100.

Definition syncerFresh : Syncer := mkSyncer drone 0 None.

(** C1, on the code: the sync reports an error from the apply step and
    the version stays at 0, but the fence table and the stored manifest
    are no longer what they were before the sync began. *)
Theorem failed_sync_leaves_partial_update :
  let '(res, s', w') := runSync syncerFresh worldFresh in
  Error res = Some "failed to apply update: failed to update storage: failed to set version: failed to store version: database error"
  /\ currentVer s' = 0 /\ metadata_version (db w') = None
  /\ fences (db worldFresh) = []
  /\ map item (fences (db w')) = [zoneB]
  /\ metadata_manifest (db worldFresh) = None
  /\ metadata_manifest (db w') = Some manifest3.
Proof. vm_compute. repeat split; reflexivity. Qed.

(** When it is the commit of the unused transaction that fails (the
    twelfth call), the sync reports an error and the syncer stays at
    version 0, while the store already holds version 3 in full. *)
Example failed_commit_leaves_full_update :
  let '(res, s', w') :=
    runSync syncerFresh (mkWorld emptyDB (replicate 11 false ++ [true]) 1700000100) in
  Error res = Some "failed to apply update: failed to update storage: failed to commit transaction: commit: database error"
  /\ currentVer s' = 0
  /\ metadata_version (db w') = Some 3
  /\ map item (fences (db w')) = [zoneB].
Proof. vm_compute. repeat split; reflexivity. Qed.

End SyncSpec.

(* ====================================================================== *)
(** ** client and publisher: the signature of the manifest *)
(* ====================================================================== *)

Module ClientSpec.
Import Geofence GeofenceManifest.

Section PublishedManifest.
Context `{JsonCodec} `{Ed25519} `{Network}.

(** The two steps of [Publish] that concern the manifest: sign it, then
    write [manifest.json]. The result is the manifest as signed and the
    content of the file. *)
Definition publish (keyPair : Crypto.KeyPair) (manifest : Manifest)
  : result (Manifest * bytes) :=
  match Publisher.signManifest keyPair manifest with
  | Err e => Err e
  | Ok signed =>
      match Publisher.writeManifest signed with
      | Err e => Err e
      | Ok file => Ok (signed, file)
      end
  end.

(** What the publisher signs: the bytes of [MarshalBinaryForSigning]. *)
Lemma publish_signature keyPair manifest signedBytes signed file :
  MarshalBinaryForSigning manifest = Ok signedBytes ->
  publish keyPair manifest = Ok (signed, file) ->
  ManifestSignature signed = ed25519_Sign (Crypto.PrivateKey keyPair) signedBytes
  /\ ManifestKeyID signed = Crypto.KeyPairID keyPair
  /\ json_MarshalIndent_Manifest signed = Ok file.
Proof.
  intros Hdata. unfold publish, Publisher.signManifest, Publisher.writeManifest.
  rewrite Hdata. unfold Crypto.KeyPair_Sign.
  destruct (len (Crypto.PrivateKey keyPair) =? 0); [discriminate|].
  destruct (json_MarshalIndent_Manifest _) as [data|e] eqn:Hfile; [|discriminate].
  intros [= <- <-]. split; [reflexivity|]. split; [reflexivity|exact Hfile].
Qed.

(** What the client checks: the signature against the bytes it is given. *)
Lemma verifyManifestSignature_invalid (c : Client.Client) manifest data :
  len (Client.publicKey c) <> 0 ->
  ed25519_Verify (Client.publicKey c) data (ManifestSignature manifest) = false ->
  Client.verifyManifestSignature c manifest data
  = Err (if len (ManifestSignature manifest) =? 0
         then "manifest has no signature" else "invalid signature").
Proof.
  intros Hkey Hverify. unfold Client.verifyManifestSignature.
  destruct (len (Client.publicKey c) =? 0) eqn:Hk; [apply Z.eqb_eq in Hk; contradiction|].
  destruct (len (ManifestSignature manifest) =? 0); [reflexivity|].
  unfold Crypto.Verify. rewrite Hverify.
  destruct (negb (len (Client.publicKey c) =? Crypto.PublicKeySize)); [reflexivity|].
  destruct (negb (len (ManifestSignature manifest) =? Crypto.SignatureSize)); reflexivity.
Qed.

(** C2, on the code. The publisher signs the bytes of
    [MarshalBinaryForSigning] and writes the signed manifest to
    [manifest.json]; the client verifies the signature against the content
    of that file. Whenever Ed25519 does not accept, for the content of the
    file, the signature made for the signed bytes, the client with the
    matching public key rejects the published manifest: both
    [verifyManifestSignature] and [FetchManifest] return an error. *)
Theorem published_manifest_rejected
  (keyPair : Crypto.KeyPair) (manifest signed : Manifest) (signedBytes file : bytes)
  (c : Client.Client) :
  MarshalBinaryForSigning manifest = Ok signedBytes ->
  publish keyPair manifest = Ok (signed, file) ->
  Client.publicKey c = Crypto.PublicKey keyPair ->
  len (Crypto.PublicKey keyPair) <> 0 ->
  ed25519_Verify (Crypto.PublicKey keyPair) file
    (ed25519_Sign (Crypto.PrivateKey keyPair) signedBytes) = false ->
  Client.cdnBaseURL c <> EmptyString ->
  http_manifest (Client.cdnBaseURL c) = Ok file ->
  json_Unmarshal_Manifest file = Ok signed ->
  let reason :=
    if len (ManifestSignature signed) =? 0
    then "manifest has no signature" else "invalid signature" in
  Client.verifyManifestSignature c signed file = Err reason
  /\ Client.FetchManifest c
     = Err ("manifest signature verification failed: " ++ reason)%string.
Proof.
  intros Hdata Hpub Hkey Hlen Hverify Hbase Hget Hjson reason.
  destruct (publish_signature _ _ _ _ _ Hdata Hpub) as (Hsig & _ & _).
  assert (Hv : Client.verifyManifestSignature c signed file = Err reason).
  { apply verifyManifestSignature_invalid.
    - rewrite Hkey. exact Hlen.
    - rewrite Hkey, Hsig. exact Hverify. }
  split; [exact Hv|].
  unfold Client.FetchManifest.
  destruct (String.eqb (Client.cdnBaseURL c) EmptyString) eqn:Hb.
  { apply String.eqb_eq in Hb. contradiction. }
  rewrite Hget, Hjson, Hv. reflexivity.
Qed.

End PublishedManifest.

(** *** The manifest of the client's own test *)

(** The manifest of [TestFetchManifest_SignatureVerification]. *)
Definition testManifest : Manifest :=
  mkManifest 2 1700000000 [] EmptyString "/snapshot.bin" 0 0 [] [] 0 "Signed manifest"
    [] EmptyString.

Definition signedTestManifest : Manifest :=
  SetSignature testManifest
    (Examples.digestSign (Crypto.PrivateKey Examples.exampleKeyPair)
       (list_byte_of_string (Examples.object (Examples.manifestMembers testManifest))))
    (Crypto.KeyPairID Examples.exampleKeyPair).

Definition testJson : JsonCodec := Examples.exampleJson [] [] [signedTestManifest].

Definition testBase : string := "https://cdn.example.com/manifest.json".

Definition testFile : bytes :=
  list_byte_of_string (Examples.objectIndent (Examples.manifestMembers signedTestManifest)).

Definition testServer : Network := Examples.staticServer testBase testFile [].

Definition testClient : Client.Client :=
  Client.mkClient "test/1.0" (Crypto.PublicKey Examples.exampleKeyPair) testBase.

Lemma published_manifest_rejected_witness :
  @publish testJson Examples.exampleEd25519 Examples.exampleKeyPair testManifest
  = Ok (signedTestManifest, testFile)
  /\ @Client.verifyManifestSignature Examples.exampleEd25519 testClient
       signedTestManifest testFile = Err "invalid signature"
  /\ @Client.FetchManifest testJson Examples.exampleEd25519 testServer testClient
     = Err "manifest signature verification failed: invalid signature".
Proof.
  assert (Hpub : @publish testJson Examples.exampleEd25519 Examples.exampleKeyPair
                   testManifest = Ok (signedTestManifest, testFile))
    by (vm_compute; reflexivity).
  split; [exact Hpub|].
  apply (@published_manifest_rejected testJson Examples.exampleEd25519 testServer
           Examples.exampleKeyPair testManifest signedTestManifest
           (list_byte_of_string (Examples.object (Examples.manifestMembers testManifest)))
           testFile testClient).
  - vm_compute; reflexivity.
  - exact Hpub.
  - reflexivity.
  - vm_compute; discriminate.
  - vm_compute; reflexivity.
  - discriminate.
  - vm_compute; reflexivity.
  - vm_compute; reflexivity.
Defined.

(** The same signature is accepted for the bytes that were signed: the
    rejection comes from the bytes the client passes, not from the key. *)
Example signature_valid_for_signed_bytes :
  @Crypto.Verify Examples.exampleEd25519 (Client.publicKey testClient)
    (list_byte_of_string (Examples.object (Examples.manifestMembers testManifest)))
    (ManifestSignature signedTestManifest) = true.
Proof. vm_compute; reflexivity. Qed.

End ClientSpec.

(* ====================================================================== *)
(** ** storage: what the operations of the store do *)
(* ====================================================================== *)

Module StorageOpsSpec.
Import Geofence Storage StorageSpec.

(** The ids in table [fences]. *)
Definition storedIDs (d : DB) : list string := map (fun r => ID (item r)) (fences d).

(** The columns of a fence other than [geometry_json]. *)
Definition columns (f : FenceItem)
  : string * FenceType * Z * Z * Z * Z * Z * string * string * bytes * string :=
  (ID f, Type_ f, StartTS f, EndTS f, Priority f, MaxAltitude f, MaxSpeed f,
   Name f, Description f, Signature f, KeyID f).

Lemma existsb_hasID (id : string) (rows : list FenceRow) :
  existsb (hasID id) rows = true <-> id ∈ map (fun r => ID (item r)) rows.
Proof.
  rewrite existsb_exists, elem_of_map_iff. unfold hasID. split.
  - intros (r & Hr & Heq). apply String.eqb_eq in Heq. exists r.
    split; [now symmetry | now apply list_elem_of_In].
  - intros (r & -> & Hr). exists r. split; [now apply list_elem_of_In | apply String.eqb_refl].
Qed.

Lemma filter_hasID_none (id : string) (rows : list FenceRow) :
  id ∉ map (fun r => ID (item r)) rows -> List.filter (hasID id) rows = [].
Proof.
  intros Hnot. apply bfilter_none. intros r Hr.
  destruct (hasID id r) eqn:Hid; [|reflexivity].
  exfalso. apply Hnot, existsb_hasID, existsb_exists.
  exists r. split; [now apply list_elem_of_In | exact Hid].
Qed.

(** A fresh key is not in the index of a store that satisfies the
    invariant. *)
Lemma nextRowid_not_indexed (d : DB) :
  Inv d -> existsb (fun i => irowid i =? nextRowid d) (fence_index d) = false.
Proof.
  intros (_ & _ & Hsame & _).
  destruct (existsb _ (fence_index d)) eqn:Hex; [|reflexivity].
  apply existsb_exists in Hex as (i & Hi & Heq). apply Z.eqb_eq in Heq.
  exfalso. apply (nextRowid_fresh d). apply Hsame, elem_of_map_iff.
  exists i. split; [now symmetry | now apply list_elem_of_In].
Qed.

Lemma inTransaction_ok {A} (body : TxM A) (w w' : World) (a : A) :
  inTransaction body w = (Ok a, w') ->
  exists fs fs', body (db w) fs = (Ok a, db w', fs').
Proof.
  unfold inTransaction.
  destruct (nextFault (faults w)) as [[] fs1]; [discriminate|].
  destruct (body (db w) fs1) as [[[a1|e] d'] fs2] eqn:Hbody; [|discriminate].
  destruct (nextFault fs2) as [[] fs3]; [discriminate|].
  intros [= <- <-]. now exists fs1, fs2.
Qed.

(** X1: [AddFence] returns without error only for a fence whose geometry
    can be encoded and whose id is not stored yet, and the table is then
    the old one with the fence appended. For a fence whose id is stored
    already, or whose geometry cannot be encoded, it returns an error and
    leaves the store as it was, whatever the outcomes of the database
    calls. *)
Theorem AddFence_outcome (f : FenceItem) (w : World) :
  ((AddFence f w).1 = Ok tt ->
     geometryMarshals (Geometry_ f) = true
     /\ (ID f ∉ storedIDs (db w))
     /\ map item (fences (db (AddFence f w).2)) = (map item (fences (db w)) ++ [f])%list)
  /\ (geometryMarshals (Geometry_ f) = false \/ ID f ∈ storedIDs (db w) ->
        exists e, (AddFence f w).1 = Err e /\ db (AddFence f w).2 = db w).
Proof.
  assert (Hok : (AddFence f w).1 = Ok tt ->
                geometryMarshals (Geometry_ f) = true
                /\ (ID f ∉ storedIDs (db w))
                /\ map item (fences (db (AddFence f w).2))
                   = (map item (fences (db w)) ++ [f])%list).
  { destruct (AddFence f w) as [res w'] eqn:Hrun. cbn [fst snd]. intros ->.
    unfold AddFence in Hrun.
    destruct (geometryMarshals (Geometry_ f)) eqn:Hgeo; cbn [negb] in Hrun;
      [|discriminate].
    apply inTransaction_ok in Hrun as (fs & fs' & Hbody).
    apply txBind_ok in Hbody as (r & d1 & fs1 & H1 & H2).
    apply txExec_ok in H1.
    apply txBind_ok in H2 as (u & d2 & fs2 & H2 & H3).
    apply txCall_ok in H2 as ->.
    apply txExec_ok in H3.
    unfold sqlInsertFence in H1.
    destruct (existsb (hasID (ID f)) (fences (db w))) eqn:Hex; [discriminate|].
    injection H1 as <- <-.
    unfold sqlInsertIndex in H3.
    match type of H3 with
    | context [existsb ?p ?l] => destruct (existsb p l); [discriminate|]
    end.
    injection H3 as <-.
    split; [reflexivity|]. split.
    - intros Hin. apply existsb_hasID in Hin. congruence.
    - cbn [fences setIndex]. now rewrite map_app. }
  split; [exact Hok|].
  intros Hbad. destruct ((AddFence f w).1) as [[]|e] eqn:Hres.
  - exfalso. destruct (Hok eq_refl) as (Hg & Hn & _).
    destruct Hbad as [Hb|Hb]; [congruence | contradiction].
  - exists e. split; [reflexivity|]. now apply (AddFence_atomic f w e).
Qed.

(** The second [AddFence] of an id is turned down and changes nothing. *)
Lemma AddFence_outcome_witness :
  let f := CheckSpec.boxFence "zone-a" FenceTypeAltitudeLimit 100 in
  let w := (AddFence f (mkWorld emptyDB [] 1000)).2 in
  exists e, (AddFence f w).1 = Err e /\ db (AddFence f w).2 = db w.
Proof.
  intros f w.
  apply (proj2 (AddFence_outcome f w)).
  right. vm_compute. apply list_elem_of_In. now left.
Defined.

(** X2: Reading back what was written: after a successful [AddFence] or
    [UpdateFence] of a fence, [GetFence] with its id returns a fence with
    the same columns, when no database call fails. *)
Theorem GetFence_after_write (update : bool) (f : FenceItem) (w : World) :
  faults w = [] ->
  ((if update then UpdateFence f else AddFence f) w).1 = Ok tt ->
  exists g,
    (GetFence (ID f) ((if update then UpdateFence f else AddFence f) w).2).1 = Ok g
    /\ columns g = columns f.
Proof.
  intros Hfs. destruct update.
  - unfold UpdateFence. destruct (negb (geometryMarshals (Geometry_ f))); [discriminate|].
    unfold inTransaction, txBind, txExec, txCall. rewrite Hfs. simpl.
    destruct (len (List.filter (hasID (ID f)) (fences (db w))) =? 0) eqn:Hrows;
      [discriminate|].
    unfold txExec, sqlUpdateIndex. simpl.
    intros _. exists f. split; [|reflexivity].
    assert (Hfound : exists r0 rest,
               List.filter (hasID (ID f))
                 (map (fun r => if hasID (ID f) r then mkFenceRow (rowid r) f else r)
                    (fences (db w))) = mkFenceRow (rowid r0) f :: rest).
    { destruct (List.filter (hasID (ID f)) (fences (db w))) as [|r0 rest0] eqn:Hsel;
        [discriminate|].
      clear Hrows. revert r0 rest0 Hsel.
      induction (fences (db w)) as [|r rows IH]; intros r0 rest0 Hsel; [discriminate|].
      simpl in Hsel |- *. destruct (hasID (ID f) r) eqn:Hid.
      - injection Hsel as <- _. unfold hasID at 1. simpl. rewrite String.eqb_refl.
        now eexists _, _.
      - rewrite Hid. now apply (IH r0 rest0). }
    destruct Hfound as (r0 & rest & Hsel).
    unfold GetFence, bind, dbRead. simpl.
    destruct (sqlSelectRowid (ID f) _); simpl; rewrite Hsel; reflexivity.
  - unfold AddFence. destruct (negb (geometryMarshals (Geometry_ f))); [discriminate|].
    unfold inTransaction, txBind, txExec, txCall. rewrite Hfs. simpl.
    unfold sqlInsertFence.
    destruct (existsb (hasID (ID f)) (fences (db w))) eqn:Hex; [discriminate|].
    unfold sqlInsertIndex. simpl.
    destruct (existsb _ (fence_index (db w))); [discriminate|]. simpl.
    intros _. exists f. split; [|reflexivity].
    unfold GetFence, bind, dbRead. simpl.
    rewrite List.filter_app, filter_hasID_none.
    2:{ intros Hin. apply existsb_hasID in Hin. congruence. }
    simpl. unfold hasID at 1. simpl. rewrite String.eqb_refl. reflexivity.
Qed.

Lemma GetFence_after_write_witness :
  let f := CheckSpec.boxFence "zone-a" FenceTypeAltitudeLimit 100 in
  let w := mkWorld emptyDB [] 1000 in
  exists g, (GetFence "zone-a" (AddFence f w).2).1 = Ok g /\ columns g = columns f.
Proof.
  intros f w.
  apply (GetFence_after_write false f w eq_refl). vm_compute. reflexivity.
Defined.

(** X3: After a successful [DeleteFence] the id is gone: [GetFence] reports
    that the fence is not found. *)
Theorem GetFence_after_delete (id : string) (w : World) :
  faults w = [] ->
  (DeleteFence id w).1 = Ok tt ->
  (GetFence id (DeleteFence id w).2).1 = Err ("fence not found: " ++ id)
  /\ id ∉ storedIDs (db (DeleteFence id w).2).
Proof.
  intros Hfs. unfold DeleteFence, inTransaction, txBind, txCall. rewrite Hfs. simpl.
  destruct (sqlSelectRowid id (db w)) as [rowID|]; [|discriminate].
  unfold txBind, txExec, txCall. simpl.
  destruct (len (List.filter (hasID id) (fences (db w))) =? 0); [discriminate|].
  unfold txExec. simpl. intros _.
  assert (Hgone : id ∉ map (fun r => ID (item r))
                         (List.filter (fun r => negb (hasID id r)) (fences (db w)))).
  { intros Hin. apply elem_of_map_iff in Hin as (r & Heq & Hr).
    apply elem_of_bfilter in Hr as [_ Hnot]. unfold hasID in Hnot.
    rewrite <- Heq, String.eqb_refl in Hnot. discriminate. }
  split; [|exact Hgone].
  unfold GetFence, bind, dbRead. simpl. now rewrite (filter_hasID_none _ _ Hgone).
Qed.

Lemma GetFence_after_delete_witness :
  let w := (AddFence (CheckSpec.boxFence "zone-a" FenceTypeAltitudeLimit 100)
              (mkWorld emptyDB [] 1000)).2 in
  (GetFence "zone-a" (DeleteFence "zone-a" w).2).1 = Err "fence not found: zone-a"
  /\ "zone-a" ∉ storedIDs (db (DeleteFence "zone-a" w).2).
Proof.
  intros w. apply (GetFence_after_delete "zone-a" w); vm_compute; reflexivity.
Defined.

(** X4: An operation that reports an error has changed nothing in the
    store, whatever the database call that failed. *)
Theorem mutation_failure_changes_nothing (m : Mutation) (w : World) (e : string) :
  (mutate m w).1 = Err e -> db (mutate m w).2 = db w.
Proof.
  destruct m; simpl;
    [apply AddFence_atomic | apply UpdateFence_atomic | apply DeleteFence_atomic].
Qed.

(** The insertion into the index fails (third database call): the row
    already inserted into [fences] is rolled back with it. *)
Lemma mutation_failure_changes_nothing_witness :
  let w := mkWorld emptyDB [false; false; false; true] 1000 in
  let m := MAdd (CheckSpec.boxFence "zone-a" FenceTypeAltitudeLimit 100) in
  (mutate m w).1 = Err "failed to insert into rtree: database error"
  /\ db (mutate m w).2 = db w.
Proof.
  intros w m.
  assert (He : (mutate m w).1 = Err "failed to insert into rtree: database error")
    by (vm_compute; reflexivity).
  split; [exact He|].
  exact (mutation_failure_changes_nothing m w _ He).
Defined.

(** X5: From the empty store, after any sequence of [AddFence], [UpdateFence]
    and [DeleteFence] calls and under every schedule of database failures,
    no two rows of table [fences] carry the same fence id. *)
Theorem store_ids_unique (ms : list Mutation) (fs : list bool) (now : Z) :
  NoDup (storedIDs (db (runAll ms (mkWorld emptyDB fs now)))).
Proof.
  destruct (runAll_Inv ms (mkWorld emptyDB fs now) Inv_empty) as (_ & _ & _ & Hids).
  exact Hids.
Qed.

(** *** The order of [ListFences] *)

Lemma insertByPriority_Permutation (f : FenceItem) (l : list FenceItem) :
  Permutation (insertByPriority f l) (f :: l).
Proof.
  induction l as [|g l IH]; simpl; [reflexivity|].
  destruct (Priority f <? Priority g); [|reflexivity].
  rewrite IH. apply perm_swap.
Qed.

Lemma orderByPriorityDesc_Permutation (l : list FenceItem) :
  Permutation (orderByPriorityDesc l) l.
Proof.
  unfold orderByPriorityDesc. induction l as [|f l IH]; simpl; [reflexivity|].
  rewrite insertByPriority_Permutation. now constructor.
Qed.

(** Priorities never increase along the list. *)
Definition byPriorityDesc : list FenceItem -> Prop :=
  Sorted (fun a b => Priority b <= Priority a).

Lemma insertByPriority_Sorted (f : FenceItem) (l : list FenceItem) :
  byPriorityDesc l -> byPriorityDesc (insertByPriority f l).
Proof.
  unfold byPriorityDesc. induction l as [|g l IH]; simpl; intros Hs.
  - repeat constructor.
  - destruct (Z.ltb_spec (Priority f) (Priority g)) as [Hlt|Hge].
    + apply Sorted_inv in Hs as [Hs Hhd]. constructor; [now apply IH|].
      destruct l as [|h l]; simpl.
      * constructor. lia.
      * destruct (Priority f <? Priority h); constructor; [|lia].
        now apply HdRel_inv in Hhd.
    + constructor; [exact Hs|]. constructor. lia.
Qed.

Lemma orderByPriorityDesc_Sorted (l : list FenceItem) :
  byPriorityDesc (orderByPriorityDesc l).
Proof.
  unfold orderByPriorityDesc. induction l as [|f l IH]; simpl; [constructor|].
  now apply insertByPriority_Sorted.
Qed.

(** X6: Whenever [ListFences] returns a list, it holds every stored fence
    once (it is a permutation of the table), priorities never increase along
    it, and the store is as before. *)
Theorem ListFences_sorted (w w' : World) (l : list FenceItem) :
  ListFences w = (Ok l, w') ->
  Permutation l (map item (fences (db w)))
  /\ byPriorityDesc l
  /\ db w' = db w.
Proof.
  unfold ListFences, bind, dbRead, ret.
  destruct (nextFault (faults w)) as [[] fs1]; [discriminate|]. simpl.
  destruct (nextFault fs1) as [[] fs2]; [discriminate|].
  intros [= <- <-]. simpl.
  split; [apply orderByPriorityDesc_Permutation|].
  split; [apply orderByPriorityDesc_Sorted | reflexivity].
Qed.

Lemma ListFences_sorted_witness :
  Permutation [CheckSpec.noFlyB; CheckSpec.advisoryA]
    (map item (fences (db CheckSpec.worldBA)))
  /\ byPriorityDesc [CheckSpec.noFlyB; CheckSpec.advisoryA]
  /\ db CheckSpec.worldBA = db CheckSpec.worldBA.
Proof.
  apply (ListFences_sorted CheckSpec.worldBA CheckSpec.worldBA).
  vm_compute. reflexivity.
Defined.

(** *** The ids after a write *)

(** A successful [UpdateFence] found the id in the table and leaves the
    ids as they were. *)
Lemma UpdateFence_ok_ids (f : FenceItem) (w w' : World) :
  UpdateFence f w = (Ok tt, w') ->
  storedIDs (db w') = storedIDs (db w) /\ ID f ∈ storedIDs (db w).
Proof.
  unfold UpdateFence. destruct (negb (geometryMarshals (Geometry_ f))); [discriminate|].
  intros Hrun. apply inTransaction_ok in Hrun as (fs & fs' & Hbody).
  apply txBind_ok in Hbody as (n & d1 & fs1 & H1 & H2).
  apply txExec_ok in H1.
  apply txBind_ok in H2 as (u & d2 & fs2 & H2 & H3).
  apply txCall_ok in H2 as ->.
  destruct (Z.eqb_spec n 0) as [|Hn]; [discriminate|].
  apply txExec_ok in H3.
  unfold sqlUpdateFence in H1. injection H1 as <- <-.
  assert (Hids : storedIDs (db w') = storedIDs (db w)).
  { unfold sqlUpdateIndex in H3.
    assert (Hf : fences (db w')
                 = map (fun r => if hasID (ID f) r then mkFenceRow (rowid r) f else r)
                     (fences (db w))).
    { destruct (sqlSelectRowid _ _); injection H3 as <-; reflexivity. }
    unfold storedIDs. rewrite Hf, map_map. apply map_ext. intros r. unfold hasID.
    destruct (String.eqb_spec (ID (item r)) (ID f)) as [Heq|]; [|reflexivity].
    simpl. now rewrite Heq. }
  split; [exact Hids|].
  destruct (List.filter (hasID (ID f)) (fences (db w))) as [|r rest] eqn:Hsel;
    [contradiction|].
  assert (Hr : r ∈ List.filter (hasID (ID f)) (fences (db w))) by (rewrite Hsel; now left).
  apply elem_of_bfilter in Hr as [Hr Hid]. apply elem_of_map_iff. exists r.
  split; [|exact Hr]. unfold hasID in Hid. apply String.eqb_eq in Hid. now symmetry.
Qed.

(** A successful [AddFence] appends the id. *)
Lemma AddFence_ok_ids (f : FenceItem) (w w' : World) :
  AddFence f w = (Ok tt, w') -> storedIDs (db w') = storedIDs (db w) ++ [ID f].
Proof.
  unfold AddFence. destruct (negb (geometryMarshals (Geometry_ f))); [discriminate|].
  intros Hrun. apply inTransaction_ok in Hrun as (fs & fs' & Hbody).
  apply txBind_ok in Hbody as (r & d1 & fs1 & H1 & H2).
  apply txExec_ok in H1.
  apply txBind_ok in H2 as (u & d2 & fs2 & H2 & H3).
  apply txCall_ok in H2 as ->.
  apply txExec_ok in H3.
  unfold sqlInsertFence in H1. destruct (existsb _ _); [discriminate|].
  injection H1 as <- <-.
  unfold sqlInsertIndex in H3. destruct (existsb _ _); [discriminate|].
  injection H3 as <-. unfold storedIDs. simpl. now rewrite map_app.
Qed.

End StorageOpsSpec.

(* ====================================================================== *)
(** ** sync: what a synchronization guarantees *)
(* ====================================================================== *)

Module SyncOpsSpec.
Import Geofence Storage Syncer.

Section WithLibraries.
Context `{JsonCodec} `{Binarydiff.DeltaCodec} `{Ed25519} `{Network}.

(** X7: [Sync] never moves the syncer to a lower version; a result that is
    up to date leaves the syncer and the world as they were, and so does
    every error for the syncer. *)
Theorem Sync_never_goes_back (s : Syncer) (w : World) :
  let '(res, s', w') := Sync s w in
  currentVer s <= currentVer s'
  /\ (UpToDate res = true -> s' = s /\ w' = w)
  /\ (Error res <> None -> s' = s).
Proof.
  destruct (Sync s w) as [[res s'] w'] eqn:Hrun.
  split; [|split].
  - destruct (Error res) as [e|] eqn:He.
    { rewrite (SyncSpec.Sync_error_currentVer _ _ _ _ _ _ Hrun He). lia. }
    destruct (UpToDate res) eqn:Hup.
    { destruct (SyncSpec.Sync_UpToDate _ _ _ _ _ Hrun Hup) as [-> _]. lia. }
    destruct (SyncSpec.Sync_applied_version _ _ _ _ _ Hrun He Hup)
      as (manifest & _ & Hlt & _ & _ & ->). lia.
  - intros Hup. exact (SyncSpec.Sync_UpToDate _ _ _ _ _ Hrun Hup).
  - intros He. destruct (Error res) as [e|] eqn:Herr; [|contradiction].
    exact (SyncSpec.Sync_error_currentVer _ _ _ _ _ _ Hrun Herr).
Qed.

(** X8: A sync that returns without error and not as up to date has fetched
    a manifest of a higher version and stored it: afterwards the store holds
    that manifest and its version, the syncer is at that version and has
    noted the time, and the result names it. *)
Theorem Sync_applied (s s' : Syncer) (w w' : World) (res : SyncResult) :
  Sync s w = (res, s', w') ->
  Error res = None -> UpToDate res = false ->
  exists manifest,
    Client.FetchManifest (client s) = Ok manifest
    /\ currentVer s < Version manifest
    /\ CurrentVer res = Version manifest
    /\ metadata_version (db w') = Some (Version manifest)
    /\ metadata_manifest (db w') = Some manifest
    /\ currentVer s' = Version manifest
    /\ lastSyncTime s' = Some (clock w').
Proof.
  unfold Sync. destruct (Client.FetchManifest (client s)) as [manifest|e].
  2:{ intros [= <- _ _]. discriminate. }
  destruct (Z.leb_spec (Version manifest) (currentVer s)) as [Hle|Hlt].
  { intros [= <- _ _]. discriminate. }
  set (useDelta := _ && _).
  destruct ((if useDelta then applyDelta s manifest else applySnapshot s manifest) w)
    as [[[]|e] w1] eqn:Happly.
  2:{ intros [= <- _ _]. discriminate. }
  intros [= <- <- <-] _ _. exists manifest.
  assert (Hstore : exists fs w0, updateStorage fs manifest w0 = (Ok tt, w1)).
  { destruct useDelta;
      [eapply SyncSpec.applyDelta_ok | eapply SyncSpec.applySnapshot_ok]; exact Happly. }
  destruct Hstore as (fs & w0 & Hstore).
  apply SyncSpec.updateStorage_ok in Hstore as [Hv Hm].
  simpl. now repeat split.
Qed.

(** X9: A snapshot whose SHA-256 digest is not the one named in the manifest
    never reaches the store: the sync reports the failed verification and
    leaves the syncer and the world untouched. *)
Theorem Sync_rejects_tampered_snapshot
  (s : Syncer) (w : World) (manifest : Manifest) (data : bytes) :
  Client.FetchManifest (client s) = Ok manifest ->
  currentVer s < Version manifest ->
  Version manifest - currentVer s <> 1 \/ DeltaURL manifest = EmptyString ->
  Client.FetchSnapshot (client s) (SnapshotURL manifest) = Ok data ->
  SnapshotHash manifest <> [] ->
  Crypto.sha256 data <> SnapshotHash manifest ->
  Sync s w
  = (mkSyncResult false (currentVer s) (Version manifest)
       (Some "failed to apply update: snapshot hash verification failed"), s, w).
Proof.
  intros Hfetch Hlt Hpath Hsnap Hhash Hne. unfold Sync. rewrite Hfetch.
  destruct (Z.leb_spec (Version manifest) (currentVer s)) as [Hle|_]; [lia|].
  assert (Hsel : (Version manifest - currentVer s =? 1)
                 && negb (String.eqb (DeltaURL manifest) EmptyString) = false).
  { destruct Hpath as [Hd| ->]; [|now rewrite andb_false_r].
    apply Z.eqb_neq in Hd. now rewrite Hd. }
  rewrite Hsel. unfold applySnapshot, bind, wrapErr, liftResult. rewrite Hsnap.
  assert (Hlen : (0 <? len (SnapshotHash manifest)) = true).
  { apply Z.ltb_lt. destruct (SnapshotHash manifest); [contradiction|].
    unfold len. simpl length. lia. }
  rewrite Hlen. unfold Crypto.VerifyHash. rewrite bool_decide_eq_false_2 by exact Hne.
  reflexivity.
Qed.

(** X10: On the delta path, a delta file whose digest is not the one
    named in the manifest is turned down before the store is read or
    written. *)
Theorem Sync_rejects_tampered_delta
  (s : Syncer) (w : World) (manifest : Manifest) (data : bytes) :
  Client.FetchManifest (client s) = Ok manifest ->
  Version manifest = currentVer s + 1 ->
  DeltaURL manifest <> EmptyString ->
  Client.FetchDelta (client s) (DeltaURL manifest) = Ok data ->
  DeltaHash manifest <> [] ->
  Crypto.sha256 data <> DeltaHash manifest ->
  Sync s w
  = (mkSyncResult false (currentVer s) (Version manifest)
       (Some "failed to apply update: delta hash verification failed"), s, w).
Proof.
  intros Hfetch Hver Hurl Hdelta Hhash Hne. unfold Sync. rewrite Hfetch.
  destruct (Z.leb_spec (Version manifest) (currentVer s)) as [Hle|_]; [lia|].
  assert (Hsel : (Version manifest - currentVer s =? 1)
                 && negb (String.eqb (DeltaURL manifest) EmptyString) = true).
  { apply andb_true_intro. split; [apply Z.eqb_eq; lia|].
    apply negb_true_iff, String.eqb_neq. exact Hurl. }
  rewrite Hsel. unfold applyDelta, bind, wrapErr, liftResult. rewrite Hdelta.
  assert (Hlen : (0 <? len (DeltaHash manifest)) = true).
  { apply Z.ltb_lt. destruct (DeltaHash manifest); [contradiction|].
    unfold len. simpl length. lia. }
  rewrite Hlen. unfold Crypto.VerifyHash. rewrite bool_decide_eq_false_2 by exact Hne.
  reflexivity.
Qed.

End WithLibraries.

(** *** Runs *)

(** The remote of [SyncSpec] serving a snapshot with one more byte. *)
Definition tamperedSnapshot : bytes := SyncSpec.snapshotBytes ++ [x00].

Definition tamperedRemote : Network :=
  Examples.staticServer SyncSpec.base SyncSpec.manifestBytes
    [((SyncSpec.base ++ "/v3.bin")%string, tamperedSnapshot)].

Lemma Sync_rejects_tampered_snapshot_witness :
  @Sync SyncSpec.remoteJson Examples.noDeltas Examples.exampleEd25519 tamperedRemote
    SyncSpec.syncerV1 SyncSpec.worldV1
  = (mkSyncResult false 1 3
       (Some "failed to apply update: snapshot hash verification failed"),
     SyncSpec.syncerV1, SyncSpec.worldV1).
Proof.
  apply (@Sync_rejects_tampered_snapshot SyncSpec.remoteJson Examples.noDeltas
           Examples.exampleEd25519 tamperedRemote SyncSpec.syncerV1 SyncSpec.worldV1
           SyncSpec.manifest3 tamperedSnapshot).
  - vm_compute; reflexivity.
  - vm_compute; reflexivity.
  - right; reflexivity.
  - vm_compute; reflexivity.
  - vm_compute; discriminate.
  - vm_compute; discriminate.
Defined.

(** A manifest of version 2 that names a delta and its digest, and a
    remote that serves other bytes under that name. *)
Definition deltaBytes : bytes := list_byte_of_string "delta of version 2".

Definition manifest2 : Manifest :=
  mkManifest 2 1700000000 [] "/patches/v1_to_v2.bin" "/v2.bin" (len deltaBytes) 0
    (Crypto.sha256 deltaBytes) [] 0 "Version 2 - 1 fences" [] EmptyString.

Definition deltaJson : JsonCodec := Examples.exampleJson [] [] [manifest2].

Definition tamperedDeltaRemote : Network :=
  Examples.staticServer SyncSpec.base
    (match @json_MarshalIndent_Manifest deltaJson manifest2 with
     | Ok data => data
     | Err _ => []
     end)
    [((SyncSpec.base ++ "/patches/v1_to_v2.bin")%string, deltaBytes ++ [x00])].

Lemma Sync_rejects_tampered_delta_witness :
  @Sync deltaJson Examples.noDeltas Examples.exampleEd25519 tamperedDeltaRemote
    SyncSpec.syncerV1 SyncSpec.worldV1
  = (mkSyncResult false 1 2
       (Some "failed to apply update: delta hash verification failed"),
     SyncSpec.syncerV1, SyncSpec.worldV1).
Proof.
  apply (@Sync_rejects_tampered_delta deltaJson Examples.noDeltas
           Examples.exampleEd25519 tamperedDeltaRemote SyncSpec.syncerV1 SyncSpec.worldV1
           manifest2 (deltaBytes ++ [x00])).
  - vm_compute; reflexivity.
  - reflexivity.
  - discriminate.
  - vm_compute; reflexivity.
  - vm_compute; discriminate.
  - vm_compute; discriminate.
Defined.

(** The snapshot sync of [SyncSpec], from version 1 to version 3. *)
Lemma Sync_applied_witness :
  exists manifest,
    @Client.FetchManifest SyncSpec.remoteJson Examples.exampleEd25519 SyncSpec.remote
      SyncSpec.drone = Ok manifest
    /\ 1 < Version manifest
    /\ CurrentVer (SyncSpec.runSync SyncSpec.syncerV1 SyncSpec.worldV1).1.1
       = Version manifest
    /\ metadata_version (db (SyncSpec.runSync SyncSpec.syncerV1 SyncSpec.worldV1).2)
       = Some (Version manifest)
    /\ metadata_manifest (db (SyncSpec.runSync SyncSpec.syncerV1 SyncSpec.worldV1).2)
       = Some manifest
    /\ currentVer (SyncSpec.runSync SyncSpec.syncerV1 SyncSpec.worldV1).1.2
       = Version manifest
    /\ lastSyncTime (SyncSpec.runSync SyncSpec.syncerV1 SyncSpec.worldV1).1.2
       = Some (clock (SyncSpec.runSync SyncSpec.syncerV1 SyncSpec.worldV1).2).
Proof.
  apply (@Sync_applied SyncSpec.remoteJson Examples.noDeltas
           Examples.exampleEd25519 SyncSpec.remote SyncSpec.syncerV1
           (SyncSpec.runSync SyncSpec.syncerV1 SyncSpec.worldV1).1.2
           SyncSpec.worldV1
           (SyncSpec.runSync SyncSpec.syncerV1 SyncSpec.worldV1).2
           (SyncSpec.runSync SyncSpec.syncerV1 SyncSpec.worldV1).1.1).
  - vm_compute; reflexivity.
  - vm_compute; reflexivity.
  - vm_compute; reflexivity.
Defined.

(** *** The ids in the store after an update *)

Lemma storeFences_ids (fences : list FenceItem) :
  forall w w',
    storeFences fences w = (Ok tt, w') ->
    forall id, id ∈ StorageOpsSpec.storedIDs (db w')
               <-> id ∈ StorageOpsSpec.storedIDs (db w) \/ id ∈ ID <$> fences.
Proof.
  induction fences as [|f fences IH]; intros w w'; simpl.
  - intros [= <-] id. rewrite elem_of_nil. tauto.
  - destruct (UpdateFence f w) as [[[]|e] w1] eqn:Hup.
    + intros Hrest id. rewrite (IH _ _ Hrest id), elem_of_cons.
      apply StorageOpsSpec.UpdateFence_ok_ids in Hup as [-> Hin].
      split; [tauto|]. intros [?|[->|?]]; tauto.
    + assert (Hdb : db w1 = db w).
      { pose proof (StorageSpec.UpdateFence_atomic f w e) as Hat.
        rewrite Hup in Hat. now apply Hat. }
      destruct (AddFence f w1) as [[[]|e2] w2] eqn:Hadd; [|discriminate].
      intros Hrest id. rewrite (IH _ _ Hrest id), elem_of_cons.
      apply StorageOpsSpec.AddFence_ok_ids in Hadd. rewrite Hadd, Hdb, elem_of_app.
      rewrite list_elem_of_singleton. tauto.
Qed.

Section WithLibraries.
Context `{JsonCodec} `{Binarydiff.DeltaCodec} `{Ed25519} `{Network}.

(** X11: When [updateStorage] returns without error, the store holds the ids
    it held before together with the ids of the fences given: every fence
    of the update is stored, and no fence that was there is dropped. *)
Theorem updateStorage_ids (newFences : list FenceItem) (manifest : Manifest)
  (w w' : World) :
  updateStorage newFences manifest w = (Ok tt, w') ->
  forall id, id ∈ StorageOpsSpec.storedIDs (db w')
             <-> id ∈ StorageOpsSpec.storedIDs (db w) \/ id ∈ ID <$> newFences.
Proof.
  unfold updateStorage. intros Hrun.
  apply SyncSpec.bind_ok in Hrun as ([] & w1 & Hbegin & Hrun).
  apply SyncSpec.bind_ok in Hrun as ([] & w2 & Hstore & Hrun).
  apply SyncSpec.bind_ok in Hrun as ([] & w3 & Hman & Hrun).
  apply SyncSpec.bind_ok in Hrun as ([] & w4 & Hver & Hrun).
  apply SyncSpec.wrapErr_ok in Hman. apply SyncSpec.wrapErr_ok in Hver.
  apply SyncSpec.wrapErr_ok in Hrun.
  apply SyncSpec.dbRead_db in Hrun. apply SyncSpec.dbRead_db in Hbegin.
  apply SyncSpec.SetVersion_ok in Hver as (_ & _ & Hf4).
  assert (Hf3 : fences (db w3) = fences (db w2)).
  { unfold SetManifest, dbExec in Hman.
    destruct (nextFault (faults w2)) as [[] fs]; [discriminate|]. now injection Hman as <-. }
  intros id. unfold StorageOpsSpec.storedIDs at 1.
  rewrite Hrun, Hf4, Hf3.
  rewrite (storeFences_ids _ _ _ Hstore id). unfold StorageOpsSpec.storedIDs.
  now rewrite Hbegin.
Qed.

End WithLibraries.

Lemma updateStorage_ids_witness :
  ID SyncSpec.zoneB
    ∈ StorageOpsSpec.storedIDs
        (db (updateStorage [SyncSpec.zoneB] SyncSpec.manifest3 SyncSpec.worldV1).2)
  <-> ID SyncSpec.zoneB ∈ StorageOpsSpec.storedIDs (db SyncSpec.worldV1)
      \/ ID SyncSpec.zoneB ∈ ID <$> [SyncSpec.zoneB].
Proof.
  apply (updateStorage_ids [SyncSpec.zoneB] SyncSpec.manifest3 SyncSpec.worldV1).
  vm_compute. reflexivity.
Defined.

End SyncOpsSpec.

(* ====================================================================== *)
(** ** crypto, config: keys and constructors *)
(* ====================================================================== *)

Module KeysSpec.
Import Crypto CryptoKeys.

(** *** Hexadecimal text *)

Lemma hex_digits_of_byte (x : byte) :
  Hex.fromHexChar (hexdigit (N.shiftr (Byte.to_N x) 4)) = Some (N.shiftr (Byte.to_N x) 4)
  /\ Hex.fromHexChar (hexdigit (N.land (Byte.to_N x) 15)) = Some (N.land (Byte.to_N x) 15)
  /\ Hex.byte_of_N (16 * N.shiftr (Byte.to_N x) 4 + N.land (Byte.to_N x) 15) = x.
Proof. destruct x; vm_compute; repeat split. Qed.

(** [hex.DecodeString] undoes [hex.EncodeToString]. *)
Lemma DecodeString_EncodeToString (b : bytes) :
  Hex.DecodeString (hex_EncodeToString b) = Ok b.
Proof.
  induction b as [|x b IH]; [reflexivity|].
  destruct (hex_digits_of_byte x) as (Hhi & Hlo & Hx).
  cbn [hex_EncodeToString Hex.DecodeString].
  rewrite Hhi, Hlo, IH, Hx. reflexivity.
Qed.

(** X12: A key survives the trip through its hexadecimal text exactly when it
    has the size of its kind: 32 bytes for a public key, 64 for a private
    key. Keys of another size are encoded but turned down on the way back. *)
Theorem key_hex_roundtrip (key : bytes) :
  (UnmarshalPublicKeyHex (MarshalPublicKeyHex key) = Ok key <-> len key = 32)
  /\ (UnmarshalPrivateKeyHex (MarshalPrivateKeyHex key) = Ok key <-> len key = 64).
Proof.
  unfold UnmarshalPublicKeyHex, UnmarshalPrivateKeyHex, MarshalPublicKeyHex,
    MarshalPrivateKeyHex, PublicKeySize, PrivateKeySize.
  rewrite DecodeString_EncodeToString.
  split.
  - destruct (Z.eqb_spec (len key) 32) as [Heq|Hne]; simpl; split; try done.
  - destruct (Z.eqb_spec (len key) 64) as [Heq|Hne]; simpl; split; try done.
Qed.

(** *** Key pairs *)

Lemma firstMismatch_None (derived publicKey : bytes) :
  forall i, length derived = length publicKey ->
    (firstMismatch i derived publicKey = None <-> derived = publicKey).
Proof.
  revert publicKey. induction derived as [|x derived IH]; intros [|y publicKey] i Hlen;
    try discriminate; simpl.
  - split; reflexivity.
  - destruct (decide (x = y)) as [->|Hne].
    + rewrite IH by (simpl in Hlen; lia). split; [now intros -> | now intros [= ->]].
    + split; [discriminate | intros [= ? _]; contradiction].
Qed.

(** X13: [DeriveKeyPair] accepts exactly a public key of 32 bytes with a
    private key of 64 bytes whose second half is that public key, and
    returns them with the key id of the public key. *)
Theorem DeriveKeyPair_spec (publicKey privateKey : bytes) (keyPair : KeyPair) :
  DeriveKeyPair publicKey privateKey = Ok keyPair
  <-> len publicKey = 32 /\ len privateKey = 64 /\ drop 32 privateKey = publicKey
      /\ keyPair = mkKeyPair publicKey privateKey (computeKeyID publicKey).
Proof.
  unfold DeriveKeyPair, PublicKeySize, PrivateKeySize, ed25519_Public.
  destruct (Z.eqb_spec (len publicKey) 32) as [Hpub|Hpub]; simpl.
  2:{ split; [discriminate | now intros [? _]]. }
  destruct (Z.eqb_spec (len privateKey) 64) as [Hpriv|Hpriv]; simpl.
  2:{ split; [discriminate | now intros (_ & ? & _)]. }
  assert (Hlen : length (drop 32 privateKey) = length publicKey).
  { rewrite length_drop. unfold len in *. lia. }
  assert (Hl : len (drop 32 privateKey) = len publicKey) by (unfold len; now rewrite Hlen).
  rewrite Hl, Z.eqb_refl. simpl.
  pose proof (firstMismatch_None _ _ 0 Hlen) as Hmis.
  destruct (firstMismatch 0 (drop 32 privateKey) publicKey) as [i|].
  - split; [discriminate|]. intros (_ & _ & Heq & _).
    apply Hmis in Heq. discriminate.
  - split.
    + intros [= <-]. split; [exact Hpub|]. split; [exact Hpriv|].
      split; [now apply Hmis | reflexivity].
    + now intros (_ & _ & _ & ->).
Qed.

End KeysSpec.

Module SetupSpec.
Import Config Setup.

Lemma isEmpty_spec (s : string) : isEmpty s = true <-> s = EmptyString.
Proof. unfold isEmpty. apply String.eqb_eq. Qed.

(** X14: A configuration that [Validate] accepts comes back with the given
    fields untouched and no default left open, and validating the result
    again returns it unchanged. *)
Theorem ClientConfig_Validate_ok (c c' : ClientConfig) :
  ClientConfig_Validate c = Ok c' ->
  (ManifestURL c' = ManifestURL c /\ ManifestURL c <> EmptyString)
  /\ (PublicKeyHex c' = PublicKeyHex c
      /\ (PublicKeyHex c = EmptyString -> InsecureSkipVerify c = true))
  /\ (StorePath c' = StorePath c /\ StorePath c <> EmptyString)
  /\ InsecureSkipVerify c' = InsecureSkipVerify c
  /\ SyncInterval c' = (if SyncInterval c =? 0 then 60000000000 else SyncInterval c)
  /\ HTTPTimeout c' = (if HTTPTimeout c =? 0 then 30000000000 else HTTPTimeout c)
  /\ MaxDownloadSize c' = (if MaxDownloadSize c =? 0 then 104857600 else MaxDownloadSize c)
  /\ (SyncInterval c' <> 0 /\ HTTPTimeout c' <> 0 /\ MaxDownloadSize c' <> 0
      /\ UserAgent c' <> EmptyString)
  /\ ClientConfig_Validate c' = Ok c'.
Proof.
  unfold ClientConfig_Validate.
  destruct (isEmpty (ManifestURL c)) eqn:Hurl; [discriminate|].
  destruct (isEmpty (PublicKeyHex c) && negb (InsecureSkipVerify c)) eqn:Hkey; [discriminate|].
  destruct (isEmpty (StorePath c)) eqn:Hstore; [discriminate|].
  intros [= <-]. simpl. rewrite Hurl, Hkey, Hstore.
  assert (Hne : forall s, isEmpty s = false -> s <> EmptyString).
  { intros s Hs Heq. apply isEmpty_spec in Heq. congruence. }
  split; [split; [reflexivity | now apply Hne]|].
  split.
  { split; [reflexivity|]. intros Hk. apply isEmpty_spec in Hk. rewrite Hk in Hkey.
    now destruct (InsecureSkipVerify c). }
  split; [split; [reflexivity | now apply Hne]|].
  split; [reflexivity|]. split; [reflexivity|]. split; [reflexivity|]. split; [reflexivity|].
  assert (Hs : (if SyncInterval c =? 0 then DefaultSyncInterval else SyncInterval c) <> 0).
  { destruct (Z.eqb_spec (SyncInterval c) 0); [discriminate | assumption]. }
  assert (Hh : (if HTTPTimeout c =? 0 then DefaultHTTPTimeout else HTTPTimeout c) <> 0).
  { destruct (Z.eqb_spec (HTTPTimeout c) 0); [discriminate | assumption]. }
  assert (Hm : (if MaxDownloadSize c =? 0 then DefaultMaxDownloadSize else MaxDownloadSize c)
               <> 0).
  { destruct (Z.eqb_spec (MaxDownloadSize c) 0); [discriminate | assumption]. }
  assert (Hu : isEmpty (if isEmpty (UserAgent c) then "GUL-Client/1.0" else UserAgent c)
               = false).
  { destruct (isEmpty (UserAgent c)) eqn:Hua; [reflexivity | exact Hua]. }
  split; [split; [exact Hs|]; split; [exact Hh|]; split; [exact Hm | now apply Hne]|].
  apply Z.eqb_neq in Hs, Hh, Hm. rewrite Hs, Hh, Hm, Hu. reflexivity.
Qed.

Definition insecureConfig : ClientConfig :=
  mkClientConfig "https://cdn.example.com/manifest.json" EmptyString "./client.db" 0 0 0
    EmptyString true.

Lemma ClientConfig_Validate_ok_witness :
  ClientConfig_Validate insecureConfig
  = Ok (mkClientConfig "https://cdn.example.com/manifest.json" EmptyString "./client.db"
          60000000000 30000000000 104857600 "GUL-Client/1.0" true)
  /\ ClientConfig_Validate
       (mkClientConfig "https://cdn.example.com/manifest.json" EmptyString "./client.db"
          60000000000 30000000000 104857600 "GUL-Client/1.0" true)
     = Ok (mkClientConfig "https://cdn.example.com/manifest.json" EmptyString "./client.db"
             60000000000 30000000000 104857600 "GUL-Client/1.0" true).
Proof.
  assert (Hv : ClientConfig_Validate insecureConfig
               = Ok (mkClientConfig "https://cdn.example.com/manifest.json" EmptyString
                       "./client.db" 60000000000 30000000000 104857600 "GUL-Client/1.0"
                       true)) by reflexivity.
  split; [exact Hv|].
  exact (proj2 (proj2 (proj2 (proj2 (proj2 (proj2 (proj2 (proj2
           (ClientConfig_Validate_ok _ _ Hv))))))))).
Defined.

Section Verification.
Context `{Ed25519}.

(** X15: A client that [NewClient] returns verifies signatures unless the
    configuration gives no public key, which [Validate] lets through only
    with [insecure_skip_verify]: with a key (of 32 bytes, decoded from the
    hexadecimal text) a manifest without signature is turned down; without
    one every manifest passes. *)
Theorem NewClient_verification (cfg : ClientConfig) (c : Client.Client) :
  NewClient cfg = Ok c ->
  Client.cdnBaseURL c = ManifestURL cfg
  /\ (PublicKeyHex cfg = EmptyString ->
        InsecureSkipVerify cfg = true
        /\ Client.publicKey c = []
        /\ forall manifest data, Client.verifyManifestSignature c manifest data = Ok tt)
  /\ (PublicKeyHex cfg <> EmptyString ->
        len (Client.publicKey c) = 32
        /\ Hex.DecodeString (PublicKeyHex cfg) = Ok (Client.publicKey c)
        /\ forall manifest data,
             Geofence.ManifestSignature manifest = [] ->
             Client.verifyManifestSignature c manifest data
             = Err "manifest has no signature").
Proof.
  unfold NewClient, ClientConfig_Validate. intros Hnew.
  destruct (isEmpty (ManifestURL cfg)); [discriminate|].
  destruct (isEmpty (PublicKeyHex cfg) && negb (InsecureSkipVerify cfg)) eqn:Hsk;
    [discriminate|].
  destruct (isEmpty (StorePath cfg)); [discriminate|].
  cbn [PublicKeyHex UserAgent ManifestURL] in Hnew.
  assert (Hurl : forall key ua,
             Client.cdnBaseURL (Client.mkClient ua key (ManifestURL cfg)) = ManifestURL cfg)
    by reflexivity.
  assert (Hskip : PublicKeyHex cfg = EmptyString -> InsecureSkipVerify cfg = true).
  { intros Hk. apply isEmpty_spec in Hk. rewrite Hk in Hsk.
    now destruct (InsecureSkipVerify cfg). }
  destruct (isEmpty (PublicKeyHex cfg)) eqn:Hempty; simpl in Hnew.
  - injection Hnew as <-. apply isEmpty_spec in Hempty.
    split; [apply Hurl|]. split; [|intros Hne; contradiction].
    intros _. split; [now apply Hskip|]. split; [reflexivity|]. reflexivity.
  - unfold CryptoKeys.UnmarshalPublicKeyHex in Hnew.
    destruct (Hex.DecodeString (PublicKeyHex cfg)) as [key|e]; [|discriminate].
    destruct (Z.eqb_spec (len key) Crypto.PublicKeySize) as [Hlen|Hlen];
      simpl in Hnew; [|discriminate].
    injection Hnew as <-. split; [apply Hurl|]. split.
    { intros Hk. apply isEmpty_spec in Hk. congruence. }
    intros _. split; [exact Hlen|]. split; [reflexivity|].
    intros manifest data Hsig. unfold Client.verifyManifestSignature. simpl.
    rewrite Hlen, Hsig. reflexivity.
Qed.

End Verification.

Definition keyedConfig : ClientConfig :=
  mkClientConfig "https://cdn.example.com/manifest.json"
    (CryptoKeys.MarshalPublicKeyHex (Crypto.PublicKey Examples.exampleKeyPair))
    "./client.db" 0 0 0 EmptyString false.

Lemma NewClient_verification_witness :
  NewClient keyedConfig
  = Ok (Client.mkClient "GUL-Client/1.0" (Crypto.PublicKey Examples.exampleKeyPair)
          "https://cdn.example.com/manifest.json")
  /\ forall manifest data,
       Geofence.ManifestSignature manifest = [] ->
       @Client.verifyManifestSignature Examples.exampleEd25519
         (Client.mkClient "GUL-Client/1.0" (Crypto.PublicKey Examples.exampleKeyPair)
            "https://cdn.example.com/manifest.json") manifest data
       = Err "manifest has no signature".
Proof.
  assert (Hnew : NewClient keyedConfig
                 = Ok (Client.mkClient "GUL-Client/1.0"
                         (Crypto.PublicKey Examples.exampleKeyPair)
                         "https://cdn.example.com/manifest.json"))
    by (vm_compute; reflexivity).
  split; [exact Hnew|].
  destruct (@NewClient_verification Examples.exampleEd25519 _ _ Hnew) as (_ & _ & Hkey).
  apply Hkey. vm_compute. discriminate.
Defined.

(** X16: [NewPublisher] derives the key pair from a nil public key, which
    [DeriveKeyPair] turns down for its size: whatever the configuration,
    the constructor returns an error, and for a valid configuration with a
    private key of 64 bytes it is the error of the derivation. *)
Theorem NewPublisher_never_succeeds {P : Type}
  (rest : PublisherConfig -> Crypto.KeyPair -> result P) (cfg : PublisherConfig) :
  match NewPublisher rest cfg with
  | Ok _ => False
  | Err e =>
      forall cfg' key,
        PublisherConfig_Validate cfg = Ok cfg' ->
        CryptoKeys.UnmarshalPrivateKeyHex (PrivateKeyHex cfg') = Ok key ->
        e = "failed to derive key pair: invalid public key size: 0"
  end.
Proof.
  unfold NewPublisher.
  destruct (PublisherConfig_Validate cfg) as [cfg'|e]; [|intros ? ? Hv; discriminate].
  destruct (CryptoKeys.UnmarshalPrivateKeyHex (PrivateKeyHex cfg')) as [key|e] eqn:Hkey.
  - simpl. intros cfg'' key' _ _. reflexivity.
  - intros cfg'' key' [= <-] Hk. congruence.
Qed.

End SetupSpec.

(* ====================================================================== *)
(** ** client: which manifests are accepted *)
(* ====================================================================== *)

Module ClientOpsSpec.
Import Geofence.

Section WithLibraries.
Context `{JsonCodec} `{Ed25519} `{Network}.

Lemma verifyManifestSignature_ok (c : Client.Client) (manifest : Manifest) (data : bytes) :
  Client.verifyManifestSignature c manifest data = Ok tt
  <-> Client.publicKey c = []
      \/ (ManifestSignature manifest <> []
          /\ Crypto.Verify (Client.publicKey c) data (ManifestSignature manifest) = true
          /\ (ManifestKeyID manifest = EmptyString
              \/ ManifestKeyID manifest = Crypto.computeKeyID (Client.publicKey c))).
Proof.
  unfold Client.verifyManifestSignature.
  assert (Hnil : forall (l : bytes), (len l =? 0) = true <-> l = []).
  { intros l. rewrite Z.eqb_eq. unfold len. destruct l; simpl; split; try done; lia. }
  destruct (len (Client.publicKey c) =? 0) eqn:Hpk.
  { apply Hnil in Hpk. split; [now left | reflexivity]. }
  assert (Hpk' : Client.publicKey c <> []).
  { intros Heq. apply Hnil in Heq. congruence. }
  destruct (len (ManifestSignature manifest) =? 0) eqn:Hsig.
  { apply Hnil in Hsig. split; [discriminate|]. intros [?|(? & _)]; contradiction. }
  assert (Hsig' : ManifestSignature manifest <> []).
  { intros Heq. apply Hnil in Heq. congruence. }
  destruct (Crypto.Verify (Client.publicKey c) data (ManifestSignature manifest)) eqn:Hver;
    simpl.
  2:{ split; [discriminate|]. intros [?|(_ & ? & _)]; [contradiction | discriminate]. }
  assert (Hlen : len (Client.publicKey c) = Crypto.PublicKeySize).
  { unfold Crypto.Verify in Hver.
    destruct (Z.eqb_spec (len (Client.publicKey c)) Crypto.PublicKeySize); [assumption|].
    discriminate. }
  unfold Crypto.PublicKeyToKeyID. rewrite Hlen, Z.eqb_refl. simpl.
  destruct (String.eqb_spec (ManifestKeyID manifest) EmptyString) as [Hid|Hid]; simpl.
  { split; [|reflexivity]. intros _. right. split; [exact Hsig'|]. split; [reflexivity|].
    now left. }
  destruct (String.eqb_spec (Crypto.computeKeyID (Client.publicKey c))
              (ManifestKeyID manifest)) as [Hk|Hk]; simpl.
  - split; [|reflexivity]. intros _. right. split; [exact Hsig'|]. split; [reflexivity|].
    now right.
  - split; [discriminate|]. intros [?|(_ & _ & [?|?])]; [contradiction.. | congruence].
Qed.

(** X17: [FetchManifest] returns a manifest exactly when a base URL is
    configured, the download succeeds, the body decodes to that manifest
    and, if the client has a public key, the manifest carries a signature
    that Ed25519 accepts for the body under that key (of 32 bytes, the
    signature of 64) and its key id, when it names one, is the id of the
    key. *)
Theorem FetchManifest_accepts (c : Client.Client) (manifest : Manifest) :
  Client.FetchManifest c = Ok manifest
  <-> Client.cdnBaseURL c <> EmptyString
      /\ exists body,
           http_manifest (Client.cdnBaseURL c) = Ok body
           /\ json_Unmarshal_Manifest body = Ok manifest
           /\ (Client.publicKey c = []
               \/ (ManifestSignature manifest <> []
                   /\ Crypto.Verify (Client.publicKey c) body (ManifestSignature manifest)
                      = true
                   /\ (ManifestKeyID manifest = EmptyString
                       \/ ManifestKeyID manifest
                          = Crypto.computeKeyID (Client.publicKey c)))).
Proof.
  unfold Client.FetchManifest.
  destruct (String.eqb_spec (Client.cdnBaseURL c) EmptyString) as [Hbase|Hbase].
  { split; [discriminate | now intros [? _]]. }
  destruct (http_manifest (Client.cdnBaseURL c)) as [body|e].
  2:{ split; [discriminate|]. intros (_ & body & Hb & _). discriminate. }
  destruct (json_Unmarshal_Manifest body) as [m|e] eqn:Hjson.
  2:{ split; [discriminate|]. intros (_ & body' & [= <-] & Hj & _). congruence. }
  pose proof (verifyManifestSignature_ok c m body) as Hver.
  destruct (Client.verifyManifestSignature c m body) as [[]|e].
  - split.
    + intros [= <-]. split; [exact Hbase|]. exists body.
      split; [reflexivity|]. split; [exact Hjson|]. now apply Hver.
    + intros (_ & body' & [= <-] & Hj & _). congruence.
  - split; [discriminate|].
    intros (_ & body' & [= <-] & Hj & Hacc).
    assert (m = manifest) as -> by congruence.
    apply Hver in Hacc. discriminate.
Qed.

End WithLibraries.

End ClientOpsSpec.

(* ====================================================================== *)
(** ** geofence: deltas between lists, checks on a list *)
(* ====================================================================== *)

Module GeofenceOpsSpec.
Import Geofence GeofenceOps GeofenceSpec.

(** *** [CreateDelta] followed by [ApplyDelta] *)

(** The fence under the id [k] after the trip: the new fence, unless
    [fencesEqual] takes the old one for equal, in which case the old one
    stays. *)
Definition reconciled (oldFences newFences : list FenceItem) (k : string)
  : option FenceItem :=
  match lastWithID k newFences with
  | None => None
  | Some n =>
      match lastWithID k oldFences with
      | Some o => if fencesEqual o n then Some o else Some n
      | None => Some n
      end
  end.

Lemma lastWithID_NoDup (k : string) (l : list FenceItem) (f : FenceItem) :
  NoDup (ID <$> l) -> (lastWithID k l = Some f <-> f ∈ l /\ ID f = k).
Proof.
  intros Hnd. split.
  - intros Hl. apply lastWithID_Some in Hl as [? ?]. now split.
  - intros [Hin Hid]. destruct (lastWithID k l) as [g|] eqn:Hl.
    + apply lastWithID_Some in Hl as [Hg Hgin]. f_equal.
      apply (StorageSpec.NoDup_map_inj ID l); [exact Hnd | exact Hgin | exact Hin | congruence].
    + apply lastWithID_None in Hl. exfalso. apply Hl. apply list_elem_of_fmap.
      exists f. now split.
Qed.

(** The fences picked from the entries of a map, each under its key, have
    distinct ids. *)
Lemma NoDup_omap_keys (g : string * FenceItem -> option FenceItem)
  (l : list (string * FenceItem)) :
  (forall e f, e ∈ l -> g e = Some f -> ID f = e.1) ->
  NoDup l.*1 -> NoDup (ID <$> omap g l).
Proof.
  induction l as [|e l IH]; intros Hkey Hnd; simpl; [constructor|].
  apply NoDup_cons in Hnd as [Hnotin Hnd].
  assert (Hrest : NoDup (ID <$> omap g l)).
  { apply IH; [|exact Hnd]. intros e' f He'. apply Hkey. now right. }
  destruct (g e) as [f|] eqn:Hg; [|exact Hrest].
  simpl. apply NoDup_cons. split; [|exact Hrest].
  intros Hin. apply list_elem_of_fmap in Hin as (f' & Hid & Hf').
  apply list_elem_of_omap in Hf' as (e' & He' & Hg').
  apply Hnotin. apply list_elem_of_fmap. exists e'. split; [|exact He'].
  rewrite <- (Hkey e f (ltac:(now left)) Hg), Hid.
  apply Hkey; [now right | exact Hg'].
Qed.

Section RoundTrip.
Variables oldFences newFences : list FenceItem.

Let oldMap := mapOfFences oldFences.
Let newMap := mapOfFences newFences.
Let delta := CreateDelta oldFences newFences.

Lemma removed_spec (k : string) :
  k ∈ RemovedIDs delta <-> is_Some (oldMap !! k) /\ newMap !! k = None.
Proof.
  unfold delta, CreateDelta. simpl. fold oldMap newMap.
  rewrite list_elem_of_omap. split.
  - intros ([k' o] & Hin & Hg). simpl in Hg. apply elem_of_map_to_list in Hin.
    destruct (newMap !! k') eqn:Hn; [discriminate|]. injection Hg as <-.
    split; [now rewrite Hin | exact Hn].
  - intros [[o Ho] Hn]. exists (k, o). split; [now apply elem_of_map_to_list|].
    simpl. now rewrite Hn.
Qed.

Lemma added_spec (f : FenceItem) :
  f ∈ Added delta <-> newMap !! ID f = Some f /\ oldMap !! ID f = None.
Proof.
  unfold delta, CreateDelta. simpl. fold oldMap newMap.
  rewrite list_elem_of_omap. split.
  - intros ([k n] & Hin & Hg). simpl in Hg. apply elem_of_map_to_list in Hin.
    destruct (oldMap !! k) eqn:Ho; [discriminate|]. injection Hg as <-.
    pose proof (keyed_mapOfFences newFences k n Hin) as Hid.
    rewrite Hid. now split.
  - intros [Hn Ho]. exists (ID f, f). split; [now apply elem_of_map_to_list|].
    simpl. now rewrite Ho.
Qed.

Lemma updated_spec (f : FenceItem) :
  f ∈ Updated delta
  <-> newMap !! ID f = Some f
      /\ exists o, oldMap !! ID f = Some o /\ fencesEqual o f = false.
Proof.
  unfold delta, CreateDelta. simpl. fold oldMap newMap.
  rewrite list_elem_of_omap. split.
  - intros ([k o] & Hin & Hg). simpl in Hg. apply elem_of_map_to_list in Hin.
    destruct (newMap !! k) as [n|] eqn:Hn; [|discriminate].
    destruct (fencesEqual o n) eqn:Heq; [discriminate|]. injection Hg as <-.
    pose proof (keyed_mapOfFences newFences k n Hn) as Hid.
    rewrite Hid. split; [exact Hn|]. now exists o.
  - intros [Hn (o & Ho & Heq)]. exists (ID f, o).
    split; [now apply elem_of_map_to_list|]. simpl. now rewrite Hn, Heq.
Qed.

Lemma added_NoDup : NoDup (ID <$> Added delta).
Proof.
  unfold delta, CreateDelta. simpl. apply NoDup_omap_keys; [|apply NoDup_fst_map_to_list].
  intros [k n] f Hin Hg. simpl in *. apply elem_of_map_to_list in Hin.
  destruct (mapOfFences oldFences !! k); [discriminate|]. injection Hg as <-.
  exact (keyed_mapOfFences newFences k n Hin).
Qed.

Lemma updated_NoDup : NoDup (ID <$> Updated delta).
Proof.
  unfold delta, CreateDelta. simpl. apply NoDup_omap_keys; [|apply NoDup_fst_map_to_list].
  intros [k o] f Hin Hg. simpl in *.
  destruct (mapOfFences newFences !! k) as [n|] eqn:Hn; [|discriminate].
  destruct (fencesEqual o n); [discriminate|]. injection Hg as <-.
  exact (keyed_mapOfFences newFences k n Hn).
Qed.

Lemma kept_lookup (k : string) :
  removeIDs oldMap (RemovedIDs delta) !! k
  = match newMap !! k with
    | None => None
    | Some _ => oldMap !! k
    end.
Proof.
  rewrite removeIDs_lookup.
  destruct (decide (k ∈ RemovedIDs delta)) as [Hin|Hnin].
  - apply removed_spec in Hin as [_ ->]. reflexivity.
  - destruct (newMap !! k) eqn:Hn; [reflexivity|].
    destruct (oldMap !! k) eqn:Ho; [|reflexivity].
    exfalso. apply Hnin, removed_spec. split; [now rewrite Ho | exact Hn].
Qed.

(** The delta of [CreateDelta] always applies, and the result is the
    reconciled list. *)
Lemma ApplyDelta_CreateDelta_reconciled :
  exists res,
    ApplyDelta oldFences (CreateDelta oldFences newFences) = Ok res
    /\ NoDup (ID <$> res)
    /\ forall f, f ∈ res <-> reconciled oldFences newFences (ID f) = Some f.
Proof.
  unfold ApplyDelta. fold delta oldMap.
  set (kept := removeIDs oldMap (RemovedIDs delta)).
  assert (Hkeyed : keyed kept) by apply keyed_removeIDs, keyed_mapOfFences.
  pose proof (addFences_spec (Added delta) kept) as Hadd.
  destruct (addFences kept (Added delta)) as [m1|msg].
  2:{ exfalso. destruct Hadd as [(a & Ha & Hsome)|Hdup]; [|exact (Hdup added_NoDup)].
      apply added_spec in Ha as [Hn Ho]. unfold kept in Hsome.
      rewrite kept_lookup, Hn, Ho in Hsome. now destruct Hsome. }
  destruct Hadd as (_ & _ & ->).
  set (m1 := foldl (fun m f => <[ID f := f]> m) kept (Added delta)).
  pose proof (updateFences_spec (Updated delta) m1) as Hupd.
  destruct (updateFences m1 (Updated delta)) as [m2|msg].
  2:{ exfalso. destruct Hupd as (u & Hu & Hnone).
      apply updated_spec in Hu as [Hn (o & Ho & _)].
      unfold m1 in Hnone. rewrite insertAll_lookup in Hnone.
      destruct (lastWithID (ID u) (Added delta)); [discriminate|].
      unfold kept in Hnone. rewrite kept_lookup, Hn, Ho in Hnone. discriminate. }
  destruct Hupd as (_ & ->).
  eexists. split; [reflexivity|].
  assert (Hk2 : keyed (foldl (fun m f => <[ID f := f]> m) m1 (Updated delta))).
  { apply keyed_insertAll. unfold m1. now apply keyed_insertAll. }
  destruct (listing_keyed _ Hk2) as [Hnodup Hiff].
  split; [exact Hnodup|].
  intros f. rewrite Hiff. clear Hiff Hnodup Hk2.
  set (k := ID f). unfold reconciled.
  rewrite <- !mapOfFences_lookup. fold oldMap newMap.
  rewrite insertAll_lookup. unfold m1. rewrite insertAll_lookup.
  unfold kept. rewrite kept_lookup.
  destruct (newMap !! k) as [n|] eqn:Hn.
  - pose proof (keyed_mapOfFences newFences k n Hn) as Hidn.
    destruct (oldMap !! k) as [o|] eqn:Ho.
    + assert (Hna : lastWithID k (Added delta) = None).
      { apply lastWithID_None. intros Hin. apply list_elem_of_fmap in Hin as (a & Hid & Ha).
        apply added_spec in Ha as [_ Hao]. rewrite <- Hid in Hao. congruence. }
      rewrite Hna. destruct (fencesEqual o n) eqn:Heq.
      * assert (Hnu : lastWithID k (Updated delta) = None).
        { apply lastWithID_None. intros Hin.
          apply list_elem_of_fmap in Hin as (u & Hid & Hu).
          apply updated_spec in Hu as [Hun (o' & Huo & Hne)].
          rewrite <- Hid in Hun, Huo. congruence. }
        now rewrite Hnu.
      * assert (Hu : lastWithID k (Updated delta) = Some n).
        { apply lastWithID_NoDup; [apply updated_NoDup|]. split; [|exact Hidn].
          apply updated_spec. rewrite Hidn. split; [exact Hn|]. now exists o. }
        now rewrite Hu.
    + assert (Hnu : lastWithID k (Updated delta) = None).
      { apply lastWithID_None. intros Hin.
        apply list_elem_of_fmap in Hin as (u & Hid & Hu).
        apply updated_spec in Hu as [_ (o' & Huo & _)].
        rewrite <- Hid in Huo. congruence. }
      assert (Ha : lastWithID k (Added delta) = Some n).
      { apply lastWithID_NoDup; [apply added_NoDup|]. split; [|exact Hidn].
        apply added_spec. rewrite Hidn. now split. }
      now rewrite Hnu, Ha.
  - assert (Hnu : lastWithID k (Updated delta) = None).
    { apply lastWithID_None. intros Hin.
      apply list_elem_of_fmap in Hin as (u & Hid & Hu).
      apply updated_spec in Hu as [Hun _]. rewrite <- Hid in Hun. congruence. }
    assert (Hna : lastWithID k (Added delta) = None).
    { apply lastWithID_None. intros Hin. apply list_elem_of_fmap in Hin as (a & Hid & Ha).
      apply added_spec in Ha as [Han _]. rewrite <- Hid in Han. congruence. }
    now rewrite Hnu, Hna.
Qed.

End RoundTrip.

(** X18: [ApplyDelta] never turns down the delta that [CreateDelta] computes
    from the same old list. The result holds one fence for each id of the
    new list: the new fence, or the old one where [fencesEqual] sees no
    change (it does not look at the geometry, the signature or the key id).
    When the new list has no repeated id and [fencesEqual] holds between an
    old and a new fence only if they are the same fence, the result is the
    new list, up to the order. *)
Theorem ApplyDelta_CreateDelta (oldFences newFences : list FenceItem) :
  exists res,
    ApplyDelta oldFences (CreateDelta oldFences newFences) = Ok res
    /\ NoDup (ID <$> res)
    /\ (forall f, f ∈ res <-> reconciled oldFences newFences (ID f) = Some f)
    /\ (NoDup (ID <$> newFences) ->
        (forall o n, o ∈ oldFences -> n ∈ newFences -> fencesEqual o n = true -> o = n) ->
        res ≡ₚ newFences).
Proof.
  destruct (ApplyDelta_CreateDelta_reconciled oldFences newFences)
    as (res & Hres & Hids & Hiff).
  exists res. split; [exact Hres|]. split; [exact Hids|]. split; [exact Hiff|].
  intros Hnd Hsame.
  apply NoDup_Permutation.
  - eapply NoDup_fmap_1. exact Hids.
  - eapply NoDup_fmap_1. exact Hnd.
  - intros f. rewrite Hiff. unfold reconciled. split.
    + destruct (lastWithID (ID f) newFences) as [n|] eqn:Hn; [|discriminate].
      apply lastWithID_Some in Hn as [_ Hnin].
      destruct (lastWithID (ID f) oldFences) as [o|] eqn:Ho; [|now intros [= <-]].
      apply lastWithID_Some in Ho as [_ Hoin].
      destruct (fencesEqual o n) eqn:Heq; [|now intros [= <-]].
      intros [= <-]. now rewrite (Hsame o n Hoin Hnin Heq).
    + intros Hin.
      assert (Hn : lastWithID (ID f) newFences = Some f)
        by (apply lastWithID_NoDup; [exact Hnd | now split]).
      rewrite Hn. destruct (lastWithID (ID f) oldFences) as [o|] eqn:Ho; [|reflexivity].
      apply lastWithID_Some in Ho as [_ Hoin].
      destruct (fencesEqual o f) eqn:Heq; [|reflexivity].
      now rewrite (Hsame o f Hoin Hin Heq).
Qed.

Definition zone1 : FenceItem := sampleFence "zone-1" FenceTypePermanentNoFly 100.
Definition zone2 : FenceItem := sampleFence "zone-2" FenceTypeAltitudeLimit 50.
Definition zone2' : FenceItem := sampleFence "zone-2" FenceTypeAltitudeLimit 60.
Definition zone3 : FenceItem := sampleFence "zone-3" FenceTypeSpeedLimit 10.

Lemma ApplyDelta_CreateDelta_witness :
  exists res,
    ApplyDelta [zone1; zone2] (CreateDelta [zone1; zone2] [zone2'; zone3]) = Ok res
    /\ res ≡ₚ [zone2'; zone3].
Proof.
  destruct (ApplyDelta_CreateDelta [zone1; zone2] [zone2'; zone3])
    as (res & Hres & _ & _ & Hperm).
  exists res. split; [exact Hres|]. apply Hperm.
  - apply (bool_decide_unpack _). vm_compute. reflexivity.
  - intros o n Ho Hn.
    apply elem_of_cons in Ho as [->|Ho]; [|apply list_elem_of_singleton in Ho as ->];
      (apply elem_of_cons in Hn as [->|Hn]; [|apply list_elem_of_singleton in Hn as ->]);
      vm_compute; discriminate.
Defined.

(** A change of the geometry alone is not seen: the computed delta is
    empty and the old fence stays. *)
Example CreateDelta_misses_geometry :
  let moved :=
    mkFenceItem "zone-1" FenceTypePermanentNoFly
      (mkGeometry [] None 0%float (Some (mkBoundingBox 0%float 0%float 1%float 1%float)))
      0 0 100 0 0 EmptyString EmptyString [] EmptyString in
  CreateDelta [zone1] [moved] = mkFenceDelta [] [] []
  /\ ApplyDelta [zone1] (CreateDelta [zone1] [moved]) = Ok [zone1].
Proof. split; vm_compute; reflexivity. Qed.

(** *** [CheckFences] *)

Section WithMath.
Context `{GoMath}.

(** The choice among the matching fences, as the loop makes it. *)
Definition pick (highest : option FenceItem) (f : FenceItem) : option FenceItem :=
  match highest with
  | None => Some f
  | Some h => if Priority h <? Priority f then Some f else Some h
  end.

Lemma checkFold (p : Point) (now : Z) (fences : list FenceItem) :
  forall state,
    fold_left (checkStep p now) fences state
    = (fold_left pick
         (List.filter (fun f => ContainsPoint f p && IsActiveAt f now) fences) state.1,
       state.2 ++ List.filter (fun f => ContainsPoint f p && IsActiveAt f now) fences).
Proof.
  induction fences as [|f fences IH]; intros [h acc]; simpl.
  - now rewrite app_nil_r.
  - rewrite IH. unfold checkStep. simpl.
    destruct (ContainsPoint f p && IsActiveAt f now); simpl; [|reflexivity].
    now rewrite <- app_assoc.
Qed.

Lemma pick_highest (others : list FenceItem) :
  forall first,
    fold_left pick others (Some first) = Some (Syncer.highestPriority first others).
Proof.
  unfold Syncer.highestPriority.
  induction others as [|f others IH]; intros first; simpl; [reflexivity|].
  destruct (Priority first <? Priority f); apply IH.
Qed.

(** X19: [CheckFences] lists the fences that contain the point and are active,
    in the order of the input. Without any it allows the flight. Otherwise
    it looks at the first of them of maximal priority: when that one is a
    no-fly zone or a temporary restriction, the flight is refused and the
    fence named; when it is not, the flight is allowed and no fence is
    named, even if a restriction of lower priority matches. *)
Theorem CheckFences_spec (fences : list FenceItem) (p : Point) (now : Z) :
  let matching := List.filter (fun f => ContainsPoint f p && IsActiveAt f now) fences in
  let r := CheckFences fences p now in
  MatchingFences r = matching
  /\ match matching with
     | [] => Allowed r = true /\ Restriction r = None
     | _ =>
         exists sel,
           CheckSpec.firstOfMaxPriority sel matching
           /\ Allowed r = negb (CheckSpec.prohibitive sel)
           /\ Restriction r = (if CheckSpec.prohibitive sel then Some sel else None)
     end.
Proof.
  intros matching r. unfold r, CheckFences. rewrite checkFold. simpl. fold matching.
  destruct matching as [|first others]; simpl; [now repeat split|].
  rewrite pick_highest.
  set (sel := Syncer.highestPriority first others).
  assert (Hsel : CheckSpec.firstOfMaxPriority sel (first :: others))
    by apply CheckSpec.highestPriority_spec.
  unfold CheckSpec.prohibitive.
  destruct ((Type_ sel =? FenceTypePermanentNoFly) || (Type_ sel =? FenceTypeTempRestriction))
    eqn:Hp; simpl.
  - split; [reflexivity|]. exists sel. now rewrite Hp.
  - split; [reflexivity|]. exists sel. now rewrite Hp.
Qed.

(** *** [GetAltitudeLimit] *)

Lemma int32_small (z : Z) : 0 <= z < 2 ^ 31 -> int32 z = z.
Proof. intros Hz. unfold int32. rewrite Z.mod_small; lia. Qed.

Lemma int32_large (z : Z) : 2 ^ 31 <= z < 2 ^ 32 -> int32 z = z - 2 ^ 32.
Proof.
  intros Hz. unfold int32.
  replace (z + 2 ^ 31) with ((z - 2 ^ 31) + 1 * 2 ^ 32) by lia.
  rewrite Z.mod_add by lia. rewrite Z.mod_small; lia.
Qed.

(** X20: For a fence whose [MaxAltitude] is a [uint32]: the limit is
    negative exactly at a point the fence contains, while it is active, when
    the fence is a no-fly zone or a temporary restriction (the limit is
    then -1), or an altitude limit whose [MaxAltitude] is 2^31 or more,
    which the conversion to [int32] turns negative; an altitude limit below
    2^31 is returned as it is. *)
Theorem GetAltitudeLimit_spec (f : FenceItem) (at_ : Point) (now : Z) :
  0 <= MaxAltitude f < 2 ^ 32 ->
  (GetAltitudeLimit f at_ now < 0
   <-> ContainsPoint f at_ = true /\ IsActiveAt f now = true
       /\ (CheckSpec.prohibitive f = true
           \/ (Type_ f = FenceTypeAltitudeLimit /\ 2 ^ 31 <= MaxAltitude f)))
  /\ (ContainsPoint f at_ = true -> IsActiveAt f now = true ->
      Type_ f = FenceTypeAltitudeLimit -> MaxAltitude f < 2 ^ 31 ->
      GetAltitudeLimit f at_ now = MaxAltitude f).
Proof.
  intros Hrange. unfold GetAltitudeLimit, CheckSpec.prohibitive.
  destruct (ContainsPoint f at_); simpl.
  2:{ split; [split; [lia | now intros [? _]] | discriminate]. }
  destruct (IsActiveAt f now); simpl.
  2:{ split; [split; [lia | now intros (_ & ? & _)] | discriminate]. }
  destruct ((Type_ f =? FenceTypePermanentNoFly) || (Type_ f =? FenceTypeTempRestriction))
    eqn:Hp.
  { split.
    - split; [intros _; repeat split; now left | lia].
    - intros _ _ Ht _. rewrite Ht in Hp. discriminate. }
  destruct (Z.eqb_spec (Type_ f) FenceTypeAltitudeLimit) as [Ht|Ht]; simpl.
  2:{ split; [|intros _ _ ?; contradiction].
      split; [lia|]. intros (_ & _ & [?|[? _]]); [discriminate | contradiction]. }
  destruct (Z.ltb_spec 0 (MaxAltitude f)) as [Hpos|Hzero].
  - destruct (Z.lt_ge_cases (MaxAltitude f) (2 ^ 31)) as [Hs|Hl].
    + rewrite int32_small by lia. split; [|reflexivity].
      split; [lia|]. intros (_ & _ & [?|[_ ?]]); [discriminate | lia].
    + rewrite int32_large by lia. split; [|lia].
      split; [|lia]. intros _. repeat split. right. now split.
  - split; [|lia]. split; [lia|]. intros (_ & _ & [?|[_ ?]]); [discriminate | lia].
Qed.

End WithMath.

Lemma GetAltitudeLimit_spec_witness :
  let f := mkFenceItem "ceiling" FenceTypeAltitudeLimit
             (mkGeometry [] None 0%float
                (Some (mkBoundingBox 0%float 0%float 1%float 1%float)))
             0 0 10 4294967295 0 EmptyString EmptyString [] EmptyString in
  @GetAltitudeLimit Examples.noTrig f (mkPoint 0.5%float 0.5%float) 1000 < 0.
Proof.
  intros f.
  apply (proj1 (@GetAltitudeLimit_spec Examples.noTrig f (mkPoint 0.5%float 0.5%float) 1000
                  ltac:(simpl; lia))).
  split; [vm_compute; reflexivity|]. split; [vm_compute; reflexivity|].
  right. split; [reflexivity | simpl; lia].
Defined.

End GeofenceOpsSpec.

(* ====================================================================== *)
(** ** binarydiff: the delta file and its header *)
(* ====================================================================== *)

Module DeltaFormatSpec.
Import Binarydiff DeltaFormat.

(** *** Little-endian integers *)

Lemma le_bytes_length (n : nat) : forall v, length (le_bytes n v) = n.
Proof. induction n as [|n IH]; intros v; simpl; [reflexivity | now rewrite IH]. Qed.

Lemma le_value_le_bytes (n : nat) : forall v, le_value (le_bytes n v) = v mod 256 ^ Z.of_nat n.
Proof.
  induction n as [|n IH]; intros v.
  - simpl. now rewrite Z.mod_1_r.
  - cbn [le_bytes le_value]. rewrite IH, Z_of_byte_of_Z, Z.shiftr_div_pow2 by lia.
    rewrite Nat2Z.inj_succ, Z.pow_succ_r by lia.
    change (2 ^ 8) with 256. symmetry. apply Z.rem_mul_r; [lia|].
    apply Z.pow_pos_nonneg; lia.
Qed.

Lemma io_ReadFull_app (b rest : bytes) :
  b <> [] -> io_ReadFull (length b) (b ++ rest) = (Ok b, rest).
Proof.
  intros Hb. unfold io_ReadFull.
  destruct b as [|x b]; [contradiction|]. clear Hb.
  change (length (x :: b) =? 0)%nat with false. cbv iota.
  change (length ((x :: b) ++ rest) =? 0)%nat with false. cbv iota.
  destruct (Nat.ltb_spec (length ((x :: b) ++ rest)) (length (x :: b))) as [Hlt|_].
  { rewrite length_app in Hlt. lia. }
  now rewrite take_app_length, drop_app_length.
Qed.

Lemma binary_Read_le_bytes (n : nat) (v : Z) (rest : bytes) :
  n <> O ->
  binary_Read n (le_bytes n v ++ rest) = (Ok (v mod 256 ^ Z.of_nat n), rest).
Proof.
  intros Hn. unfold binary_Read.
  rewrite <- (le_bytes_length n v) at 1.
  rewrite io_ReadFull_app.
  - now rewrite le_value_le_bytes.
  - intros Hnil. apply (f_equal (@length byte)) in Hnil.
    rewrite le_bytes_length in Hnil. simpl in Hnil. contradiction.
Qed.

(** *** The header *)

(** Reading what [binaryWriteHeader] wrote, followed by any data: the
    integers come back modulo their width, and the hash is whatever fills
    the 32-byte buffer, the written hash first and then the data that
    follows the header. *)
Lemma binaryReadHeader_after_write (h : DeltaHeader) (data : bytes) :
  Magic h = deltaMagic ->
  binaryReadHeader (binaryWriteHeader h ++ data)
  = (Ok (mkDeltaHeader deltaMagic
           (HeaderVersion h mod 2 ^ 16) (HeaderFromVersion h mod 2 ^ 64)
           (HeaderToVersion h mod 2 ^ 64) (OldSize h mod 2 ^ 64) (NewSize h mod 2 ^ 64)
           (DiffSize h mod 2 ^ 64) (take 32 (HeaderDiffHash h ++ data))),
     drop 32 (HeaderDiffHash h ++ data)).
Proof.
  intros Hmagic. unfold binaryReadHeader, binaryWriteHeader, readBind.
  rewrite Hmagic, <- !app_assoc.
  rewrite (io_ReadFull_app deltaMagic) by discriminate.
  rewrite bool_decide_eq_true_2 by reflexivity.
  change (negb true) with false. cbv beta iota.
  repeat (rewrite binary_Read_le_bytes by discriminate; cbv beta iota).
  reflexivity.
Qed.

(** The fields of a header are within the widths of their types. *)
Definition wellFormed (h : DeltaHeader) : Prop :=
  Magic h = deltaMagic
  /\ 0 <= HeaderVersion h < 2 ^ 16
  /\ 0 <= HeaderFromVersion h < 2 ^ 64 /\ 0 <= HeaderToVersion h < 2 ^ 64
  /\ 0 <= OldSize h < 2 ^ 64 /\ 0 <= NewSize h < 2 ^ 64 /\ 0 <= DiffSize h < 2 ^ 64.

(** X21: A header with a hash of 32 bytes is read back as it was written, and
    the data that follows it is left for the caller. A header written
    without hash is not: the reader fills its hash with up to 32 bytes of
    the data that follows. *)
Theorem binaryReadHeader_roundtrip (h : DeltaHeader) (data : bytes) :
  wellFormed h ->
  (length (HeaderDiffHash h) = 32%nat ->
   binaryReadHeader (binaryWriteHeader h ++ data) = (Ok h, data))
  /\ (HeaderDiffHash h = [] ->
      binaryReadHeader (binaryWriteHeader h ++ data)
      = (Ok (mkDeltaHeader (Magic h) (HeaderVersion h) (HeaderFromVersion h)
               (HeaderToVersion h) (OldSize h) (NewSize h) (DiffSize h) (take 32 data)),
         drop 32 data)).
Proof.
  intros (Hmagic & Hv & Hf & Ht & Ho & Hn & Hd).
  rewrite (binaryReadHeader_after_write h data Hmagic).
  rewrite !Z.mod_small by assumption. split.
  - intros Hlen. rewrite take_app_length' by (symmetry; exact Hlen).
    rewrite drop_app_length' by (symmetry; exact Hlen).
    destruct h. simpl in *. now rewrite Hmagic.
  - intros ->. now rewrite Hmagic.
Qed.

Lemma binaryReadHeader_roundtrip_witness :
  let h := mkDeltaHeader deltaMagic 1 2 3 100 120 28
             (Crypto.sha256 (list_byte_of_string "diff")) in
  binaryReadHeader (binaryWriteHeader h ++ list_byte_of_string "diff")
  = (Ok h, list_byte_of_string "diff").
Proof.
  intros h.
  apply (proj1 (binaryReadHeader_roundtrip h (list_byte_of_string "diff")
                  ltac:(unfold wellFormed; simpl; repeat split; lia))).
  vm_compute. reflexivity.
Defined.

(** What [binaryReadHeader] returns on success: the magic number, and a
    hash that is the first 32 bytes, or fewer at the end of the input, of
    what followed the integers. *)
Lemma binaryReadHeader_ok (input rest : bytes) (h : DeltaHeader) :
  binaryReadHeader input = (Ok h, rest) ->
  Magic h = deltaMagic
  /\ exists tail, HeaderDiffHash h = take 32 tail /\ rest = drop 32 tail.
Proof.
  unfold binaryReadHeader, readBind, binary_Read.
  destruct (io_ReadFull 4 input) as [[magic|e] r0]; [|discriminate].
  destruct (bool_decide (magic = deltaMagic)) eqn:Hm; simpl; [|discriminate].
  apply bool_decide_eq_true_1 in Hm.
  destruct (io_ReadFull 2 r0) as [[b1|e] r1]; [|discriminate].
  destruct (io_ReadFull 8 r1) as [[b2|e] r2]; [|discriminate].
  destruct (io_ReadFull 8 r2) as [[b3|e] r3]; [|discriminate].
  destruct (io_ReadFull 8 r3) as [[b4|e] r4]; [|discriminate].
  destruct (io_ReadFull 8 r4) as [[b5|e] r5]; [|discriminate].
  destruct (io_ReadFull 8 r5) as [[b6|e] r6]; [|discriminate].
  intros [= <- <-]. simpl. split; [exact Hm|]. now exists r6.
Qed.

(** *** The file *)

(** X22: A delta file that [ReadDeltaFile] accepts is for the expected
    version, and its diff data has the SHA-256 digest that the header
    names, unless the input ended inside the hash, in which case there is
    no diff data at all. *)
Theorem ReadDeltaFile_sound (input : bytes) (expectedToVer : Z) (d : DeltaFile) :
  ReadDeltaFile input expectedToVer = Ok d ->
  ToVersion d = expectedToVer
  /\ (Crypto.sha256 (DiffData d) = DiffHash d
      \/ ((length (DiffHash d) < 32)%nat /\ DiffData d = [])).
Proof.
  unfold ReadDeltaFile.
  destruct (binaryReadHeader input) as [[h|e] rest] eqn:Hread; [|discriminate].
  apply binaryReadHeader_ok in Hread as (_ & tail & Hhash & Hrest).
  destruct (negb (bool_decide (Magic h = deltaMagic))); [discriminate|].
  destruct (negb (HeaderVersion h =? 1)); [discriminate|].
  destruct (Z.eqb_spec (HeaderToVersion h) expectedToVer) as [Hto|]; [|discriminate].
  simpl.
  destruct (io_ReadFull (Z.to_nat (DiffSize h)) rest) as [[diffData|e] r] eqn:Hdata;
    [|discriminate].
  destruct (Nat.eqb_spec (length (HeaderDiffHash h)) 32) as [Hlen|Hlen]; simpl.
  - destruct (bool_decide (Crypto.sha256 diffData = HeaderDiffHash h)) eqn:Hd;
      simpl; [|discriminate].
    apply bool_decide_eq_true_1 in Hd. intros [= <-]. simpl. split; [exact Hto | now left].
  - intros [= <-]. simpl. split; [exact Hto|]. right.
    assert (Hshort : (length tail < 32)%nat).
    { rewrite Hhash, length_take in Hlen. lia. }
    split; [rewrite Hhash, length_take; lia|].
    rewrite Hrest, drop_ge in Hdata by lia.
    unfold io_ReadFull in Hdata. simpl in Hdata.
    destruct (Z.to_nat (DiffSize h) =? 0)%nat; [|discriminate]. now injection Hdata as <- _.
Qed.

Definition sampleHeader : DeltaHeader :=
  mkDeltaHeader deltaMagic 1 2 3 100 120 4 (Crypto.sha256 (list_byte_of_string "diff")).

Definition sampleFile : bytes := binaryWriteHeader sampleHeader ++ list_byte_of_string "diff".

Definition sampleDelta : DeltaFile :=
  mkDeltaFile 2 3 100 120 (list_byte_of_string "diff")
    (Crypto.sha256 (list_byte_of_string "diff")).

Lemma ReadDeltaFile_sound_witness :
  ReadDeltaFile sampleFile 3 = Ok sampleDelta
  /\ ToVersion sampleDelta = 3
  /\ (Crypto.sha256 (DiffData sampleDelta) = DiffHash sampleDelta
      \/ ((length (DiffHash sampleDelta) < 32)%nat /\ DiffData sampleDelta = [])).
Proof.
  assert (Hread : ReadDeltaFile sampleFile 3 = Ok sampleDelta) by (vm_compute; reflexivity).
  split; [exact Hread|].
  exact (ReadDeltaFile_sound sampleFile 3 sampleDelta Hread).
Defined.

Section WithJson.
Context `{JsonCodec}.

Lemma int64_uint64 (z : Z) : 0 <= z < 2 ^ 63 -> int64 (uint64 z) = z.
Proof.
  intros Hz. unfold int64, uint64. rewrite (Z.mod_small z) by lia.
  rewrite Z.mod_small; lia.
Qed.

(** X23: The file written by [WriteDeltaFile] is read back by [ReadDeltaFile]
    for the same target version as the delta that [Diff] computes, with
    the two versions filled in (versions within [uint64], sizes within
    [int64], as their Go types have them). *)
Theorem ReadDeltaFile_WriteDeltaFile
  (oldFences newFences : list Geofence.FenceItem) (fromVer toVer : Z) (delta : DeltaFile) :
  Diff oldFences newFences = Ok delta ->
  0 <= fromVer < 2 ^ 64 -> 0 <= toVer < 2 ^ 64 ->
  FromSize delta < 2 ^ 63 -> ToSize delta < 2 ^ 63 -> len (DiffData delta) < 2 ^ 63 ->
  exists file,
    WriteDeltaFile oldFences newFences fromVer toVer = Ok file
    /\ ReadDeltaFile file toVer
       = Ok (mkDeltaFile fromVer toVer (FromSize delta) (ToSize delta) (DiffData delta)
               (DiffHash delta)).
Proof.
  intros Hdiff Hfrom Hto Hfs Hts Hds. unfold WriteDeltaFile. rewrite Hdiff.
  eexists. split; [reflexivity|].
  assert (Hshape : 0 <= FromSize delta /\ 0 <= ToSize delta
                   /\ DiffHash delta = Crypto.sha256 (DiffData delta)).
  { unfold Diff in Hdiff.
    destruct (json_Marshal_FenceCollection _) as [a|]; [|discriminate].
    destruct (json_Marshal_FenceCollection _) as [b|]; [|discriminate].
    destruct (computeDiff a b) as [dd|]; [|discriminate].
    injection Hdiff as <-. simpl. unfold len. repeat split; lia. }
  destruct Hshape as (Hf0 & Ht0 & Hhash).
  assert (Hlen : length (DiffHash delta) = 32%nat)
    by (rewrite Hhash; apply CryptoSpec.sha256_length).
  unfold ReadDeltaFile.
  rewrite binaryReadHeader_after_write by reflexivity. simpl Magic.
  rewrite bool_decide_eq_true_2 by reflexivity. simpl negb. cbv iota.
  cbn [HeaderVersion HeaderToVersion HeaderFromVersion OldSize NewSize DiffSize
       HeaderDiffHash].
  change (1 mod 2 ^ 16 =? 1) with true. simpl negb. cbv iota.
  rewrite (Z.mod_small toVer) by lia. rewrite Z.eqb_refl. simpl negb. cbv iota.
  rewrite take_app_length' by (symmetry; exact Hlen).
  rewrite drop_app_length' by (symmetry; exact Hlen).
  assert (Hsize : Z.to_nat (uint64 (len (DiffData delta)) mod 2 ^ 64)
                  = length (DiffData delta)).
  { unfold uint64. rewrite Z.mod_mod by lia. unfold len in *.
    rewrite Z.mod_small by lia. apply Nat2Z.id. }
  rewrite Hsize.
  assert (Hdata : io_ReadFull (length (DiffData delta)) (DiffData delta)
                  = (Ok (DiffData delta), [])).
  { destruct (DiffData delta) as [|x dd] eqn:Hdd; [reflexivity|].
    rewrite <- (app_nil_r (x :: dd)) at 2. apply io_ReadFull_app. discriminate. }
  rewrite Hdata. rewrite Hlen. simpl Nat.eqb.
  rewrite bool_decide_eq_true_2 by (now rewrite Hhash). simpl.
  rewrite (Z.mod_small fromVer) by lia.
  unfold uint64 at 1 2. rewrite !Z.mod_mod by lia.
  fold (uint64 (FromSize delta)). fold (uint64 (ToSize delta)).
  rewrite !int64_uint64 by lia. reflexivity.
Qed.

End WithJson.

Lemma ReadDeltaFile_WriteDeltaFile_witness :
  let json := Examples.exampleJson [] [] [] in
  let old := [MerkleSpec.zoneA] in
  let new := [MerkleSpec.zoneA; MerkleSpec.zoneB] in
  exists file delta,
    @Diff json old new = Ok delta
    /\ @WriteDeltaFile json old new 1 2 = Ok file
    /\ ReadDeltaFile file 2
       = Ok (mkDeltaFile 1 2 (FromSize delta) (ToSize delta) (DiffData delta)
               (DiffHash delta)).
Proof.
  intros json old new.
  destruct (@Diff json old new) as [delta|e] eqn:Hdiff; [|vm_compute in Hdiff; discriminate].
  destruct (@ReadDeltaFile_WriteDeltaFile json old new 1 2 delta Hdiff)
    as (file & Hw & Hr); try lia.
  - vm_compute in Hdiff. injection Hdiff as <-. vm_compute. reflexivity.
  - vm_compute in Hdiff. injection Hdiff as <-. vm_compute. reflexivity.
  - vm_compute in Hdiff. injection Hdiff as <-. vm_compute. reflexivity.
  - exists file, delta. now repeat split.
Defined.

End DeltaFormatSpec.

(* ====================================================================== *)
(** ** merkle: what the root hash depends on, which proofs exist *)
(* ====================================================================== *)

Module MerkleOpsSpec.
Import Geofence Merkle.

(** *** The order of ids *)

Lemma ltb_lt (a b : string) :
  String.ltb a b = true <-> OrderedTypeEx.String_as_OT.lt a b.
Proof.
  rewrite <- OrderedTypeEx.String_as_OT.cmp_lt.
  unfold String.ltb, OrderedTypeEx.String_as_OT.cmp.
  destruct (String.compare a b); split; congruence.
Qed.

Lemma ltb_trans (a b c : string) :
  String.ltb a b = true -> String.ltb b c = true -> String.ltb a c = true.
Proof.
  rewrite !ltb_lt. apply OrderedTypeEx.String_as_OT.lt_trans.
Qed.

Lemma ltb_irrefl (a : string) : String.ltb a a = false.
Proof.
  destruct (String.ltb a a) eqn:Hlt; [|reflexivity].
  apply ltb_lt in Hlt. apply OrderedTypeEx.String_as_OT.lt_not_eq in Hlt.
  exfalso. apply Hlt. reflexivity.
Qed.

Lemma ltb_total (a b : string) :
  a <> b -> String.ltb a b = true \/ String.ltb b a = true.
Proof.
  intros Hne. unfold String.ltb.
  pose proof (OrderedTypeEx.String_as_OT.cmp_antisym a b) as Hanti.
  pose proof (OrderedTypeEx.String_as_OT.cmp_eq a b) as Heq.
  unfold OrderedTypeEx.String_as_OT.cmp in *.
  destruct (String.compare a b) eqn:Hab.
  - exfalso. now apply Hne, Heq.
  - now left.
  - right. destruct (String.compare b a); try discriminate. reflexivity.
Qed.

(** A fence comes before another one when its id is smaller. *)
Definition before (a b : FenceItem) : Prop := a = b \/ String.ltb (ID a) (ID b) = true.

#[local] Instance before_trans : Transitive before.
Proof.
  intros a b c [->|Hab] [->|Hbc]; [now left | now right | now right|].
  right. now apply (ltb_trans _ (ID b)).
Qed.

#[local] Instance before_antisymm : AntiSymm (=) before.
Proof.
  intros a b [->|Hab] [Hba|Hba]; try done.
  pose proof (ltb_trans _ _ _ Hab Hba) as Hcyc. rewrite ltb_irrefl in Hcyc. discriminate.
Qed.

Lemma insertByID_Permutation (f : FenceItem) (l : list FenceItem) :
  insertByID f l ≡ₚ f :: l.
Proof.
  induction l as [|g l IH]; simpl; [reflexivity|].
  destruct (String.ltb (ID g) (ID f)); [|reflexivity].
  rewrite IH. apply perm_swap.
Qed.

Lemma sortByID_Permutation (l : list FenceItem) : sortByID l ≡ₚ l.
Proof.
  unfold sortByID. induction l as [|f l IH]; simpl; [reflexivity|].
  rewrite insertByID_Permutation. now constructor.
Qed.

Lemma insertByID_sorted (f : FenceItem) (l : list FenceItem) :
  ID f ∉ ID <$> l -> StronglySorted before l -> StronglySorted before (insertByID f l).
Proof.
  induction l as [|g l IH]; simpl; intros Hnew Hs.
  - repeat constructor.
  - apply not_elem_of_cons in Hnew as [Hne Hnew].
    apply StronglySorted_inv in Hs as [Hs Hall].
    destruct (String.ltb (ID g) (ID f)) eqn:Hlt.
    + constructor; [now apply IH|].
      rewrite insertByID_Permutation. constructor; [now right | exact Hall].
    + assert (Hfg : before f g).
      { right. destruct (ltb_total (ID f) (ID g) Hne) as [?|Hgf]; [done | congruence]. }
      constructor; [now constructor|]. constructor; [exact Hfg|].
      eapply Forall_impl; [exact Hall|]. intros x Hx. now transitivity g.
Qed.

Lemma sortByID_sorted (l : list FenceItem) :
  NoDup (ID <$> l) -> StronglySorted before (sortByID l).
Proof.
  unfold sortByID. induction l as [|f l IH]; simpl; intros Hnd; [constructor|].
  apply NoDup_cons in Hnd as [Hnew Hnd].
  apply insertByID_sorted; [|now apply IH].
  change (foldr insertByID [] l) with (sortByID l). now rewrite sortByID_Permutation.
Qed.

Section WithJson.
Context `{JsonCodec}.

(** X24: The tree does not depend on the order in which the fences are given,
    as long as their ids are distinct: the same fences in another order
    give the same result, tree or error, and so the same root hash. *)
Theorem NewTree_order_independent (fences fences' : list FenceItem) :
  NoDup (ID <$> fences) -> fences' ≡ₚ fences -> NewTree fences' = NewTree fences.
Proof.
  intros Hnd Hperm. unfold NewTree, len.
  rewrite (Permutation_length Hperm).
  assert (Hsort : sortByID fences' = sortByID fences).
  { apply (StronglySorted_unique before).
    - apply sortByID_sorted. now rewrite Hperm.
    - now apply sortByID_sorted.
    - now rewrite !sortByID_Permutation. }
  now rewrite Hsort.
Qed.

End WithJson.

Lemma NewTree_order_independent_witness :
  @NewTree (Examples.exampleJson [] [] []) [MerkleSpec.zoneB; MerkleSpec.zoneA]
  = @NewTree (Examples.exampleJson [] [] []) [MerkleSpec.zoneA; MerkleSpec.zoneB].
Proof.
  apply (@NewTree_order_independent (Examples.exampleJson [] [] [])).
  - apply (bool_decide_unpack _). vm_compute. reflexivity.
  - apply perm_swap.
Defined.

(** *** The hashes of the tree *)

(** One level and the whole construction, on the hashes alone. *)
Fixpoint hashLevel (hashes : list bytes) : list bytes :=
  match hashes with
  | [] => []
  | [h] => [Crypto.sha256 h]
  | h1 :: h2 :: rest => Crypto.sha256 (h1 ++ h2) :: hashLevel rest
  end.

Fixpoint hashLoop (fuel : nat) (hashes : list bytes) : list bytes :=
  match fuel with
  | O => hashes
  | S fuel' => if 1 <? len hashes then hashLoop fuel' (hashLevel hashes) else hashes
  end.

Definition rootOfHashes (hashes : list bytes) : option bytes :=
  if len hashes =? 0 then None
  else if len hashes =? 1 then head hashes
  else head (hashLoop (length hashes) hashes).

Lemma list_pair_ind {A} (P : list A -> Prop) :
  P [] -> (forall x, P [x]) -> (forall x y l, P l -> P (x :: y :: l)) -> forall l, P l.
Proof.
  intros Hnil Hone Hstep.
  assert (Hboth : forall l, P l /\ forall x, P (x :: l)).
  { induction l as [|y l [IH1 IH2]]; [now split|].
    split; [apply IH2|]. intros x. now apply Hstep. }
  intros l. apply Hboth.
Qed.

Lemma buildLevel_hashes (nodes : list Node) :
  forall next, Hash <$> (buildLevel next nodes).1 = hashLevel (Hash <$> nodes).
Proof.
  induction nodes as [| x | x y l IH] using list_pair_ind; intros next; try reflexivity.
  cbn [buildLevel]. specialize (IH (S next)).
  destruct (buildLevel (S next) l) as [level next']. simpl in *. f_equal. exact IH.
Qed.

Lemma buildLoop_hashes (fuel : nat) :
  forall next nodes, Hash <$> buildLoop fuel next nodes = hashLoop fuel (Hash <$> nodes).
Proof.
  induction fuel as [|fuel IH]; intros next nodes; simpl; [reflexivity|].
  unfold len. rewrite length_fmap.
  destruct (1 <? Z.of_nat (length nodes)); [|reflexivity].
  pose proof (buildLevel_hashes nodes next) as Hlevel.
  destruct (buildLevel next nodes) as [level next']. simpl in Hlevel.
  now rewrite IH, Hlevel.
Qed.

Lemma buildTree_hashes (next : nat) (nodes : list Node) :
  Hash <$> buildTree next nodes = rootOfHashes (Hash <$> nodes).
Proof.
  unfold buildTree, rootOfHashes, len. rewrite length_fmap.
  destruct (Z.of_nat (length nodes) =? 0); [reflexivity|].
  destruct (Z.of_nat (length nodes) =? 1).
  - now destruct nodes.
  - rewrite <- buildLoop_hashes with (next := next).
    now destruct (buildLoop (length nodes) next nodes).
Qed.

Lemma RootHash_hashes (next : nat) (nodes : list Node) (leafMap : gmap string Node) :
  RootHash (mkTree (buildTree next nodes) leafMap)
  = default zeroHash (rootOfHashes (Hash <$> nodes)).
Proof.
  rewrite <- (buildTree_hashes next). unfold RootHash. simpl.
  now destruct (buildTree next nodes).
Qed.

Lemma insertByID_clearSignature (f : FenceItem) (l : list FenceItem) :
  insertByID (clearSignature f) (clearSignature <$> l) = clearSignature <$> insertByID f l.
Proof.
  induction l as [|g l IH]; simpl; [reflexivity|].
  destruct (String.ltb (ID g) (ID f)); simpl; [f_equal; exact IH | reflexivity].
Qed.

Lemma sortByID_clearSignature (l : list FenceItem) :
  sortByID (clearSignature <$> l) = clearSignature <$> sortByID l.
Proof.
  unfold sortByID. induction l as [|f l IH]; [reflexivity|].
  rewrite fmap_cons. cbn [foldr]. rewrite IH. apply insertByID_clearSignature.
Qed.

Section WithJson.
Context `{JsonCodec}.

Lemma makeLeaves_hashes (sorted : list FenceItem) :
  forall n1 n2 m1 m2 nodes1 nodes2 r1 r2,
    makeLeaves n1 sorted m1 = Ok (nodes1, r1) ->
    makeLeaves n2 (clearSignature <$> sorted) m2 = Ok (nodes2, r2) ->
    Hash <$> nodes1 = Hash <$> nodes2.
Proof.
  induction sorted as [|f sorted IH]; intros n1 n2 m1 m2 nodes1 nodes2 r1 r2; simpl.
  - now intros [= <- _] [= <- _].
  - change (clearSignature (clearSignature f)) with (clearSignature f).
    destruct (json_Marshal_FenceItem f) as [data|]; [|discriminate].
    destruct (json_Marshal_FenceItem (clearSignature f)) as [dataForHash|]; [|discriminate].
    destruct (makeLeaves (S n1) sorted _) as [[ns1 l1]|] eqn:H1; [|discriminate].
    intros [= <- _].
    match goal with
    | |- context [makeLeaves ?n ?l ?m] =>
        destruct (makeLeaves n l m) as [[ns2 l2]|] eqn:H2; [|discriminate]
    end.
    intros [= <- _]. simpl. f_equal. exact (IH _ _ _ _ _ _ _ _ H1 H2).
Qed.

(** X25: The root hash does not cover the signatures of the fences: the tree of
    the fences without their signatures has the same root hash. *)
Theorem RootHash_ignores_signatures (fences : list FenceItem) (t t' : Tree) :
  NewTree fences = Ok t ->
  NewTree (clearSignature <$> fences) = Ok t' ->
  RootHash t' = RootHash t.
Proof.
  unfold NewTree, len. rewrite length_fmap, sortByID_clearSignature.
  destruct (Z.of_nat (length fences) =? 0); [now intros [= <-] [= <-]|].
  destruct (makeLeaves 0 (sortByID fences) ∅) as [[nodes leafMap]|] eqn:H1; [|discriminate].
  destruct (makeLeaves 0 (clearSignature <$> sortByID fences) ∅)
    as [[nodes' leafMap']|] eqn:H2; [|discriminate].
  intros [= <-] [= <-]. rewrite !RootHash_hashes.
  now rewrite (makeLeaves_hashes _ _ _ _ _ _ _ _ _ H1 H2).
Qed.

(** *** Which proofs exist *)

Lemma makeLeaves_dom (sorted : list FenceItem) :
  forall next leafMap nodes leafMap',
    makeLeaves next sorted leafMap = Ok (nodes, leafMap') ->
    forall k, is_Some (leafMap' !! k) <-> is_Some (leafMap !! k) \/ k ∈ ID <$> sorted.
Proof.
  induction sorted as [|f sorted IH]; intros next leafMap nodes leafMap'; simpl.
  - intros [= _ <-] k. rewrite elem_of_nil. tauto.
  - destruct (json_Marshal_FenceItem f) as [data|]; [|discriminate].
    destruct (json_Marshal_FenceItem (clearSignature f)) as [dataForHash|]; [|discriminate].
    destruct (makeLeaves (S next) sorted _) as [[ns l1]|] eqn:Hrest; [|discriminate].
    intros [= _ <-] k. rewrite (IH _ _ _ _ Hrest k), elem_of_cons.
    rewrite lookup_insert_is_Some. destruct (decide (ID f = k)) as [->|Hne].
    + split; [intros _; right; now left | intros _; left; now left].
    + split.
      * intros [[?|[_ ?]]|?]; [congruence | now left | right; now right].
      * intros [?|[?|?]]; [left; right; now split | congruence | now right].
Qed.

(** X26: [GetProof] returns a proof exactly for the ids of the fences the tree
    was built from; for every other id it reports that the fence is not
    found. *)
Theorem GetProof_exists (fences : list FenceItem) (t : Tree) (fenceID : string) :
  NewTree fences = Ok t ->
  (fenceID ∈ ID <$> fences -> exists proof, GetProof t fenceID = Ok proof)
  /\ (fenceID ∉ ID <$> fences -> GetProof t fenceID = Err ("fence not found: " ++ fenceID)).
Proof.
  unfold NewTree, len.
  destruct (Z.eqb_spec (Z.of_nat (length fences)) 0) as [Hlen|_].
  { intros [= <-]. destruct fences; [|simpl in Hlen; lia].
    split; [intros Hin; now apply elem_of_nil in Hin | reflexivity]. }
  destruct (makeLeaves 0 (sortByID fences) ∅) as [[nodes leafMap]|] eqn:Hleaves;
    [|discriminate].
  intros [= <-]. unfold GetProof. simpl.
  pose proof (makeLeaves_dom _ _ _ _ _ Hleaves fenceID) as Hdom.
  rewrite lookup_empty, sortByID_Permutation in Hdom.
  destruct (leafMap !! fenceID) as [leaf|].
  - split; [intros _; now eexists|].
    intros Hnot. exfalso. apply Hnot. destruct Hdom as [[Hs|?] _]; [done| |done].
    now destruct Hs.
  - split; [|reflexivity].
    intros Hin. destruct Hdom as [_ Hs]. destruct Hs as [? ?]; [now right | discriminate].
Qed.

(** X27: A tree of one fence: the proof of the fence is empty and
    [VerifyProof] accepts it for the encoded fence, when decoding gives the
    fence back. *)
Theorem single_fence_proof (f : FenceItem) (data dataForHash : bytes) :
  json_Marshal_FenceItem f = Ok data ->
  json_Marshal_FenceItem (clearSignature f) = Ok dataForHash ->
  json_Unmarshal_FenceItem data = Ok f ->
  exists t,
    NewTree [f] = Ok t
    /\ RootHash t = Crypto.sha256 dataForHash
    /\ GetProof t (ID f) = Ok []
    /\ VerifyProof (ID f) data [] (RootHash t) = Ok true.
Proof.
  intros Hdata Hhash Hdecode. unfold NewTree. simpl. rewrite Hdata, Hhash.
  eexists. split; [reflexivity|]. split; [reflexivity|]. split.
  - unfold GetProof. simpl. rewrite lookup_insert_eq. simpl.
    unfold samePtr. simpl. reflexivity.
  - unfold VerifyProof. rewrite Hdecode, Hhash. simpl.
    now rewrite bool_decide_eq_true_2.
Qed.

End WithJson.

Definition signedZoneA : FenceItem :=
  mkFenceItem "zone-a" FenceTypePermanentNoFly (mkGeometry [] None 0%float None)
    0 0 100 0 0 EmptyString EmptyString (list_byte_of_string "signature")
    "0123456789abcdef".

Definition sampleJson : JsonCodec :=
  Examples.exampleJson [signedZoneA; MerkleSpec.zoneB] [] [].

Definition sampleTree (fences : list FenceItem) : Tree :=
  match @NewTree sampleJson fences with
  | Ok t => t
  | Err _ => mkTree None ∅
  end.

Lemma RootHash_ignores_signatures_witness :
  RootHash (sampleTree (clearSignature <$> [signedZoneA; MerkleSpec.zoneB]))
  = RootHash (sampleTree [signedZoneA; MerkleSpec.zoneB]).
Proof.
  apply (@RootHash_ignores_signatures sampleJson [signedZoneA; MerkleSpec.zoneB]);
    vm_compute; reflexivity.
Defined.

Lemma GetProof_exists_witness :
  (exists proof, GetProof (sampleTree [signedZoneA; MerkleSpec.zoneB]) "zone-b" = Ok proof)
  /\ GetProof (sampleTree [signedZoneA; MerkleSpec.zoneB]) "zone-c"
     = Err "fence not found: zone-c".
Proof.
  destruct (@GetProof_exists sampleJson [signedZoneA; MerkleSpec.zoneB]
              (sampleTree [signedZoneA; MerkleSpec.zoneB]) "zone-b"
              ltac:(vm_compute; reflexivity)) as [Hin _].
  destruct (@GetProof_exists sampleJson [signedZoneA; MerkleSpec.zoneB]
              (sampleTree [signedZoneA; MerkleSpec.zoneB]) "zone-c"
              ltac:(vm_compute; reflexivity)) as [_ Hout].
  split.
  - apply Hin. apply (bool_decide_unpack _). vm_compute. reflexivity.
  - apply Hout. apply (bool_decide_unpack _). vm_compute. reflexivity.
Defined.

Lemma single_fence_proof_witness :
  exists t data,
    @json_Marshal_FenceItem sampleJson signedZoneA = Ok data
    /\ @NewTree sampleJson [signedZoneA] = Ok t
    /\ GetProof t "zone-a" = Ok []
    /\ @VerifyProof sampleJson "zone-a" data [] (RootHash t) = Ok true.
Proof.
  destruct (@json_Marshal_FenceItem sampleJson signedZoneA) as [data|e] eqn:Hdata;
    [|vm_compute in Hdata; discriminate].
  destruct (@json_Marshal_FenceItem sampleJson (clearSignature signedZoneA))
    as [dataForHash|e] eqn:Hhash; [|vm_compute in Hhash; discriminate].
  destruct (@single_fence_proof sampleJson signedZoneA data dataForHash Hdata Hhash)
    as (t & Ht & _ & Hproof & Hverify).
  - vm_compute in Hdata. injection Hdata as <-. vm_compute. reflexivity.
  - exists t, data. repeat split; assumption.
Defined.

End MerkleOpsSpec.

(* ====================================================================== *)
(** ** binarydiff: deltas between fence lists *)
(* ====================================================================== *)

Module BinarydiffOpsSpec.
Import Binarydiff BinarydiffSpec.

(** X28: [computeDiff] always returns a diff, never more than 8 bytes longer
    than the new data: the new data itself under the two heuristics, else
    the two lengths and the changed middle. *)
Theorem computeDiff_length (oldData newData : bytes) :
  exists diffData,
    computeDiff oldData newData = Ok diffData
    /\ len diffData <= len newData + 8
    /\ (emitsVerbatim oldData newData = true -> diffData = newData)
    /\ (emitsVerbatim oldData newData = false -> 8 <= len diffData).
Proof.
  unfold computeDiff, emitsVerbatim.
  destruct (len newData <? len oldData); simpl.
  { exists newData. split; [reflexivity|]. split; [lia|]. split; [reflexivity | discriminate]. }
  destruct (tooDifferent oldData newData).
  { exists newData. split; [reflexivity|]. split; [lia|]. split; [reflexivity | discriminate]. }
  eexists. split; [reflexivity|].
  unfold len. cbn [length]. unfold slice. rewrite length_take, length_drop.
  split; [lia|]. split; [discriminate | lia].
Qed.

Section WithJson.
Context `{JsonCodec}.

(** X29: [PatchFences] applied to the delta that [Diff] computes gives the new
    fences back, when the encodings of the two lists meet the conditions
    under which [Patch] inverts [computeDiff] and the new encoding decodes
    to the new list: the delta carries the digest of its data, so the hash
    check passes. *)
Theorem PatchFences_Diff
  (oldFences newFences : list Geofence.FenceItem) (a b : bytes)
  (decoded : Geofence.FenceCollection) :
  json_Marshal_FenceCollection (collectionOf oldFences) = Ok a ->
  json_Marshal_FenceCollection (collectionOf newFences) = Ok b ->
  json_Unmarshal_FenceCollection b = Ok decoded ->
  Geofence.Items decoded = newFences ->
  (emitsVerbatim a b = false -> len b <= maxPatchedLen) ->
  (emitsVerbatim a b = true -> takenForRaw a b) ->
  exists delta,
    Diff oldFences newFences = Ok delta
    /\ FromSize delta = len a /\ ToSize delta = len b
    /\ DiffHash delta = Crypto.sha256 (DiffData delta)
    /\ PatchFences oldFences delta = Ok newFences.
Proof.
  intros Ha Hb Hdec Hitems Hdelta Hraw. unfold Diff, PatchFences. rewrite Ha, Hb.
  assert (Htrip : exists d, computeDiff a b = Ok d /\ Patch a d = Ok b).
  { unfold emitsVerbatim in Hdelta, Hraw. unfold computeDiff.
    destruct (Z.ltb_spec (len b) (len a)) as [Hshort|Hlong]; simpl in *.
    - exists b. split; [reflexivity|]. apply Patch_takenForRaw. now apply Hraw.
    - destruct (tooDifferent a b).
      + exists b. split; [reflexivity|]. apply Patch_takenForRaw. now apply Hraw.
      + eexists. split; [reflexivity|].
        apply Patch_delta_form; [unfold len in Hlong; lia | now apply Hdelta]. }
  destruct Htrip as (d & Hd & Hpatch). rewrite Hd.
  eexists. split; [reflexivity|]. cbn [FromSize ToSize DiffHash DiffData].
  split; [reflexivity|]. split; [reflexivity|]. split; [reflexivity|].
  rewrite bool_decide_eq_true_2 by reflexivity.
  change (negb true) with false. rewrite andb_false_r, Hpatch, Hdec. now rewrite Hitems.
Qed.

End WithJson.

Definition twoZones : list Geofence.FenceItem := [MerkleSpec.zoneA; MerkleSpec.zoneB].

Definition zonesCodec : JsonCodec :=
  Examples.exampleJson [] [collectionOf twoZones] [].

Lemma PatchFences_Diff_witness :
  exists delta,
    @Diff zonesCodec [MerkleSpec.zoneA] twoZones = Ok delta
    /\ DiffHash delta = Crypto.sha256 (DiffData delta)
    /\ @PatchFences zonesCodec [MerkleSpec.zoneA] delta = Ok twoZones.
Proof.
  destruct (@json_Marshal_FenceCollection zonesCodec (collectionOf [MerkleSpec.zoneA]))
    as [a|e] eqn:Ha; [|vm_compute in Ha; discriminate].
  destruct (@json_Marshal_FenceCollection zonesCodec (collectionOf twoZones))
    as [b|e] eqn:Hb; [|vm_compute in Hb; discriminate].
  destruct (@PatchFences_Diff zonesCodec [MerkleSpec.zoneA] twoZones a b
              (collectionOf twoZones) Ha Hb) as (delta & Hdiff & _ & _ & Hhash & Hpatch).
  - vm_compute in Hb. injection Hb as <-. vm_compute. reflexivity.
  - reflexivity.
  - vm_compute in Ha, Hb. injection Ha as <-. injection Hb as <-.
    vm_compute. discriminate.
  - vm_compute in Ha, Hb. injection Ha as <-. injection Hb as <-.
    intros _. right. left. vm_compute. reflexivity.
  - exists delta. now repeat split.
Defined.

End BinarydiffOpsSpec.

(* ====================================================================== *)
(** ** binarydiff: what the statistics count *)
(* ====================================================================== *)

Module DiffStatsSpec.
Import Geofence DiffStats.

(** The ids of a list of fences. *)
Definition idsOf (fences : list FenceItem) : gset string := list_to_set (ID <$> fences).

Lemma countStep_fold (oldMap : gset string) (entries : list (string * FenceItem)) :
  forall counts,
    fold_left (countStep oldMap) entries counts
    = (counts.1 + Z.of_nat (length (filter (fun k => k ∉ oldMap) entries.*1)),
       counts.2 + Z.of_nat (length (filter (fun k => k ∈ oldMap) entries.*1))).
Proof.
  induction entries as [|e entries IH]; intros [a u]; simpl.
  - f_equal; lia.
  - rewrite IH. unfold countStep. rewrite !filter_cons.
    destruct (decide (e.1 ∈ oldMap)) as [Hin|Hnin].
    + rewrite (decide_False (P := e.1 ∉ oldMap)) by (intros Hn; now apply Hn).
      cbn [fst snd length].
      change (list_fmap (string * FenceItem)%type string fst entries) with (entries.*1).
      f_equal; lia.
    + rewrite (decide_True (P := e.1 ∉ oldMap)) by exact Hnin.
      cbn [fst snd length].
      change (list_fmap (string * FenceItem)%type string fst entries) with (entries.*1).
      f_equal; lia.
Qed.

Lemma dom_mapOfFences (fences : list FenceItem) :
  dom (mapOfFences fences) = idsOf fences.
Proof.
  apply set_eq. intros k. unfold idsOf.
  rewrite elem_of_dom, elem_of_list_to_set, GeofenceSpec.mapOfFences_lookup.
  rewrite <- not_eq_None_Some, GeofenceSpec.lastWithID_None.
  split; [|now intros ? ?]. intros Hnn.
  destruct (decide (k ∈ ID <$> fences)); [done | now destruct Hnn].
Qed.

Lemma size_filtered_keys (m : gmap string FenceItem) (P : string -> Prop)
  `{!forall k, Decision (P k)} :
  length (filter P (map_to_list m).*1) = size (filter P (dom m)).
Proof.
  assert (Hset : filter P (dom m) = list_to_set (filter P (map_to_list m).*1)).
  { apply set_eq. intros k.
    rewrite elem_of_filter, elem_of_list_to_set, list_elem_of_filter, elem_of_dom.
    assert (Hk : k ∈ (map_to_list m).*1 <-> is_Some (m !! k)).
    { rewrite list_elem_of_fmap. split.
      - intros ([k' v] & -> & Hin). apply elem_of_map_to_list in Hin. now exists v.
      - intros [v Hv]. exists (k, v). split; [reflexivity | now apply elem_of_map_to_list]. }
    now rewrite Hk. }
  rewrite Hset, size_list_to_set; [reflexivity|].
  apply NoDup_filter, NoDup_fst_map_to_list.
Qed.

Lemma size_split (X Y : gset string) : size X = (size (X ∖ Y) + size (X ∩ Y))%nat.
Proof.
  rewrite <- size_union.
  2:{ apply elem_of_disjoint. intros k.
      rewrite elem_of_difference, elem_of_intersection. tauto. }
  f_equal.
  apply set_eq. intros k. rewrite elem_of_union, elem_of_difference, elem_of_intersection.
  destruct (decide (k ∈ Y)); tauto.
Qed.

(** X30: [computeDeltaStats] counts as added the new ids that the old list does
    not have and as updated the new ids that it has, whether or not the
    fence changed. Its count of removed fences is the difference of the
    numbers of ids, never below zero: the number of old ids that are gone,
    less the number of added ones. *)
Theorem computeDeltaStats_spec (oldFences newFences : list FenceItem) :
  let O := idsOf oldFences in
  let N := idsOf newFences in
  computeDeltaStats oldFences newFences
  = (Z.of_nat (size (N ∖ O)),
     Z.max 0 (Z.of_nat (size (O ∖ N)) - Z.of_nat (size (N ∖ O))),
     Z.of_nat (size (N ∩ O))).
Proof.
  intros O N. unfold computeDeltaStats. fold (idsOf oldFences). fold O.
  rewrite countStep_fold. simpl.
  rewrite (size_filtered_keys _ (fun k => k ∉ O)), (size_filtered_keys _ (fun k => k ∈ O)).
  rewrite <- size_dom, dom_mapOfFences. fold N.
  assert (Ha : filter (fun k => k ∉ O) N = N ∖ O).
  { apply set_eq. intros k. rewrite elem_of_filter, elem_of_difference. tauto. }
  assert (Hu : filter (fun k => k ∈ O) N = N ∩ O).
  { apply set_eq. intros k. rewrite elem_of_filter, elem_of_intersection. tauto. }
  rewrite Ha, Hu.
  pose proof (size_split O N) as HO. pose proof (size_split N O) as HN.
  assert (Hcap : O ∩ N = N ∩ O).
  { apply set_eq. intros k. rewrite !elem_of_intersection. tauto. }
  rewrite Hcap in HO.
  destruct (Z.ltb_spec (Z.of_nat (size O) - Z.of_nat (size N)) 0);
    do 2 f_equal; lia.
Qed.

(** The old fence is replaced by another one: one addition, and no
    removal in the count. *)
Example computeDeltaStats_replacement :
  computeDeltaStats [MerkleSpec.zoneA] [MerkleSpec.zoneB] = (1, 0, 0)
  /\ ComputeDeltaSize [MerkleSpec.zoneA] [MerkleSpec.zoneB] = Ok 200.
Proof. split; vm_compute; reflexivity. Qed.

End DiffStatsSpec.
